(** * terramate: let evaluation and changed-stack detection

    A shallow embedding of two parts of the repository:

    - package [lets] (the let block loader and the fixpoint evaluator
      [Exprs.Eval]), and
    - package [stack] (the stack manager: [ListChanged], [moduleChanged],
      [listChangedFiles] and their helpers in [stack/manager.go], with
      [List], [AddWantedOf] and the [sort] interface of the entries; and
      the evaluation context of a stack in [stack/eval.go]).

    Go maps are finite maps ([gmap]); the unspecified iteration order of a
    [range] over a map is an explicit argument, constrained only to
    enumerate the map.  Functions of packages that are not part of the
    sources (hcl, git, os, filepath, tf, config, project, trigger, dag,
    run, eval) are fields of the records the code receives, or of a [World]
    record, or variables of a section. *)

From Stdlib Require Import Structures.OrdersEx ZArith.
From stdpp Require Import gmap strings list sorting relations.


(** ** Go results *)

(** A Go [(T, error)] pair. *)
Inductive result (E A : Type) : Type :=
| Ok (a : A)
| Err (e : E).
Arguments Ok {E A} a.
Arguments Err {E A} e.

(** A Go call that may also panic; [OutOfFuel] is the verdict of a bounded
    model of a loop or recursion when the bound given to it was too small. *)
Inductive outcome (A : Type) : Type :=
| Return (a : A)
| Panic (msg : string)
| OutOfFuel.
Arguments Return {A} a.
Arguments Panic {A} msg.
Arguments OutOfFuel {A}.

Definition isPanic {A} (o : outcome A) : bool :=
  match o with Panic _ => true | _ => false end.

Definition isReturn {A} (o : outcome A) : bool :=
  match o with Return _ => true | _ => false end.

(** ** Errors *)

Module Errors.

(** [errors.Kind] is a string type. *)
Definition Kind := string.

Record Pos := { Line : nat; Column : nat; Byte : nat }.

Record Range := { Filename : string; Start : Pos; End : Pos }.

(** Modelled from the spec: package [errors] ([errors.E], [errors.L],
      [List.Append], [List.AppendWrap], [List.AsError]) is not among the
      sources.  An error is a structured record carrying a kind tag, an
      optional source range, a human message and zero or more wrapped
      causes; wrapping an error list makes its members the causes. *)
#[warnings="-register-all"]
Inductive Error : Type :=
  | E (kind : option Kind) (rng : option Range) (description : string)
      (causes : list Error).

Definition errKind (e : Error) : option Kind :=
    match e with E k _ _ _ => k end.
Definition errRange (e : Error) : option Range :=
    match e with E _ r _ _ => r end.
Definition errDescription (e : Error) : string :=
    match e with E _ _ d _ => d end.
Definition errCauses (e : Error) : list Error :=
    match e with E _ _ _ c => c end.

(** [errors.L()] and [List.Append]. *)
Definition L : list Error := [].
Definition Append (l : list Error) (e : Error) : list Error := l ++ [e].

(** [List.AsError]: nil for the empty list, the list otherwise. *)
Definition AsError (l : list Error) : option (list Error) :=
    match l with [] => None | _ => Some l end.

(** [errors.E(kind, err)] for [err] a single error or a list. *)
Definition Wrap (kind : Kind) (causes : list Error) : Error :=
    E (Some kind) None EmptyString causes.

(** [List.AppendWrap(kind, err)]. *)
Definition AppendWrap (l : list Error) (kind : Kind) (causes : list Error)
    : list Error :=
    Append l (Wrap kind causes).

(** The text [name] occurs in the message of the error or of one of the
    errors it wraps. *)
Fixpoint mentions (name : string) (e : Error) : bool :=
  match e with
  | E _ _ d causes =>
      (if String.index 0 name d is Some _ then true else false)
      || existsb (mentions name) causes
  end.

(** A Go [error] value: a single error or an error list. *)
Inductive goError : Type :=
| ErrorOf (e : Error)
| ListOf (l : list Error).

End Errors.

Import Errors.

(** ** Package lets *)

Module Lets.

Definition ErrEval : Kind := "lets eval".
Definition ErrRedefined : Kind := "lets redefined".

(** *** The hcl interface the evaluator consumes *)

(** The steps of an [hcl.Traversal] after its root. *)
Inductive Traverser (cty : Type) : Type :=
  | TraverseAttr (Name : string) (SrcRange : Range)
  | TraverseIndex (Key : cty) (SrcRange : Range)
  | TraverseSplat (SrcRange : Range).
Arguments TraverseAttr {cty} Name SrcRange.
Arguments TraverseIndex {cty} Key SrcRange.
Arguments TraverseSplat {cty} SrcRange.

(** An absolute [hcl.Traversal], as [Expression.Variables] and
      [hcl.AbsTraversalForExpr] return them: element 0 is a [TraverseRoot]
      with name [RootName], element [i+1] is [steps !! i]. *)
Record Traversal (cty : Type) : Type := {
    RootName : string;
    steps : list (Traverser cty);
    SourceRange : Range
  }.
Arguments RootName {cty} _.
Arguments steps {cty} _.
Arguments SourceRange {cty} _.

(** [len(traversal)] *)
Definition traversalLen {cty} (t : Traversal cty) : nat := S (length (steps t)).

(** Modelled from the spec: [eval.Context] is not among the sources.  It
      holds named namespaces, each a mapping from names to values. *)
Record Context (cty : Type) : Type := { namespaces : gmap string (gmap string cty) }.
Arguments namespaces {cty} _.

Definition HasNamespace {cty} (ctx : Context cty) (name : string) : bool :=
    bool_decide (is_Some (namespaces ctx !! name)).

Definition SetNamespace {cty} (ctx : Context cty) (name : string)
      (vals : gmap string cty) : Context cty :=
    {| namespaces := <[name := vals]> (namespaces ctx) |}.

(** An [hcl.Expression]: the queries the evaluator makes on it. *)
Record Expression (cty : Type) : Type := {
    Variables : list (Traversal cty);
    ExprRange : Range;
    (* ctx.Eval(expr) *)
    ExprValue : Context cty → result Error cty;
    (* hcl.AbsTraversalForExpr(expr); None when the diagnostics have errors *)
    AbsTraversalForExpr : option (Traversal cty)
  }.
Arguments Variables {cty} _.
Arguments ExprRange {cty} _.
Arguments ExprValue {cty} _ _.
Arguments AbsTraversalForExpr {cty} _.

(** *** Types of the package *)

Record Expr (cty : Type) : Type := {
    Origin : Range;
    Expression_ : Expression cty
  }.
Arguments Origin {cty} _.
Arguments Expression_ {cty} _.

Record Value (cty : Type) : Type := {
    VOrigin : Range;
    Value_ : cty
  }.
Arguments VOrigin {cty} _.
Arguments Value_ {cty} _.

Section Eval.
Context {cty : Type}.

#[local] Abbreviation Exprs := (gmap string (Expr cty)).
#[local] Abbreviation Map := (gmap string (Value cty)).

(** The order in which the [n]-th executed [range] statement produces
        the entries of the map it ranges over. *)
Variable order : nat → Exprs → list (string * Expr cty).

(** [Map.Attributes] *)
Definition Attributes (lets : Map) : gmap string cty := Value_ <$> lets.

(** [copyexprs(dst, src)] *)
Definition copyexprs (dst src : Exprs) : Exprs :=
      foldl (λ d kv, <[kv.1 := kv.2]> d) dst (order 0 src).

(** The test [removeUnset] makes on one expression. *)
Definition isUnset (expr : Expr cty) : bool :=
      match AbsTraversalForExpr (Expression_ expr) with
      | None => false
      | Some traversal =>
          if bool_decide (traversalLen traversal ≠ 1) then false
          else bool_decide (RootName traversal = "unset")
      end.

(** [removeUnset(exprs)] *)
Definition removeUnset (exprs : Exprs) : Exprs :=
      foldl (λ m kv, if isUnset kv.2 then delete kv.1 m else m)
            exprs (order 1 exprs).

(** State of the locals of [Exprs.Eval]. *)
Record EvalState : Type := {
      lets : Map;
      pendingExprsErrs : gmap string (list Error);
      pendingExprs : Exprs;
      ctx : Context cty;
      amountEvaluated : nat
    }.

Definition unknownNamespace (namespace : Traversal cty) : Error :=
      E (Some ErrEval) (Some (SourceRange namespace))
        ("unknown variable namespace: " +:+ RootName namespace) [].

(** The verdict of the loop over [vars]: a panic, [continue
        pendingExpression], or the end of the loop; the last two with the
        errors appended to [pendingExprsErrs[name]] so far. *)
Inductive scan : Type :=
    | ScanPanic (msg : string)
    | ScanSkip (errs : list Error)
    | ScanDone (errs : list Error).

Fixpoint checkVars (c : Context cty) (pending : Exprs)
        (vars : list (Traversal cty)) (errs : list Error) : scan :=
      match vars with
      | [] => ScanDone errs
      | namespace :: vars' =>
          if negb (HasNamespace c (RootName namespace)) then
            checkVars c pending vars' (Append errs (unknownNamespace namespace))
          else if bool_decide (RootName namespace ≠ "let") then
            checkVars c pending vars' errs
          else
            match steps namespace !! 0 with
            | Some (TraverseAttr attrName _) =>
                if bool_decide (is_Some (pending !! attrName)) then ScanSkip errs
                else checkVars c pending vars' errs
            | Some _ => ScanPanic "unexpected type of traversal - this is a BUG"
            | None => ScanPanic "index out of range"
            end
      end.

Definition setErrs (st : EvalState) (name : string) (errs : list Error)
      : EvalState :=
      {| lets := lets st;
         pendingExprsErrs := <[name := errs]> (pendingExprsErrs st);
         pendingExprs := pendingExprs st;
         ctx := ctx st;
         amountEvaluated := amountEvaluated st |}.

Definition evaluated (st : EvalState) (name : string) (expr : Expr cty)
        (val : cty) : EvalState :=
      let lets' := <[name := {| VOrigin := Origin expr; Value_ := val |}]> (lets st) in
      {| lets := lets';
         pendingExprsErrs := delete name (pendingExprsErrs st);
         pendingExprs := delete name (pendingExprs st);
         ctx := SetNamespace (ctx st) "let" (Attributes lets');
         amountEvaluated := S (amountEvaluated st) |}.

(** One iteration of the loop labelled [pendingExpression]. *)
Definition evalPending (st : EvalState) (name : string) (expr : Expr cty)
      : outcome EvalState :=
      match checkVars (ctx st) (pendingExprs st)
                      (Variables (Expression_ expr)) L with
      | ScanPanic msg => Panic msg
      | ScanSkip errs => Return (setErrs st name errs)
      | ScanDone errs =>
          match AsError errs with
          | Some _ => Return (setErrs st name errs)
          | None =>
              match ExprValue (Expression_ expr) (ctx st) with
              | Err err =>
                  Return (setErrs st name
                    (Append errs (E (Some ErrEval) None ("let." +:+ name) [err])))
              | Ok val => Return (evaluated st name expr val)
              end
          end
      end.

(** The loop labelled [pendingExpression] over the entries in the order
        they are produced. *)
Fixpoint evalPass (st : EvalState) (entries : list (string * Expr cty))
      : outcome EvalState :=
      match entries with
      | [] => Return st
      | (name, expr) :: rest =>
          match evalPending st name expr with
          | Return st' => evalPass st' rest
          | Panic msg => Panic msg
          | OutOfFuel => OutOfFuel
          end
      end.

Definition resetAmount (st : EvalState) : EvalState :=
      {| lets := lets st;
         pendingExprsErrs := pendingExprsErrs st;
         pendingExprs := pendingExprs st;
         ctx := ctx st;
         amountEvaluated := 0 |}.

(** [for len(pendingExprs) > 0 { ... }]; [n] counts the [range]
        statements executed so far. *)
Fixpoint evalLoop (fuel : nat) (n : nat) (st : EvalState)
      : outcome (nat * EvalState) :=
      if bool_decide (pendingExprs st = ∅) then Return (n, st)
      else
        match fuel with
        | 0 => OutOfFuel
        | S fuel' =>
            match evalPass (resetAmount st) (order n (pendingExprs st)) with
            | Return st' =>
                if bool_decide (amountEvaluated st' = 0) then Return (S n, st')
                else evalLoop fuel' (S n) st'
            | Panic msg => Panic msg
            | OutOfFuel => OutOfFuel
            end
        end.

Definition initState (letExprs : Exprs) (c : Context cty) : EvalState :=
      {| lets := ∅;
         pendingExprsErrs := ∅;
         pendingExprs := removeUnset (copyexprs ∅ letExprs);
         ctx := if HasNamespace c "let" then c else SetNamespace c "let" ∅;
         amountEvaluated := 0 |}.

(** [Exprs.Eval] up to the end of its main loop: the locals there. *)
Definition evalRun (letExprs : Exprs) (c : Context cty)
      : outcome (nat * EvalState) :=
      let st := initState letExprs c in
      evalLoop (S (size (pendingExprs st))) 2 st.

Definition undefinedLet (name : string) (expr : Expr cty) : Error :=
      E None (Some (ExprRange (Expression_ expr))) ("undefined let " +:+ name) [].

(** The body of the last loop of [Exprs.Eval] for one pending entry: the
        error appended for it.  A name without a recorded list does not
        occur there (every pending name was visited by the last pass). *)
Definition pendingError (errsOf : gmap string (list Error))
        (name : string) (expr : Expr cty) : Error :=
      match AsError (default [] (errsOf !! name)) with
      | Some errs => Wrap ErrEval errs
      | None => Wrap ErrEval [undefinedLet name expr]
      end.

(** The last loop of [Exprs.Eval], each error with the name it is for. *)
Definition reportErrors (n : nat) (st : EvalState) : list (string * Error) :=
      (λ kv, (kv.1, pendingError (pendingExprsErrs st) kv.1 kv.2))
        <$> order n (pendingExprs st).

Record EvalResult : Type := {
      resCtx : Context cty;
      resLets : Map;
      resFor : list string;
      resErr : option (list Error)
    }.

(** [Exprs.Eval]: the context it leaves, the lets it has evaluated, the
        names its errors are for, and the error it returns. *)
Definition Eval (letExprs : Exprs) (c : Context cty) : outcome EvalResult :=
      match evalRun letExprs c with
      | Return (n, st) =>
          Return {| resCtx := ctx st;
                    resLets := lets st;
                    resFor := (reportErrors n st).*1;
                    resErr := AsError ((reportErrors n st).*2) |}
      | Panic msg => Panic msg
      | OutOfFuel => OutOfFuel
      end.

End Eval.

Arguments EvalState : clear implicits.
Arguments scan : clear implicits.
Arguments EvalResult : clear implicits.

(** *** The loader *)

(** Modelled from the spec: package [ast] is not among the sources.  An
    attribute of a merged block. *)
Record Attribute (cty : Type) : Type := {
    AttrName : string;
    AttrRange : Range;
    AttrExpr : Expression cty
  }.
Arguments AttrName {cty} _.
Arguments AttrRange {cty} _.
Arguments AttrExpr {cty} _.

(** Modelled from the spec: a labelled [map] sub-block of a merged block,
    with the ranges of the blocks it was merged from; [Body] is what
    [mapexpr.NewMapExpr] reads of it. *)
Record MapBlock (Body : Type) : Type := {
    Labels : list string;
    RawOrigins : list Range;
    MapBody : Body
  }.
Arguments Labels {Body} _.
Arguments RawOrigins {Body} _.
Arguments MapBody {Body} _.

(** Modelled from the spec: the merged [let] block. *)
Record MergedBlock (cty Body : Type) : Type := {
    MAttributes : gmap string (Attribute cty);
    Blocks : list (MapBlock Body)
  }.
Arguments MAttributes {cty Body} _.
Arguments Blocks {cty Body} _.

Section Load.
Context {cty Body : Type}.

#[local] Abbreviation Exprs := (gmap string (Expr cty)).

(** [Attributes.SortedList] of package [ast]. *)
Variable SortedList : gmap string (Attribute cty) → list (Attribute cty).

(** [mapexpr.NewMapExpr] *)
Variable NewMapExpr : MapBlock Body → result Error (Expression cty).

Variable order : nat → Exprs → list (string * Expr cty).

Definition redefined (varName : string) : Error :=
  E (Some ErrRedefined) None
    ("map label " +:+ varName +:+ " conflicts with let." +:+ varName +:+ " attribute")
    [].

(** The first loop of [loadExprs]. *)
Definition loadAttrs (attrs : list (Attribute cty)) (letExprs : Exprs) : Exprs :=
  foldl (λ m attr,
           <[AttrName attr := {| Origin := AttrRange attr;
                                 Expression_ := AttrExpr attr |}]> m)
        letExprs attrs.

(** The second loop of [loadExprs], over [letblock.Blocks]. *)
Fixpoint loadBlocks (attributes : gmap string (Attribute cty))
    (blocks : list (MapBlock Body)) (letExprs : Exprs)
  : outcome (result Error Exprs) :=
  match blocks with
  | [] => Return (Ok letExprs)
  | mapBlock :: rest =>
      match Labels mapBlock !! 0 with
      | None => Panic "index out of range"
      | Some varName =>
          if bool_decide (is_Some (attributes !! varName)) then
            Return (Err (redefined varName))
          else
            match NewMapExpr mapBlock with
            | Err err => Return (Err (Wrap ErrEval [err]))
            | Ok mapExpr =>
                match RawOrigins mapBlock !! 0 with
                | None => Panic "index out of range"
                | Some origin =>
                    loadBlocks attributes rest
                      (<[varName := {| Origin := origin;
                                       Expression_ := mapExpr |}]> letExprs)
                end
            end
      end
  end.

(** [loadExprs(letblock)] *)
Definition loadExprs (letblock : MergedBlock cty Body)
  : outcome (result Error Exprs) :=
  loadBlocks (MAttributes letblock) (Blocks letblock)
             (loadAttrs (SortedList (MAttributes letblock)) ∅).

(** [Load(letblock, ctx)]: the context it leaves and the error it
    returns. *)
Definition Load (letblock : MergedBlock cty Body) (c : Context cty)
  : outcome (Context cty * option goError) :=
  match loadExprs letblock with
  | Return (Err err) => Return (c, Some (ErrorOf err))
  | Return (Ok exprs) =>
      match Eval order exprs c with
      | Return r => Return (resCtx r, ListOf <$> resErr r)
      | Panic msg => Panic msg
      | OutOfFuel => OutOfFuel
      end
  | Panic msg => Panic msg
  | OutOfFuel => OutOfFuel
  end.

End Load.

(** *** Vocabulary of the properties *)

Section Vocabulary.
Context {cty : Type}.

#[local] Abbreviation Exprs := (gmap string (Expr cty)).

(** What a run may end in: [okPanic] tells whether a panic is allowed. *)
Definition ends {A} (okPanic : Prop) (o : outcome A) (P : A → Prop) : Prop :=
  match o with
  | Return a => P a
  | Panic _ => okPanic
  | OutOfFuel => False
  end.

(** The let a reference names: the attribute after the root [let]. *)
Definition letRef (t : Traversal cty) : option string :=
  if bool_decide (RootName t = "let") then
    match steps t !! 0 with
    | Some (TraverseAttr attrName _) => Some attrName
    | _ => None
    end
  else None.

(** The lets an expression depends on. *)
Definition letDeps (e : Expr cty) : list string :=
  omap letRef (Variables (Expression_ e)).

(** [a] is defined in [letExprs] by an expression that refers to [let.b]. *)
Definition dependsOn (letExprs : Exprs) (a b : string) : Prop :=
  ∃ e, letExprs !! a = Some e ∧ b ∈ letDeps e.

(** A reference whose root is [let] continues with an attribute access. *)
Definition attrAccess (t : Traversal cty) : Prop :=
  RootName t = "let" → ∃ attrName r, steps t !! 0 = Some (TraverseAttr attrName r).

(** Every reference to [let] in [letExprs] is an attribute access. *)
Definition attrAccessOnly (letExprs : Exprs) : Prop :=
  ∀ k e, letExprs !! k = Some e → Forall attrAccess (Variables (Expression_ e)).

(** The errors [checkVars] records: unknown namespaces of references of
    [vars]. *)
Definition unknownOf (c : Context cty) (vars : list (Traversal cty))
    (err : Error) : Prop :=
  ∃ t, t ∈ vars ∧ HasNamespace c (RootName t) = false ∧
       err = E (Some ErrEval) (Some (SourceRange t))
               ("unknown variable namespace: " +:+ RootName t) [].

(** The expression is the bare identifier [unset]: an absolute traversal
    that is a root alone, with the name [unset]. *)
Definition bareUnset (e : Expr cty) : Prop :=
  ∃ t, AbsTraversalForExpr (Expression_ e) = Some t ∧ steps t = []
       ∧ RootName t = "unset".

(** A reference to [let] that does not continue with an attribute access:
    [let[0]], [let.*] or the bare [let]. *)
Definition otherAccess (t : Traversal cty) : Prop :=
  RootName t = "let" ∧ ∀ attrName r, steps t !! 0 ≠ Some (TraverseAttr attrName r).

(** An expression of [letExprs] has such a reference. *)
Definition hasOtherAccess (letExprs : Exprs) : Prop :=
  ∃ k e t, letExprs !! k = Some e ∧ t ∈ Variables (Expression_ e) ∧ otherAccess t.

(** [pending0] are the entries pending when the loop starts and [c0] is the
    context then. *)
Record Inv (pending0 : Exprs) (c0 : Context cty) (st : EvalState cty) : Prop := {
    inv_pending : ∀ k,
      pendingExprs st !! k
      = match lets st !! k with Some _ => None | None => pending0 !! k end;
    inv_origin : ∀ k v,
      lets st !! k = Some v → ∃ e, pending0 !! k = Some e ∧ VOrigin v = Origin e;
    inv_let : HasNamespace (ctx st) "let" = true;
    inv_others : ∀ X, X ≠ "let" → namespaces (ctx st) !! X = namespaces c0 !! X;
    inv_bound :
      namespaces (ctx st) !! "let" = Some (Attributes (lets st))
      ∨ (lets st = ∅ ∧ ctx st = c0)
  }.


(** Every reference in [letExprs] is [let.<name>] for a name that
    [letExprs] defines. *)
Definition letOnly (letExprs : Exprs) : Prop :=
  ∀ k e, letExprs !! k = Some e →
    Forall (λ t, RootName t = "let" ∧
                 ∃ attrName r, steps t !! 0 = Some (TraverseAttr attrName r)
                               ∧ is_Some (letExprs !! attrName))
           (Variables (Expression_ e)).

(** No let depends on itself, directly or through other lets. *)
Definition acyclic (letExprs : Exprs) : Prop :=
  ∀ a, ¬ tc (dependsOn letExprs) a a.

End Vocabulary.

Section LoadVocabulary.
Context {cty Body : Type}.
Variable NewMapExpr : MapBlock Body → result Error (Expression cty).

(** A map block before the colliding one that the loop gets past: it has a
    label and an origin, and a map expression can be made of it. *)
Definition loadable (b : MapBlock Body) : Prop :=
  is_Some (Labels b !! 0) ∧ (∃ mapExpr, NewMapExpr b = Ok mapExpr)
  ∧ is_Some (RawOrigins b !! 0).

End LoadVocabulary.

Section ReportVocabulary.
Context {cty : Type}.

#[local] Abbreviation Exprs := (gmap string (Expr cty)).

(** An error recorded for the let [name] with expression [e]: an unknown
    namespace of one of its references, or the failure of its evaluation. *)
Definition reported (c : Context cty) (name : string) (e : Expr cty) (err : Error)
  : Prop :=
  unknownOf c (Variables (Expression_ e)) err ∨
  ∃ (c' : Context cty) cause,
    ExprValue (Expression_ e) c' = Err cause ∧
    err = E (Some ErrEval) None ("let." +:+ name) [cause].

(** What a visit of the let [a] leaves in [pendingExprsErrs[a]] when it
    does not evaluate the let, the context being [c] and the pending lets
    [pending]: the unknown namespaces met before the first reference to a
    pending let, or, when there is none of either, the failure of the
    evaluation. *)
Definition lastVisitIn (c : Context cty) (pending : Exprs) (a : string)
    (ea : Expr cty) (l : list Error) : Prop :=
  match checkVars c pending (Variables (Expression_ ea)) L with
  | ScanPanic _ => False
  | ScanSkip errs => l = errs
  | ScanDone errs =>
      match AsError errs with
      | Some _ => l = errs
      | None =>
          ∃ cause, ExprValue (Expression_ ea) c = Err cause ∧
                   l = [E (Some ErrEval) None ("let." +:+ a) [cause]]
      end
  end.

(** Every pending let has the errors of such a visit in the state
    itself. *)
Definition visitedLast (st : EvalState cty) : Prop :=
  ∀ a ea, pendingExprs st !! a = Some ea →
    ∃ l, pendingExprsErrs st !! a = Some l ∧
         lastVisitIn (ctx st) (pendingExprs st) a ea l.

(** Every pending let has errors recorded, and one with none recorded
    refers to a pending let. *)
Definition recorded (st : EvalState cty) : Prop :=
  ∀ a ea, pendingExprs st !! a = Some ea →
    ∃ l, pendingExprsErrs st !! a = Some l ∧
         Forall (reported (ctx st) a ea) l ∧
         (l = [] → ∃ b, b ∈ letDeps ea ∧ is_Some (pendingExprs st !! b)).

(** The let [a] got its value [v] from its expression [e] in a context
    [c'] that is [c0] but for the namespace [let], which holds lets of [all]
    there, [a] not among them, unless [c'] is [c0] itself. *)
Definition evaluatedIn (c0 : Context cty) (all : gmap string (Value cty))
    (a : string) (e : Expr cty) (v : Value cty) : Prop :=
  ∃ c' : Context cty,
    ExprValue (Expression_ e) c' = Ok (Value_ v) ∧
    (∀ X, X ≠ "let" → namespaces c' !! X = namespaces c0 !! X) ∧
    (c' = c0 ∨
     ∃ sub : gmap string (Value cty),
       sub ⊆ all ∧ sub !! a = None ∧
       namespaces c' !! "let" = Some (Attributes sub)).

(** The lets evaluated so far: each after the lets it refers to, with the
    value its expression has. *)
Definition evaluatedOk (pending0 : Exprs) (c0 : Context cty) (st : EvalState cty)
  : Prop :=
  ∀ a v, lets st !! a = Some v →
    ∃ e, pending0 !! a = Some e ∧
         evaluatedIn c0 (lets st) a e v ∧
         ∀ b, b ∈ letDeps e → is_Some (pending0 !! b) → is_Some (lets st !! b).

(** The expression [loadExprs] makes of an attribute. *)
Definition attrExpr (attr : Attribute cty) : Expr cty :=
  {| Origin := AttrRange attr; Expression_ := AttrExpr attr |}.

End ReportVocabulary.

End Lets.

(** ** Package stack *)

Module Stack.

Definition errList : Kind := "listing stacks error".
Definition errListChanged : Kind := "listing changed stacks error".

(** The double quote character, for messages that embed one. *)
Definition dq : string := String (Ascii.ascii_of_nat 34) EmptyString.

(** *** Types the manager works on *)

(** Modelled from the spec: package [project] is not among the sources.  A
    [project.Path] is a cleaned absolute slash-separated path inside the
    project; it is kept as the list of its components, the project root
    being the empty list. *)
Definition Path : Type := list string.

(** [Path.String] *)
Definition Path_String (p : Path) : string := "/" +:+ String.concat "/" p.

(** [Path.Dir] *)
Definition Path_Dir (p : Path) : Path := removelast p.

(** Modelled from the spec: [config.Stack]. *)
Record Stack : Type := {
    Dir : Path;
    StackHostDir : string;
    Watch : list Path;
    Wants : list string;
    WantedBy : list string;
    IsChanged : bool
  }.

Definition setChanged (s : Stack) : Stack :=
  {| Dir := Dir s; StackHostDir := StackHostDir s; Watch := Watch s;
     Wants := Wants s; WantedBy := WantedBy s; IsChanged := true |}.

Record Entry : Type := {
    EntryStack : Stack;
    Reason : string
  }.

Record RepoChecks : Type := {
    UncommittedFiles : list string;
    UntrackedFiles : list string
  }.

Record Report : Type := {
    Stacks : list Entry;
    Checks : RepoChecks
  }.

(** Modelled from the spec: [tf.Module]; a module is local iff its
    source begins with [./] or [../]. *)
Record Module_ : Type := { Source : string }.

Definition IsLocal (mod_ : Module_) : bool :=
  String.prefix "./" (Source mod_) || String.prefix "../" (Source mod_).

(** [os.FileInfo] and [fs.DirEntry], as far as they are read. *)
Record FileInfo : Type := { FileIsDir : bool }.
Record DirEntry : Type := { Name : string; EntryIsDir : bool }.

(** Modelled from the spec: [config.Root] with the configuration tree it
    holds; [Tree] is the type of the nodes of that tree. *)
Record Root (Tree : Type) : Type := {
    HostDir : string;
    Lookup : Path → option Tree;
    IsStack : Tree → bool;
    (* config.NewStackFromHCL(root.HostDir(), cfg.Node) *)
    NewStackFromHCL : string → Tree → result Error Stack;
    (* List(root.Tree()) *)
    ListStacks : result Error (list Entry)
  }.
Arguments HostDir {Tree} _.
Arguments Lookup {Tree} _ _.
Arguments IsStack {Tree} _ _.
Arguments NewStackFromHCL {Tree} _ _ _.
Arguments ListStacks {Tree} _.

Record Manager (Tree : Type) : Type := {
    root : Root Tree;
    gitBaseRef : string
  }.
Arguments root {Tree} _.
Arguments gitBaseRef {Tree} _.

(** What the manager asks of the operating system, of git and of the
    packages [filepath], [path], [fmt], [project], [trigger] and [tf]. *)
Record World : Type := {
    (* git.WithConfig(git.Config{WorkingDir: dir}) *)
    WithConfig : string → result Error unit;
    (* the methods of the wrapper made for a working directory *)
    IsRepository : string → bool;
    RevParse : string → string → result Error string;
    DiffNames : string → string → string → result Error (list string);
    ListUntracked : string → result Error (list string);
    ListUncommitted : string → result Error (list string);
    (* os.Stat, errors.Is(err, fs.ErrNotExist), os.ReadDir *)
    Stat : string → result Error FileInfo;
    IsNotExist : Error → bool;
    ReadDir : string → result Error (list DirEntry);
    filepath_Join : string → string → string;
    filepath_Dir : string → string;
    path_Ext : string → string;
    (* the verb %q of package fmt *)
    quote : string → string;
    PrjAbsPath : string → string → Path;
    (* trigger.StackPath *)
    StackPath : Path → Path * bool;
    (* tf.ParseModules *)
    ParseModules : string → result Error (list Module_)
  }.

(** The git commands a call runs, in order. *)
Inductive GitCall : Type :=
| CallRevParse (dir ref : string)
| CallDiffNames (dir baseRef headRef : string).

Section Manager.
Context {Tree : Type}.
Variable w : World.
Variable m : Manager Tree.

(** [listChangedFiles(dir, gitBaseRef)] with the git commands it runs. *)
Definition listChangedFilesLog (dir : string) (gitBaseRef_ : string)
  : list GitCall * result Error (list string) :=
  match Stat w dir with
  | Err err => ([], Err (E None None ("stat failed on " +:+ quote w dir) [err]))
  | Ok st =>
      if negb (FileIsDir st) then ([], Err (E None None "is not a directory" []))
      else
        match WithConfig w dir with
        | Err err => ([], Err err)
        | Ok _ =>
            match RevParse w dir gitBaseRef_ with
            | Err err =>
                ([CallRevParse dir gitBaseRef_],
                 Err (E None None ("getting revision " +:+ quote w gitBaseRef_) [err]))
            | Ok baseRef =>
                let log := [CallRevParse dir gitBaseRef_; CallRevParse dir "HEAD"] in
                match RevParse w dir "HEAD" with
                | Err err => (log, Err (E None None "getting HEAD revision" [err]))
                | Ok headRef =>
                    if bool_decide (baseRef = headRef) then (log, Ok [])
                    else (log ++ [CallDiffNames dir baseRef headRef],
                          DiffNames w dir baseRef headRef)
                end
            end
        end
  end.

Definition listChangedFiles (dir : string) (gitBaseRef_ : string)
  : result Error (list string) :=
  (listChangedFilesLog dir gitBaseRef_).2.

(** [s[1:]] *)
Definition dropFirst (s : string) : string :=
  match s with String _ rest => rest | EmptyString => EmptyString end.

(** [hasChangedWatchedFiles(stack, changedFiles)] *)
Fixpoint hasChangedWatched (watch : list Path) (changedFiles : list string)
  : option Path :=
  match watch with
  | [] => None
  | watchFile :: rest =>
      if bool_decide (Exists (λ file, file = dropFirst (Path_String watchFile))
                             changedFiles)
      then Some watchFile
      else hasChangedWatched rest changedFiles
  end.

Definition hasChangedWatchedFiles (stack : Stack) (changedFiles : list string)
  : option Path :=
  hasChangedWatched (Watch stack) changedFiles.

(** [checkRepoIsClean(g)] for the wrapper of directory [dir]. *)
Definition checkRepoIsClean (dir : string) : result Error RepoChecks :=
  match ListUntracked w dir with
  | Err err => Err (E None None "listing untracked files" [err])
  | Ok untracked =>
      match ListUncommitted w dir with
      | Err err => Err (E None None "listing uncommitted files" [err])
      | Ok uncommitted =>
          Ok {| UntrackedFiles := untracked; UncommittedFiles := uncommitted |}
      end
  end.

(** The loop of [filesApply] over the directory entries; [apply] threads
    the variables its closure captures. *)
Fixpoint filesLoop {S : Type}
    (apply : DirEntry → S → outcome (result Error unit * S))
    (files : list DirEntry) (s : S) : outcome (result Error unit * S) :=
  match files with
  | [] => Return (Ok (), s)
  | file :: rest =>
      if EntryIsDir file then filesLoop apply rest s
      else
        match apply file s with
        | Return (Ok _, s') => filesLoop apply rest s'
        | Return (Err err, s') =>
            Return (Err (E None None
                     ("applying operation to file " +:+ quote w (Name file)) [err]),
                    s')
        | Panic msg => Panic msg
        | OutOfFuel => OutOfFuel
        end
  end.

(** [Manager.filesApply(dir, apply)] *)
Definition filesApply {S : Type} (dir : string)
    (apply : DirEntry → S → outcome (result Error unit * S)) (s : S)
  : outcome (result Error unit * S) :=
  match ReadDir w dir with
  | Err err =>
      Return (Err (E None None ("listing files of directory " +:+ quote w dir) [err]), s)
  | Ok files => filesLoop apply files s
  end.

(** *** moduleChanged *)

(** The map [visited], shared by the calls of one walk, and with it the
    sources whose files the walk went on to parse, in the order it did
    (a record of the run; the code does not keep it). *)
Record Walk : Type := {
    visited : gset string;
    entered : list string
  }.

Definition newWalk : Walk := {| visited := ∅; entered := [] |}.

(** [visited[mod.Source] = true] *)
Definition visit (source : string) (v : Walk) : Walk :=
  {| visited := {[source]} ∪ visited v; entered := entered v ++ [source] |}.

(** The variables the closure of [moduleChanged] captures and assigns. *)
Record Captured : Type := {
    changed : bool;
    why : string;
    walk : Walk
  }.

(** [for _, mod2 := range modules] in the closure of [moduleChanged];
    [recurse] is the recursive call. *)
Fixpoint modulesLoop
    (recurse : Module_ → string → Walk → outcome (result Error (bool * string) * Walk))
    (mod_ : Module_) (modPath : string) (modules : list Module_) (c : Captured)
  : outcome (result Error unit * Captured) :=
  match modules with
  | [] => Return (Ok (), c)
  | mod2 :: rest =>
      match recurse mod2 modPath (walk c) with
      | Return (Err err, v) =>
          Return (Err err, {| changed := false; why := why c; walk := v |})
      | Return (Ok (chg, reason), v) =>
          if chg then
            Return (Ok (),
                    {| changed := true;
                       why := why c +:+ Source mod_ +:+ " changed because "
                                +:+ reason +:+ " ";
                       walk := v |})
          else
            modulesLoop recurse mod_ modPath rest
                        {| changed := false; why := why c; walk := v |}
      | Panic msg => Panic msg
      | OutOfFuel => OutOfFuel
      end
  end.

(** The closure [moduleChanged] hands to [filesApply]. *)
Definition moduleFile
    (recurse : Module_ → string → Walk → outcome (result Error (bool * string) * Walk))
    (mod_ : Module_) (modPath : string) (file : DirEntry) (c : Captured)
  : outcome (result Error unit * Captured) :=
  if changed c then Return (Ok (), c)
  else if bool_decide (path_Ext w (Name file) ≠ ".tf") then Return (Ok (), c)
  else
    match ParseModules w (filepath_Join w modPath (Name file)) with
    | Err err =>
        Return (Err (E None None ("parsing module " +:+ quote w (Source mod_)) [err]), c)
    | Ok modules => modulesLoop recurse mod_ modPath modules c
    end.

(** [Manager.moduleChanged(mod, basedir, visited)]; [fuel] bounds the depth
    of the recursion. *)
Fixpoint moduleChanged (fuel : nat) (mod_ : Module_) (basedir : string)
    (v : Walk) : outcome (result Error (bool * string) * Walk) :=
  if bool_decide (Source mod_ ∈ visited v) then Return (Ok (false, EmptyString), v)
  else if negb (IsLocal mod_) then Return (Ok (false, EmptyString), v)
  else
    let modPath := filepath_Join w basedir (Source mod_) in
    if negb (match Stat w modPath with Ok st => FileIsDir st | Err _ => false end)
    then
      Return (Err (E None None
                (dq +:+ "source" +:+ dq +:+ " path " +:+ quote w modPath
                    +:+ " is not a directory") []), v)
    else
      match listChangedFiles modPath (gitBaseRef m) with
      | Err err =>
          Return (Err (E None None
                    ("listing changes in the module " +:+ quote w (Source mod_))
                    [err]), v)
      | Ok changedFiles =>
          if bool_decide (0 < length changedFiles) then
            Return (Ok (true, "module " +:+ quote w (Source mod_)
                                +:+ " has unmerged changes"), v)
          else
            match fuel with
            | 0 => OutOfFuel
            | S fuel' =>
                match filesApply modPath
                        (moduleFile (moduleChanged fuel') mod_ modPath)
                        {| changed := false; why := EmptyString;
                           walk := visit (Source mod_) v |} with
                | Return (Err err, c) => Return (Err err, walk c)
                | Return (Ok _, c) =>
                    Return (Ok (changed c,
                                "module " +:+ quote w (Source mod_)
                                  +:+ " changed because " +:+ why c),
                            walk c)
                | Panic msg => Panic msg
                | OutOfFuel => OutOfFuel
                end
            end
      end.

(** *** ListChanged *)

(** A loop whose body may return from the function with an error. *)
Fixpoint forEach {A S : Type} (body : S → A → outcome (result Error S))
    (l : list A) (s : S) : outcome (result Error S) :=
  match l with
  | [] => Return (Ok s)
  | x :: rest =>
      match body s x with
      | Return (Ok s') => forEach body rest s'
      | other => other
      end
  end.

(** [found && stackTree.IsStack()] *)
Definition isStackTree (stackTree : option Tree) : bool :=
  match stackTree with
  | Some cfg => IsStack (root m) cfg
  | None => false
  end.

(** [for checkdir.String() != "/" { ... }]: the tree the loop leaves in
    [stackTree]. *)
Fixpoint lookupParent (fuel : nat) (checkdir : Path) (stackTree : option Tree)
  : outcome (option Tree) :=
  if bool_decide (Path_String checkdir = "/") then Return stackTree
  else
    match fuel with
    | 0 => OutOfFuel
    | S fuel' =>
        let checkdir := Path_Dir checkdir in
        let stackTree := Lookup (root m) checkdir in
        if isStackTree stackTree then Return stackTree
        else lookupParent fuel' checkdir stackTree
    end.

(** The set [stackSet], keyed by the stack directory. *)
#[local] Abbreviation StackSet := (gmap string Entry).

Definition addEntry (stackSet : StackSet) (s : Stack) (reason : string) : StackSet :=
  <[Path_String (Dir s) := {| EntryStack := s; Reason := reason |}]> stackSet.

(** The body of [for _, path := range changedFiles]. *)
Definition changedFile (stackSet : StackSet) (path : string)
  : outcome (result Error StackSet) :=
  let abspath := filepath_Join w (HostDir (root m)) path in
  let projpath := PrjAbsPath w (HostDir (root m)) abspath in
  let '(triggeredStack, isTriggerFile) := StackPath w projpath in
  if String.prefix "." path && negb isTriggerFile then Return (Ok stackSet)
  else if isTriggerFile then
    if match Stat w abspath with Err err => IsNotExist w err | Ok _ => false end
    then Return (Ok stackSet)
    else
      match Lookup (root m) triggeredStack with
      | None => Return (Ok stackSet)
      | Some cfg =>
          if negb (IsStack (root m) cfg) then Return (Ok stackSet)
          else
            match NewStackFromHCL (root m) (HostDir (root m)) cfg with
            | Err err => Return (Err (Wrap errListChanged [err]))
            | Ok s =>
                Return (Ok (addEntry stackSet s
                              ("stack has been triggered by: "
                                 +:+ Path_String projpath)))
            end
      end
  else
    let dirname := filepath_Dir w abspath in
    if bool_decide
         (is_Some (stackSet !! Path_String (PrjAbsPath w (HostDir (root m)) dirname)))
    then Return (Ok stackSet)
    else
      let cfgpath := PrjAbsPath w (HostDir (root m)) dirname in
      let stackTree := Lookup (root m) cfgpath in
      match (if isStackTree stackTree then Return stackTree
             else lookupParent (length cfgpath) cfgpath stackTree) with
      | Return stackTree =>
          match stackTree with
          | None => Return (Ok stackSet)
          | Some cfg =>
              if negb (IsStack (root m) cfg) then Return (Ok stackSet)
              else
                match NewStackFromHCL (root m) (HostDir (root m)) cfg with
                | Err err => Return (Err (Wrap errListChanged [err]))
                | Ok s => Return (Ok (addEntry stackSet s "stack has unmerged changes"))
                end
          end
      | Panic msg => Panic msg
      | OutOfFuel => OutOfFuel
      end.

(** [for _, mod := range modules] in the closure of [ListChanged]. *)
Fixpoint stackModules (fuel : nat) (stack : Stack) (modules : list Module_)
    (stackSet : StackSet) : outcome (result Error unit * StackSet) :=
  match modules with
  | [] => Return (Ok (), stackSet)
  | mod_ :: rest =>
      match moduleChanged fuel mod_ (StackHostDir stack) newWalk with
      | Return (Err err, _) =>
          Return (Err (E (Some errListChanged) None
                         ("checking module " +:+ quote w (Source mod_)) [err]),
                  stackSet)
      | Return (Ok (chg, reason), _) =>
          if chg then
            Return (Ok (),
                    addEntry stackSet (setChanged stack)
                      ("stack changed because " +:+ quote w (Source mod_)
                         +:+ " changed because " +:+ reason))
          else stackModules fuel stack rest stackSet
      | Panic msg => Panic msg
      | OutOfFuel => OutOfFuel
      end
  end.

(** The closure [ListChanged] hands to [filesApply]. *)
Definition stackFile (fuel : nat) (stack : Stack) (file : DirEntry)
    (stackSet : StackSet) : outcome (result Error unit * StackSet) :=
  if bool_decide (path_Ext w (Name file) ≠ ".tf") then Return (Ok (), stackSet)
  else
    let tfpath := filepath_Join w (StackHostDir stack) (Name file) in
    match ParseModules w tfpath with
    | Err err =>
        Return (Err (E (Some errListChanged) None "parsing modules" [err]), stackSet)
    | Ok modules => stackModules fuel stack modules stackSet
    end.

(** The body of the loop labelled [rangeStacks]. *)
Definition checkStack (fuel : nat) (changedFiles : list string)
    (stackSet : StackSet) (stackEntry : Entry) : outcome (result Error StackSet) :=
  let stack := EntryStack stackEntry in
  if bool_decide (is_Some (stackSet !! Path_String (Dir stack))) then
    Return (Ok stackSet)
  else
    match hasChangedWatchedFiles stack changedFiles with
    | Some changedWatch =>
        Return (Ok (addEntry stackSet (setChanged stack)
                      ("stack changed because watched file "
                         +:+ quote w (Path_String changedWatch) +:+ " changed")))
    | None =>
        match filesApply (StackHostDir stack) (stackFile fuel stack) stackSet with
        | Return (Err err, _) =>
            Return (Err (E (Some errListChanged) None "checking module changes" [err]))
        | Return (Ok _, stackSet') => Return (Ok stackSet')
        | Panic msg => Panic msg
        | OutOfFuel => OutOfFuel
        end
    end.

(** [EntrySlice.Less] on two entries. *)
Definition EntrySlice_Less (x y : Entry) : bool :=
  String.ltb (Path_String (Dir (EntryStack x))) (Path_String (Dir (EntryStack y))).

(** [sort.Sort(EntrySlice(changedStacks))]: the entries in an order in
    which none is [Less] than one before it. *)
Definition inOrder (x y : Entry) : Prop := EntrySlice_Less y x = false.

#[global] Instance inOrder_dec x y : Decision (inOrder x y).
Proof. unfold inOrder. apply _. Defined.

Definition sort_Sort (changedStacks : list Entry) : list Entry :=
  merge_sort inOrder changedStacks.

(** The first loop of [ListChanged]. *)
Definition changedFilesPass (changedFiles : list string)
  : outcome (result Error StackSet) :=
  forEach changedFile changedFiles ∅.

(** [Manager.ListChanged()]; [fuel] bounds the depth of the module walks.
    The entries of the set are taken in the order of [map_to_list] before
    they are sorted; the sorted list is the same for every other order
    ([StackFacts.sort_Sort_any_order]). *)
Definition ListChanged (fuel : nat) : outcome (result Error Report) :=
  match WithConfig w (HostDir (root m)) with
  | Err err => Return (Err (Wrap errListChanged [err]))
  | Ok _ =>
      if negb (IsRepository w (HostDir (root m))) then
        Return (Err (E (Some errListChanged) None
                       ("the path " +:+ dq +:+ HostDir (root m) +:+ dq
                          +:+ " is not a git repository") []))
      else
        match checkRepoIsClean (HostDir (root m)) with
        | Err err => Return (Err (Wrap errListChanged [err]))
        | Ok checks =>
            match listChangedFiles (HostDir (root m)) (gitBaseRef m) with
            | Err err => Return (Err (Wrap errListChanged [err]))
            | Ok changedFiles =>
                match changedFilesPass changedFiles with
                | Return (Ok stackSet) =>
                    match ListStacks (root m) with
                    | Err err =>
                        Return (Err (E (Some errListChanged) None
                                       "searching for stacks" [err]))
                    | Ok allstacks =>
                        match forEach (checkStack fuel changedFiles)
                                      allstacks stackSet with
                        | Return (Ok stackSet') =>
                            Return (Ok {| Checks := checks;
                                          Stacks := sort_Sort (map_to_list stackSet').*2 |})
                        | Return (Err err) => Return (Err err)
                        | Panic msg => Panic msg
                        | OutOfFuel => OutOfFuel
                        end
                    end
                | Return (Err err) => Return (Err err)
                | Panic msg => Panic msg
                | OutOfFuel => OutOfFuel
                end
            end
        end
  end.

(** [Manager.List()] *)
Definition Manager_List : result Error Report :=
  match ListStacks (root m) with
  | Err err => Err err
  | Ok entries =>
      match WithConfig w (HostDir (root m)) with
      | Err err => Err (Wrap errList [err])
      | Ok _ =>
          if negb (IsRepository w (HostDir (root m))) then
            Ok {| Stacks := entries;
                  Checks := {| UncommittedFiles := []; UntrackedFiles := [] |} |}
          else
            match checkRepoIsClean (HostDir (root m)) with
            | Err err => Err (Wrap errList [err])
            | Ok checks => Ok {| Stacks := entries; Checks := checks |}
            end
      end
  end.

End Manager.

(** [NewManager(root, gitBaseRef)] *)
Definition NewManager {Tree : Type} (root_ : Root Tree) (gitBaseRef_ : string)
  : Manager Tree :=
  {| root := root_; gitBaseRef := gitBaseRef_ |}.

(** [EntrySlice.Len] *)
Definition EntrySlice_Len (x : list Entry) : nat := length x.

(** [EntrySlice.Swap]: [x[i], x[j] = x[j], x[i]]; an index out of range
    panics. *)
Definition EntrySlice_Swap (x : list Entry) (i j : nat) : outcome (list Entry) :=
  match x !! j, x !! i with
  | Some xj, Some xi => Return (<[j := xi]> (<[i := xj]> x))
  | _, _ => Panic "index out of range"
  end.

(** *** AddWantedOf *)

Section Wanted.
Context {D : Type}.

(** [config.LoadAllStacks(m.root.Tree())] and [sort.Sort(allstacks)] *)
Variable LoadAllStacks : result Error (list Stack).
Variable sortStacks : list Stack → list Stack.

(** Modelled from the spec: packages [dag] and [run] are not among the
    sources.  The graph has its nodes keyed by stack directory strings;
    [BuildDAG] adds a stack with the edges of its [wants] and [wanted_by] to
    the graph, [Node] gives the stack under an identifier and [AncestorsOf]
    the identifiers its edges lead to. *)
Variable dag_New : D.
Variable BuildDAG : D → gset string → Stack → result Error (D * gset string).
Variable Validate : D → string * option Error.
Variable Node : D → string → option Stack.
Variable AncestorsOf : D → string → list string.

(** [dag.ID(s.Dir.String())] *)
Definition stackID (s : Stack) : string := Path_String (Dir s).

(** [for _, elem := range allstacks { err := run.BuildDAG(...) ... }] *)
Fixpoint buildAll (allstacks : list Stack) (wantsDag : D) (visited_ : gset string)
  : result Error D :=
  match allstacks with
  | [] => Ok wantsDag
  | elem :: rest =>
      match BuildDAG wantsDag visited_ elem with
      | Err err => Err (E None None "building wants DAG" [err])
      | Ok (wantsDag', visited') => buildAll rest wantsDag' visited'
      end
  end.

(** The closure [addStack] on the variables [visited] and
    [selectedStacks] it captures. *)
Definition addStack (s : Stack) (visited_ : gset string) (selectedStacks : list Stack)
  : gset string * list Stack :=
  if bool_decide (stackID s ∈ visited_) then (visited_, selectedStacks)
  else ({[stackID s]} ∪ visited_, selectedStacks ++ [s]).

(** [for len(pending) > 0 { ... }]; [fuel] bounds the number of
    iterations. *)
Fixpoint wantedLoop (fuel : nat) (wantsDag : D) (pending : list string)
    (visited_ : gset string) (selectedStacks : list Stack) : outcome (list Stack) :=
  match pending with
  | [] => Return selectedStacks
  | id :: rest =>
      match fuel with
      | 0 => OutOfFuel
      | S fuel' =>
          match Node wantsDag id with
          | None => Panic "interface conversion: interface is nil, not *config.Stack"
          | Some s =>
              let '(visited', selectedStacks') := addStack s visited_ selectedStacks in
              let ancestors := AncestorsOf wantsDag id in
              wantedLoop fuel' wantsDag
                (rest ++ filter (λ id, id ∉ visited') ancestors)
                visited' selectedStacks'
          end
      end
  end.

(** [Manager.AddWantedOf(scopeStacks)] *)
Definition AddWantedOf (fuel : nat) (scopeStacks : list Stack)
  : outcome (result Error (list Stack)) :=
  match LoadAllStacks with
  | Err err => Return (Err (E None None "loading all stacks" [err]))
  | Ok allstacks =>
      match buildAll (sortStacks allstacks) dag_New ∅ with
      | Err err => Return (Err err)
      | Ok wantsDag =>
          match wantedLoop fuel wantsDag (stackID <$> scopeStacks) ∅ [] with
          | Return selectedStacks => Return (Ok selectedStacks)
          | Panic msg => Panic msg
          | OutOfFuel => OutOfFuel
          end
      end
  end.

End Wanted.

(** *** The evaluation context of a stack (stack/eval.go) *)

Section EvalCtx.
Context {cty Tree Object : Type}.

(** Modelled from the spec: [eval.NewContext(stdlib.Functions(dir))],
    [Root.Runtime], [Stack.RuntimeValues], [Runtime.Merge] and
    [Object.AsValueMap] are not among the sources. *)
Variable NewContext : string → Lets.Context cty.
Variable Runtime : Root Tree → gmap string cty.
Variable RuntimeValues : Stack → Root Tree → gmap string cty.
Variable Merge : gmap string cty → gmap string cty → gmap string cty.
Variable AsValueMap : Object → gmap string cty.

Record EvalCtx : Type := {
    Context_ : Lets.Context cty;
    ctxRoot : Root Tree
  }.

(** [EvalCtx.SetGlobals(g)] *)
Definition SetGlobals (e : EvalCtx) (g : Object) : EvalCtx :=
  {| Context_ := Lets.SetNamespace (Context_ e) "global" (AsValueMap g);
     ctxRoot := ctxRoot e |}.

(** [EvalCtx.SetMetadata(st)] *)
Definition SetMetadata (e : EvalCtx) (st : Stack) : EvalCtx :=
  let runtime := Merge (Runtime (ctxRoot e)) (RuntimeValues st (ctxRoot e)) in
  {| Context_ := Lets.SetNamespace (Context_ e) "terramate" runtime;
     ctxRoot := ctxRoot e |}.

(** [NewEvalCtx(root, stack, globals)] *)
Definition NewEvalCtx (root_ : Root Tree) (stack : Stack) (globals : Object) : EvalCtx :=
  let evalctx := NewContext (StackHostDir stack) in
  let evalwrapper := {| Context_ := evalctx; ctxRoot := root_ |} in
  SetGlobals (SetMetadata evalwrapper stack) globals.

End EvalCtx.

(** *** Vocabulary of the properties *)

Section Vocabulary.
Context {Tree : Type}.
Variable w : World.
Variable m : Manager Tree.

(** In every directory the base reference and [HEAD] are the same commit. *)
Definition sameCommit : Prop :=
  ∀ dir baseRef headRef,
    RevParse w dir (gitBaseRef m) = Ok baseRef →
    RevParse w dir "HEAD" = Ok headRef → baseRef = headRef.

End Vocabulary.

#[local] Abbreviation StackSet := (gmap string Entry).

(** The record of a walk agrees with its map: the sources entered are the
    visited ones, each entered once. *)
Definition walkOk (v : Walk) : Prop :=
  NoDup (entered v) ∧ ∀ source, source ∈ entered v ↔ source ∈ visited v.

(** What a walk keeps from the walk [v0] it continues. *)
Definition extends (v0 v : Walk) : Prop :=
  visited v0 ⊆ visited v ∧ walkOk v ∧ entered v0 `prefix_of` entered v.

(** The directory an entry is for, as the sort reads it. *)
Definition entryDir (e : Entry) : string := Path_String (Dir (EntryStack e)).

(** Every entry of the set is under the directory of its stack. *)
Definition keyed (stackSet : StackSet) : Prop :=
  ∀ k e, stackSet !! k = Some e → k = entryDir e.

(** The module step adds the stack or leaves the set as it is. *)
Definition stepOf (stackSet : StackSet) (stack : Stack) (s : StackSet) : Prop :=
  s = stackSet ∨ ∃ reason, s = addEntry stackSet (setChanged stack) reason.

(** Go's [<] on strings. *)
Definition strLt (a b : string) : Prop := String.ltb a b = true.

Section WalkVocabulary.
Variable U : gset string.

(** The recursive call returns on the walks that continue [v0]. *)
Definition returnsFrom (v0 : Walk)
    (recurse : Module_ → string → Walk → outcome (result Error (bool * string) * Walk))
  : Prop :=
  ∀ mod2 modPath v,
    Source mod2 ∈ U → extends v0 v →
    ∃ res v', recurse mod2 modPath v = Return (res, v') ∧ extends v v'.

End WalkVocabulary.

Section ReportVocabulary.
Context {Tree : Type}.
Variable w : World.
Variable m : Manager Tree.

(** The project path of a changed file and the one of its directory. *)
Definition projPath (path : string) : Path :=
  PrjAbsPath w (HostDir (root m)) (filepath_Join w (HostDir (root m)) path).

Definition cfgPath (path : string) : Path :=
  PrjAbsPath w (HostDir (root m))
    (filepath_Dir w (filepath_Join w (HostDir (root m)) path)).

(** The directory [dir] is a stack of the tree, and [s] is the stack
    loaded from it. *)
Definition stackOf (dir : Path) (s : Stack) : Prop :=
  ∃ cfg, Lookup (root m) dir = Some cfg ∧ IsStack (root m) cfg = true ∧
         NewStackFromHCL (root m) (HostDir (root m)) cfg = Ok s.

(** The four ways an entry gets into the set: a changed trigger file of the
    stack; a changed file in the directory of the stack or below it; a
    changed file that the stack watches; a changed module of one of its
    [.tf] files. *)
Definition triggered (changedFiles : list string) (e : Entry) : Prop :=
  ∃ path dir, path ∈ changedFiles ∧
    StackPath w (projPath path) = (dir, true) ∧
    stackOf dir (EntryStack e) ∧
    Reason e = "stack has been triggered by: " +:+ Path_String (projPath path).

Definition unmerged (changedFiles : list string) (e : Entry) : Prop :=
  ∃ path dir, path ∈ changedFiles ∧
    (StackPath w (projPath path)).2 = false ∧ String.prefix "." path = false ∧
    dir `prefix_of` cfgPath path ∧
    stackOf dir (EntryStack e) ∧
    Reason e = "stack has unmerged changes".

Definition watched (allstacks : list Entry) (changedFiles : list string) (e : Entry)
  : Prop :=
  ∃ stackEntry watchFile, stackEntry ∈ allstacks ∧
    EntryStack e = setChanged (EntryStack stackEntry) ∧
    watchFile ∈ Watch (EntryStack stackEntry) ∧
    dropFirst (Path_String watchFile) ∈ changedFiles ∧
    Reason e = "stack changed because watched file "
                 +:+ quote w (Path_String watchFile) +:+ " changed".

Definition moduleOf (fuel : nat) (allstacks : list Entry) (e : Entry) : Prop :=
  ∃ stackEntry files file modules mod_ reason v, stackEntry ∈ allstacks ∧
    EntryStack e = setChanged (EntryStack stackEntry) ∧
    ReadDir w (StackHostDir (EntryStack stackEntry)) = Ok files ∧
    file ∈ files ∧ EntryIsDir file = false ∧ path_Ext w (Name file) = ".tf" ∧
    ParseModules w (filepath_Join w (StackHostDir (EntryStack stackEntry)) (Name file))
    = Ok modules ∧
    mod_ ∈ modules ∧
    moduleChanged w m fuel mod_ (StackHostDir (EntryStack stackEntry)) newWalk
    = Return (Ok (true, reason), v) ∧
    Reason e = "stack changed because " +:+ quote w (Source mod_)
                 +:+ " changed because " +:+ reason.

Definition justified (fuel : nat) (changedFiles : list string)
    (allstacks : list Entry) (e : Entry) : Prop :=
  triggered changedFiles e ∨ unmerged changedFiles e
  ∨ watched allstacks changedFiles e ∨ moduleOf fuel allstacks e.

(** Git lists changed files in a directory. *)
Definition hasChanges (dir : string) : Prop :=
  ∃ changedFiles, listChangedFiles w dir (gitBaseRef m) = Ok changedFiles
                  ∧ changedFiles ≠ [].

End ReportVocabulary.

Section WantedVocabulary.
Context {D : Type}.
Variable Node : D → string → option Stack.
Variable AncestorsOf : D → string → list string.
Variable wantsDag : D.

(** [id] is reached from one of [seeds] along the edges to ancestors. *)
Definition reached (seeds : list string) (id : string) : Prop :=
  ∃ seed, seed ∈ seeds ∧ rtc (λ a b, b ∈ AncestorsOf wantsDag a) seed id.

(** The node under an identifier is a stack of the directory that the
    identifier names. *)
Definition nodesKeyed : Prop :=
  ∀ id s, Node wantsDag id = Some s → stackID s = id.

(** The loop of [AddWantedOf] has selected the visited stacks, each once,
    and only nodes reached from the seeds; it has only such pending. *)
Definition soundAt (seeds pending : list string) (visited_ : gset string)
    (selected : list Stack) : Prop :=
  (∀ id, id ∈ visited_ ↔ id ∈ stackID <$> selected) ∧
  NoDup (stackID <$> selected) ∧
  (∀ s, s ∈ selected → ∃ id, reached seeds id ∧ Node wantsDag id = Some s) ∧
  (∀ id, id ∈ pending → reached seeds id).

(** Every seed and every ancestor of a visited node is visited or pending,
    and the node of every visited identifier is selected. *)
Definition completeAt (seeds pending : list string) (visited_ : gset string)
    (selected : list Stack) : Prop :=
  (∀ seed, seed ∈ seeds → seed ∈ visited_ ∨ seed ∈ pending) ∧
  (∀ id a, id ∈ visited_ → a ∈ AncestorsOf wantsDag id →
           a ∈ visited_ ∨ a ∈ pending) ∧
  (∀ id, id ∈ visited_ → ∃ s, s ∈ selected ∧ Node wantsDag id = Some s).

(** The number of identifiers at the front of [pending] that are visited. *)
Fixpoint visitedFront (visited_ : gset string) (pending : list string) : nat :=
  match pending with
  | [] => 0
  | id :: rest =>
      if decide (id ∈ visited_) then S (visitedFront visited_ rest) else 0
  end.

End WantedVocabulary.

End Stack.

(** * Scenarios *)

(** Concrete let blocks; the values are integers. *)
Module LetsScenarios.
Import Lets.

Definition at_ (line : nat) : Range :=
  {| Filename := "/cfg/lets.tm";
     Start := {| Line := line; Column := 1; Byte := 0 |};
     End := {| Line := line; Column := 80; Byte := 0 |} |}.

(** The references [let.<name>], [<root>.<name>], [let[<key>]] and the bare
    identifier [<root>]. *)
Definition letAttr (name : string) (r : Range) : Traversal Z :=
  {| RootName := "let"; steps := [TraverseAttr name r]; SourceRange := r |}.

Definition nsAttr (rootName name : string) (r : Range) : Traversal Z :=
  {| RootName := rootName; steps := [TraverseAttr name r]; SourceRange := r |}.

Definition letIndex (key : Z) (r : Range) : Traversal Z :=
  {| RootName := "let"; steps := [TraverseIndex key r]; SourceRange := r |}.

Definition bare (rootName : string) (r : Range) : Traversal Z :=
  {| RootName := rootName; steps := []; SourceRange := r |}.

(** The value of [<root>.<name>] in a context. *)
Definition readVar (c : Context Z) (rootName name : string) : result Error Z :=
  match namespaces c !! rootName with
  | Some ns =>
      match ns !! name with
      | Some v => Ok v
      | None => Err (E None None ("Unsupported attribute: " +:+ name) [])
      end
  | None => Err (E None None ("Unknown variable: " +:+ rootName) [])
  end.

(** An attribute on line [line] with the given references and value. *)
Definition expr (line : nat) (vars : list (Traversal Z))
    (value : Context Z → result Error Z) : Expr Z :=
  {| Origin := at_ line;
     Expression_ := {| Variables := vars; ExprRange := at_ line;
                       ExprValue := value; AbsTraversalForExpr := None |} |}.

(** [<name> = unset] on line [line]. *)
Definition unsetExpr (line : nat) : Expr Z :=
  {| Origin := at_ line;
     Expression_ := {| Variables := [bare "unset" (at_ line)];
                       ExprRange := at_ line;
                       ExprValue := λ c, Err (E None None "Unknown variable: unset" []);
                       AbsTraversalForExpr := Some (bare "unset" (at_ line)) |} |}.

(** A range order: by name. *)
Definition nameLe (x y : string * Expr Z) : Prop := String.leb x.1 y.1 = true.

#[global] Instance nameLe_dec x y : Decision (nameLe x y).
Proof. unfold nameLe. apply _. Defined.

Definition byName (n : nat) (mp : gmap string (Expr Z)) : list (string * Expr Z) :=
  merge_sort nameLe (map_to_list mp).

Definition noCtx : Context Z := {| namespaces := ∅ |}.

(** [let { a = let.b + 1  b = 2 }] *)
Definition forwardRef : gmap string (Expr Z) :=
  {[ "a" := expr 1 [letAttr "b" (at_ 1)]
              (λ c, match readVar c "let" "b" with
                    | Ok v => Ok (v + 1)%Z
                    | Err e => Err e
                    end);
     "b" := expr 2 [] (λ _, Ok 2%Z) ]}.

(** [let { a = 1 / 0 }] *)
Definition divByZero : gmap string (Expr Z) :=
  {[ "a" := expr 1 [] (λ _, Err (E None None "Division by zero" [])) ]}.

(** [let { a = 1  b = unset }] *)
Definition withUnset : gmap string (Expr Z) :=
  {[ "a" := expr 1 [] (λ _, Ok 1%Z); "b" := unsetExpr 2 ]}.

(** [let { b = unset }] *)
Definition onlyUnset : gmap string (Expr Z) := {[ "b" := unsetExpr 1 ]}.

(** [let { a = let.b  b = let.a }] *)
Definition twoCycle : gmap string (Expr Z) :=
  {[ "a" := expr 1 [letAttr "b" (at_ 1)] (λ c, readVar c "let" "b");
     "b" := expr 2 [letAttr "a" (at_ 2)] (λ c, readVar c "let" "a") ]}.



(** [let { q = let.q + let[0] }] *)
Definition indexAfterCycle : gmap string (Expr Z) :=
  {[ "q" := expr 1 [letAttr "q" (at_ 1); letIndex 0 (at_ 1)]
              (λ c, readVar c "let" "q") ]}.

(** [let { q = let.q + foo.x }] *)
Definition unknownAfterCycle : gmap string (Expr Z) :=
  {[ "q" := expr 1 [letAttr "q" (at_ 1); nsAttr "foo" "x" (at_ 1)]
              (λ c, readVar c "foo" "x") ]}.

(** [let { a = foo.x  b = let[0] }] *)
Definition unknownAndIndex : gmap string (Expr Z) :=
  {[ "a" := expr 1 [nsAttr "foo" "x" (at_ 1)] (λ c, readVar c "foo" "x");
     "b" := expr 2 [letIndex 0 (at_ 2)] (λ c, readVar c "let" "b") ]}.

(** Map blocks: the body tells whether a map expression can be made. *)
Definition newMapExpr (b : MapBlock bool) : result Error (Expression Z) :=
  if MapBody b then
    Ok {| Variables := []; ExprRange := at_ 9;
          ExprValue := λ _, Ok 0%Z; AbsTraversalForExpr := None |}
  else Err (E None None "map block has no value" []).

Definition sortedList (attrs : gmap string (Attribute Z)) : list (Attribute Z) :=
  (map_to_list attrs).*2.

Definition attrA : Attribute Z :=
  {| AttrName := "a"; AttrRange := at_ 1;
     AttrExpr := {| Variables := []; ExprRange := at_ 1;
                    ExprValue := λ _, Ok 1%Z; AbsTraversalForExpr := None |} |}.

Definition mapBlock (label : string) (line : nat) (ok : bool) : MapBlock bool :=
  {| Labels := [label]; RawOrigins := [at_ line]; MapBody := ok |}.

(** [let { a = 1  map m { ... }  map a { ... } }], the block [m] well formed. *)
Definition collidingBlock : MergedBlock Z bool :=
  {| MAttributes := {[ "a" := attrA ]};
     Blocks := [mapBlock "m" 2 true; mapBlock "a" 3 true] |}.

(** The same with a block [m] of which no map expression can be made. *)
Definition collidingAfterBad : MergedBlock Z bool :=
  {| MAttributes := {[ "a" := attrA ]};
     Blocks := [mapBlock "m" 2 false; mapBlock "a" 3 true] |}.

(** [let { a = 1  b = foo.x  q = let.q }] *)
Definition partly : gmap string (Expr Z) :=
  {[ "a" := expr 1 [] (λ _, Ok 1%Z);
     "b" := expr 2 [nsAttr "foo" "x" (at_ 2)] (λ c, readVar c "foo" "x");
     "q" := expr 3 [letAttr "q" (at_ 3)] (λ c, readVar c "let" "q") ]}.

(** A context with a value under [let] and one under [global]. *)
Definition someCtx : Context Z :=
  {| namespaces := {[ "let" := {[ "old" := 7%Z ]}; "global" := {[ "x" := 1%Z ]} ]} |}.

(** [let { a = 1  map m { ... } }] *)
Definition cleanBlock : MergedBlock Z bool :=
  {| MAttributes := {[ "a" := attrA ]}; Blocks := [mapBlock "m" 2 true] |}.

(** [let { a = let.b + foo.x  b = 1 }] *)
Definition unknownAfterLet : gmap string (Expr Z) :=
  {[ "a" := expr 1 [letAttr "b" (at_ 1); nsAttr "foo" "x" (at_ 1)]
              (λ c, readVar c "foo" "x");
     "b" := expr 2 [] (λ _, Ok 1%Z) ]}.

(** [let { a = let.b + let[0]  b = 1 }] *)
Definition indexAfterLet : gmap string (Expr Z) :=
  {[ "a" := expr 1 [letAttr "b" (at_ 1); letIndex 0 (at_ 1)]
              (λ c, readVar c "let" "b");
     "b" := expr 2 [] (λ _, Ok 1%Z) ]}.

(** [let { a = let.zz }] *)
Definition letUndefined : gmap string (Expr Z) :=
  {[ "a" := expr 1 [letAttr "zz" (at_ 1)] (λ c, readVar c "let" "zz") ]}.

End LetsScenarios.

(** A project in a git repository at [/repo], with four stacks and two
    shared modules, and a second tree [/cyc] whose two modules use each
    other. *)
Module StackScenarios.
Import Stack.

(** The components of a slash-separated path. *)
Fixpoint splitPath (s : string) (cur : string) : list string :=
  match s with
  | EmptyString => if bool_decide (cur = EmptyString) then [] else [cur]
  | String c rest =>
      if bool_decide (c = Ascii.ascii_of_nat 47) then
        if bool_decide (cur = EmptyString) then splitPath rest EmptyString
        else cur :: splitPath rest EmptyString
      else splitPath rest (cur +:+ String c EmptyString)
  end.

Definition join (a b : string) : string := a +:+ "/" +:+ b.

Definition dirOf (p : string) : string :=
  "/" +:+ String.concat "/" (removelast (splitPath p EmptyString)).

Definition extOf (name : string) : string :=
  String.substring (String.length name - 3) 3 name.

Definition prjAbsPath (rootDir abspath : string) : Path :=
  splitPath (String.substring (String.length rootDir)
               (String.length abspath - String.length rootDir) abspath)
            EmptyString.

(** Trigger files are kept under [/.tmtriggers/<stack>/]. *)
Definition stackPath (p : Path) : Path * bool :=
  match p with
  | dir :: rest =>
      if bool_decide (dir = ".tmtriggers") then (removelast rest, true)
      else ([], false)
  | [] => ([], false)
  end.

Definition notExist : Error := E None None "no such file or directory" [].

(** The directories and the files of the two trees. *)
Definition dirs : list string :=
  [ "/repo"; "/repo/s1"; "/repo/s1/sub"; "/repo/s2"; "/repo/s3"; "/repo/s4";
    "/repo/s4/../mods/m"; "/repo/s4/../mods/m/../n";
    "/cyc/x/../a"; "/cyc/x/../a/../b"; "/cyc/x/../a/../b/../a" ].

Definition files : list string :=
  [ "/repo/.tmtriggers/s1/t.tm.hcl"; "/repo/s1/sub/x.tf"; "/repo/s2/main.tf";
    "/repo/shared/vars.tf" ].

Definition listing : list (string * list DirEntry) :=
  [ ("/repo/s1", [ {| Name := "sub"; EntryIsDir := true |} ]);
    ("/repo/s2", [ {| Name := "main.tf"; EntryIsDir := false |} ]);
    ("/repo/s3", [ {| Name := "README.md"; EntryIsDir := false |} ]);
    ("/repo/s4", [ {| Name := "main.tf"; EntryIsDir := false |} ]);
    ("/repo/s4/../mods/m", [ {| Name := "main.tf"; EntryIsDir := false |} ]);
    ("/repo/s4/../mods/m/../n", [ {| Name := "x.tf"; EntryIsDir := false |} ]);
    ("/cyc/x/../a", [ {| Name := "main.tf"; EntryIsDir := false |} ]);
    ("/cyc/x/../a/../b", [ {| Name := "main.tf"; EntryIsDir := false |} ]) ].

Definition modulesOf : list (string * list Module_) :=
  [ ("/repo/s4/main.tf", [ {| Source := "../mods/m" |} ]);
    ("/repo/s4/../mods/m/main.tf", [ {| Source := "../n" |} ]);
    ("/cyc/x/../a/main.tf", [ {| Source := "../b" |} ]);
    ("/cyc/x/../a/../b/main.tf", [ {| Source := "../a" |} ]) ].

(** What [git diff --name-only] lists in a working directory. *)
Definition diffs : list (string * list string) :=
  [ ("/repo", [ ".tmtriggers/s1/t.tm.hcl"; "mods/n/x.tf"; "s1/sub/x.tf";
                "s2/main.tf"; "shared/vars.tf" ]);
    ("/repo/s4/../mods/m/../n", [ "x.tf" ]) ].

Definition assoc {A} (table : list (string * A)) (key : string) : option A :=
  (λ found, found.2.2) <$> list_find (λ kv, kv.1 = key) table.

(** The world with [HEAD] at commit [head] and the base reference at
    commit [base]. *)
Definition world (base head : string) : World :=
  {| WithConfig := λ _, Ok ();
     IsRepository := λ _, true;
     RevParse := λ _ ref, if bool_decide (ref = "HEAD") then Ok head else Ok base;
     DiffNames := λ dir _ _, Ok (default [] (assoc diffs dir));
     ListUntracked := λ _, Ok [];
     ListUncommitted := λ _, Ok [];
     Stat := λ p,
       if bool_decide (p ∈ dirs) then Ok {| FileIsDir := true |}
       else if bool_decide (p ∈ files) then Ok {| FileIsDir := false |}
       else Err notExist;
     IsNotExist := λ err, bool_decide (errDescription err = "no such file or directory");
     ReadDir := λ p, Ok (default [] (assoc listing p));
     filepath_Join := join;
     filepath_Dir := dirOf;
     path_Ext := extOf;
     quote := λ s, dq +:+ s +:+ dq;
     PrjAbsPath := prjAbsPath;
     StackPath := stackPath;
     ParseModules := λ p, Ok (default [] (assoc modulesOf p)) |}.

Definition stackAt (dir : Path) : Stack :=
  {| Dir := dir;
     StackHostDir := "/repo/" +:+ String.concat "/" dir;
     Watch := if bool_decide (dir = ["s3"]) then [["shared"; "vars.tf"]] else [];
     Wants := []; WantedBy := []; IsChanged := false |}.

Definition stackDirs : list Path := [ ["s4"]; ["s3"]; ["s2"]; ["s1"] ].

(** The configuration tree: a node is the directory it stands for. *)
Definition rootCfg : Root Path :=
  {| HostDir := "/repo";
     Lookup := λ p, if bool_decide (p ∈ stackDirs) then Some p else None;
     IsStack := λ _, true;
     NewStackFromHCL := λ _ cfg, Ok (stackAt cfg);
     ListStacks :=
       Ok ((λ dir, {| EntryStack := stackAt dir; Reason := EmptyString |}) <$> stackDirs) |}.

Definition manager : Manager Path := {| root := rootCfg; gitBaseRef := "main" |}.

(** The branch is ahead of the base reference. *)
Definition ahead : World := world "c0ffee" "decade".

(** The branch is at the base reference. *)
Definition atBase : World := world "c0ffee" "c0ffee".

Definition entryOf (dir : Path) (isChanged : bool) (reason : string) : Entry :=
  {| EntryStack :=
       {| Dir := dir; StackHostDir := "/repo/" +:+ String.concat "/" dir;
          Watch := if bool_decide (dir = ["s3"]) then [["shared"; "vars.tf"]] else [];
          Wants := []; WantedBy := []; IsChanged := isChanged |};
     Reason := reason |}.

(** The report on the branch that is ahead: the stack [/s1] with a changed
    file below it, [/s2] with a changed file, [/s3] with a changed watched
    file and [/s4] with a changed module of a module. *)
Definition aheadReport : Report :=
  {| Stacks :=
       [ entryOf ["s1"] false "stack has unmerged changes";
         entryOf ["s2"] false "stack has unmerged changes";
         entryOf ["s3"] true
           ("stack changed because watched file " +:+ dq +:+ "/shared/vars.tf"
              +:+ dq +:+ " changed");
         entryOf ["s4"] true
           ("stack changed because " +:+ dq +:+ "../mods/m" +:+ dq
              +:+ " changed because module " +:+ dq +:+ "../mods/m" +:+ dq
              +:+ " changed because ../mods/m changed because module "
              +:+ dq +:+ "../n" +:+ dq +:+ " has unmerged changes ") ];
     Checks := {| UncommittedFiles := []; UntrackedFiles := [] |} |}.

(** The sources of the modules that the files of the two trees declare. *)
Definition sources : list string := ["../mods/m"; "../n"; "../b"; "../a"].

(** A world with another answer of [IsRepository] and of [os.ReadDir]. *)
Definition worldWith (w : World) (isRepository : string → bool)
    (readDir : string → result Error (list DirEntry)) : World :=
  {| WithConfig := WithConfig w;
     IsRepository := isRepository;
     RevParse := RevParse w;
     DiffNames := DiffNames w;
     ListUntracked := ListUntracked w;
     ListUncommitted := ListUncommitted w;
     Stat := Stat w;
     IsNotExist := IsNotExist w;
     ReadDir := readDir;
     filepath_Join := filepath_Join w;
     filepath_Dir := filepath_Dir w;
     path_Ext := path_Ext w;
     quote := quote w;
     PrjAbsPath := PrjAbsPath w;
     StackPath := StackPath w;
     ParseModules := ParseModules w |}.

(** The project outside a git repository. *)
Definition noRepo : World := worldWith ahead (λ _, false) (ReadDir ahead).

(** Every directory holds three files and a directory. *)
Definition mixedEntries : list DirEntry :=
  [ {| Name := "a.tf"; EntryIsDir := false |};
    {| Name := "sub"; EntryIsDir := true |};
    {| Name := "b.tf"; EntryIsDir := false |};
    {| Name := "c.tf"; EntryIsDir := false |} ].

Definition mixed : World := worldWith ahead (λ _, true) (λ _, Ok mixedEntries).

(** A closure that records the names of the files it is called on, and one
    that fails on [b.tf]. *)
Definition recordName (file : DirEntry) (names : list string)
  : outcome (result Error unit * list string) :=
  Return (Ok (), names ++ [Name file]).

Definition failOnB (file : DirEntry) (names : list string)
  : outcome (result Error unit * list string) :=
  if bool_decide (Name file = "b.tf")
  then Return (Err (E None None "cannot read" []), names)
  else Return (Ok (), names ++ [Name file]).

(** Four stacks: [/a] wants [/b], [/b] wants [/c] and [/a], [/d] wants
    [/a]. *)
Definition wantStack (dir : string) (wants : list string) : Stack :=
  {| Dir := [dir]; StackHostDir := "/repo/" +:+ dir; Watch := [];
     Wants := wants; WantedBy := []; IsChanged := false |}.

Definition wantStacks : list Stack :=
  [ wantStack "a" ["/b"]; wantStack "b" ["/c"; "/a"]; wantStack "c" [];
    wantStack "d" ["/a"] ].

(** The graph as the list of the stacks added to it; the edges of a node
    lead to the stacks it wants. *)
Definition buildDag (d : list Stack) (visited_ : gset string) (s : Stack)
  : result Error (list Stack * gset string) :=
  Ok (d ++ [s], {[stackID s]} ∪ visited_).

Definition nodeOf (d : list Stack) (id : string) : option Stack :=
  snd <$> list_find (λ s, stackID s = id) d.

Definition ancestorsOf (d : list Stack) (id : string) : list string :=
  match nodeOf d id with Some s => Wants s | None => [] end.

Definition wantIds : list string := ["/a"; "/b"; "/c"; "/d"].

(** A stack [/s5] whose files [a.tf] and [b.tf] declare the modules
    [../m1] and [../m2]; both modules have changed files. *)
Definition twoFiles : World :=
  {| WithConfig := λ _, Ok ();
     IsRepository := λ _, true;
     RevParse := λ _ ref, if bool_decide (ref = "HEAD") then Ok "decade" else Ok "c0ffee";
     DiffNames := λ dir _ _,
       if bool_decide (dir = "/repo") then Ok ["m1/x.tf"; "m2/x.tf"] else Ok ["x.tf"];
     ListUntracked := λ _, Ok [];
     ListUncommitted := λ _, Ok [];
     Stat := λ _, Ok {| FileIsDir := true |};
     IsNotExist := λ _, false;
     ReadDir := λ p,
       if bool_decide (p = "/repo/s5")
       then Ok [ {| Name := "a.tf"; EntryIsDir := false |};
                 {| Name := "b.tf"; EntryIsDir := false |} ]
       else Ok [];
     filepath_Join := join;
     filepath_Dir := dirOf;
     path_Ext := extOf;
     quote := λ s, dq +:+ s +:+ dq;
     PrjAbsPath := prjAbsPath;
     StackPath := stackPath;
     ParseModules := λ p,
       if bool_decide (p = "/repo/s5/a.tf") then Ok [ {| Source := "../m1" |} ]
       else if bool_decide (p = "/repo/s5/b.tf") then Ok [ {| Source := "../m2" |} ]
       else Ok [] |}.

Definition stack5 : Stack :=
  {| Dir := ["s5"]; StackHostDir := "/repo/s5"; Watch := [];
     Wants := []; WantedBy := []; IsChanged := false |}.

Definition manager5 : Manager Path :=
  {| root := {| HostDir := "/repo";
                Lookup := λ p, if bool_decide (p = ["s5"]) then Some p else None;
                IsStack := λ _, true;
                NewStackFromHCL := λ _ _, Ok stack5;
                ListStacks := Ok [ {| EntryStack := stack5; Reason := EmptyString |} ] |};
     gitBaseRef := "main" |}.

(** The entry of [/s5] for a changed module. *)
Definition moduleEntry (source : string) : Entry :=
  {| EntryStack :=
       {| Dir := ["s5"]; StackHostDir := "/repo/s5"; Watch := [];
          Wants := []; WantedBy := []; IsChanged := true |};
     Reason := "stack changed because " +:+ dq +:+ source +:+ dq
                 +:+ " changed because module " +:+ dq +:+ source +:+ dq
                 +:+ " has unmerged changes" |}.

End StackScenarios.

(** * Properties *)

(** ** The let evaluator *)

Module LetsFacts.
Import Lets.

Section Facts.
Context {cty : Type}.

#[local] Abbreviation Exprs := (gmap string (Expr cty)).

Variable order : nat → Exprs → list (string * Expr cty).

(** A [range] produces every entry of the map once, in some order. *)
Hypothesis order_perm : ∀ n (mp : Exprs), order n mp ≡ₚ map_to_list mp.

Lemma order_elem n (mp : Exprs) k e : (k, e) ∈ order n mp ↔ mp !! k = Some e.
Proof using order_perm. rewrite order_perm. apply elem_of_map_to_list. Qed.

Lemma order_keys n (mp : Exprs) k : k ∈ (order n mp).*1 ↔ is_Some (mp !! k).
Proof using order_perm.
  rewrite list_elem_of_fmap. split.
  - intros ([k' e] & -> & Hin). apply order_elem in Hin. simpl. eauto.
  - intros [e He]. exists (k, e). split; [done|]. by apply order_elem.
Qed.

Lemma order_NoDup n (mp : Exprs) : NoDup (order n mp).*1.
Proof using order_perm. rewrite order_perm. apply NoDup_fst_map_to_list. Qed.

Lemma order_nil n (mp : Exprs) : order n mp = [] ↔ mp = ∅.
Proof using order_perm.
  split.
  - intros Hnil. apply map_to_list_empty_iff.
    apply Permutation_nil_r. rewrite <- order_perm, Hnil. done.
  - intros ->. apply Permutation_nil_r. rewrite order_perm, map_to_list_empty. done.
Qed.

(** *** copyexprs and removeUnset *)

Lemma foldl_insert_lookup (l : list (string * Expr cty)) (acc : Exprs) k :
  NoDup l.*1 →
  foldl (λ d kv, <[kv.1 := kv.2]> d) acc l !! k =
    match list_to_map (M := Exprs) l !! k with
    | Some e => Some e
    | None => acc !! k
    end.
Proof.
  revert acc. induction l as [|[k' e'] l IH]; intros acc Hnd; simpl.
  - by rewrite lookup_empty.
  - inversion Hnd as [|? ? Hk' Hnd']; subst.
    rewrite IH by done.
    destruct (decide (k' = k)) as [->|Hne].
    + rewrite (lookup_insert_eq (list_to_map l)).
      rewrite (not_elem_of_list_to_map_1 (M := gmap string) l k Hk').
      by rewrite lookup_insert_eq.
    + rewrite (lookup_insert_ne (list_to_map l)) by done.
      destruct (list_to_map l !! k); [done|].
      by rewrite lookup_insert_ne.
Qed.

Lemma copyexprs_empty (src : Exprs) : copyexprs order ∅ src = src.
Proof using order_perm.
  apply map_eq. intros k. unfold copyexprs.
  rewrite foldl_insert_lookup by apply order_NoDup.
  rewrite lookup_empty.
  destruct (list_to_map (order 0 src) !! k) as [e|] eqn:Hk.
  - apply elem_of_list_to_map in Hk; [|apply order_NoDup].
    apply order_elem in Hk. done.
  - destruct (src !! k) as [e|] eqn:Hs; [|done].
    apply (order_elem 0) in Hs.
    apply (elem_of_list_to_map (M := gmap string)) in Hs; [|apply order_NoDup].
    congruence.
Qed.

Lemma foldl_unset_None (l : list (string * Expr cty)) (acc : Exprs) k :
  acc !! k = None →
  foldl (λ mp kv, if isUnset kv.2 then delete kv.1 mp else mp) acc l !! k = None.
Proof.
  revert acc. induction l as [|[k' e'] l IH]; intros acc Hk; simpl; [done|].
  apply IH. destruct (isUnset e'); [|done].
  destruct (decide (k' = k)) as [->|]; [apply lookup_delete_eq|].
  by rewrite lookup_delete_ne.
Qed.

Lemma foldl_unset_drop (l : list (string * Expr cty)) (acc : Exprs) k e :
  (k, e) ∈ l → isUnset e = true →
  foldl (λ mp kv, if isUnset kv.2 then delete kv.1 mp else mp) acc l !! k = None.
Proof.
  revert acc. induction l as [|[k' e'] l IH]; intros acc Hin Hu; simpl.
  - by apply elem_of_nil in Hin.
  - apply elem_of_cons in Hin as [[= <- <-]|Hin].
    + rewrite Hu. apply foldl_unset_None, lookup_delete_eq.
    + by apply IH.
Qed.

Lemma foldl_unset_keep (l : list (string * Expr cty)) (acc : Exprs) k :
  (∀ e, (k, e) ∈ l → isUnset e = false) →
  foldl (λ mp kv, if isUnset kv.2 then delete kv.1 mp else mp) acc l !! k = acc !! k.
Proof.
  revert acc. induction l as [|[k' e'] l IH]; intros acc Hall; simpl; [done|].
  rewrite IH.
  - destruct (isUnset e') eqn:Hu; [|done].
    destruct (decide (k' = k)) as [->|]; [|by rewrite lookup_delete_ne].
    rewrite (Hall e') in Hu; [done|]. apply elem_of_cons. by left.
  - intros e He. apply Hall. apply elem_of_cons. by right.
Qed.

(** [removeUnset] deletes exactly the entries [isUnset] accepts. *)
Lemma removeUnset_lookup (exprs : Exprs) k :
  removeUnset order exprs !! k =
    match exprs !! k with
    | Some e => if isUnset e then None else Some e
    | None => None
    end.
Proof using order_perm.
  unfold removeUnset. destruct (exprs !! k) as [e|] eqn:Hk.
  - destruct (isUnset e) eqn:Hu.
    + eapply foldl_unset_drop; [|done]. by apply order_elem.
    + rewrite foldl_unset_keep; [done|].
      intros e' He'. apply order_elem in He'. congruence.
  - by apply foldl_unset_None.
Qed.

(** The entries pending when the main loop starts. *)
Lemma initState_pending (letExprs : Exprs) c k :
  pendingExprs (initState order letExprs c) !! k =
    match letExprs !! k with
    | Some e => if isUnset e then None else Some e
    | None => None
    end.
Proof using order_perm.
  unfold initState; simpl. by rewrite copyexprs_empty, removeUnset_lookup.
Qed.

(** *** One visit of a pending expression *)

Lemma evalPending_cases (st : EvalState cty) name expr :
  match evalPending st name expr with
  | Return st' =>
      (∃ errs, st' = setErrs st name errs) ∨
      (∃ val, checkVars (ctx st) (pendingExprs st)
                        (Variables (Expression_ expr)) L = ScanDone []
              ∧ ExprValue (Expression_ expr) (ctx st) = Ok val
              ∧ st' = evaluated st name expr val)
  | Panic _ =>
      ∃ msg, checkVars (ctx st) (pendingExprs st)
                       (Variables (Expression_ expr)) L = ScanPanic msg
  | OutOfFuel => False
  end.
Proof.
  unfold evalPending.
  destruct (checkVars _ _ _ _) as [msg|errs|errs] eqn:Hscan; [by eexists|by left; eexists|].
  destruct errs as [|e errs]; simpl.
  - destruct (ExprValue _ _) as [val|err] eqn:Hval.
    + right. by exists val.
    + left. by eexists.
  - left. by eexists.
Qed.

Lemma evalPending_other (st st' : EvalState cty) name expr k :
  evalPending st name expr = Return st' → k ≠ name →
  pendingExprs st' !! k = pendingExprs st !! k.
Proof.
  intros Hev Hne. pose proof (evalPending_cases st name expr) as Hc.
  rewrite Hev in Hc. destruct Hc as [[errs ->]|(val & _ & _ & ->)]; simpl; [done|].
  by rewrite lookup_delete_ne.
Qed.

Lemma evalPending_size (st st' : EvalState cty) name expr :
  pendingExprs st !! name = Some expr →
  evalPending st name expr = Return st' →
  size (pendingExprs st') + amountEvaluated st'
  = size (pendingExprs st) + amountEvaluated st.
Proof.
  intros Hp Hev. pose proof (evalPending_cases st name expr) as Hc.
  rewrite Hev in Hc. destruct Hc as [[errs ->]|(val & _ & _ & ->)]; simpl; [done|].
  rewrite map_size_delete_Some by eauto.
  assert (size (pendingExprs st) ≠ 0); [|lia].
  apply map_size_non_empty_iff. intros Hempty. by rewrite Hempty, lookup_empty in Hp.
Qed.

(** *** Invariants of a pass and of the main loop *)

Lemma ends_impl {A} (okPanic : Prop) (o : outcome A) (P Q : A → Prop) :
  (∀ a, P a → Q a) → ends okPanic o P → ends okPanic o Q.
Proof. intros HPQ. destruct o; simpl; auto. Qed.

Lemma evalPass_inv (K : list (string * Expr cty) → EvalState cty → Prop)
    (okPanic : Prop) entries st :
  NoDup entries.*1 →
  (∀ name expr, (name, expr) ∈ entries → pendingExprs st !! name = Some expr) →
  K entries st →
  (∀ st name expr rest,
      K ((name, expr) :: rest) st →
      pendingExprs st !! name = Some expr →
      name ∉ rest.*1 →
      ends okPanic (evalPending st name expr) (K rest)) →
  ends okPanic (evalPass st entries) (K []).
Proof.
  intros Hnd Hpend HK Hstep. revert st Hnd Hpend HK.
  induction entries as [|[name expr] rest IH]; intros st Hnd Hpend HK; simpl; [done|].
  inversion Hnd as [|? ? Hname Hnd']; subst.
  assert (pendingExprs st !! name = Some expr) as Hp
    by (apply Hpend, elem_of_cons; by left).
  specialize (Hstep st name expr rest HK Hp Hname).
  destruct (evalPending st name expr) as [st'| |] eqn:Hev; simpl in *; [|done..].
  apply IH; [done| |done].
  intros name' expr' Hin.
  rewrite (evalPending_other _ _ _ _ _ Hev).
  - apply Hpend, elem_of_cons. by right.
  - intros ->. apply Hname. apply list_elem_of_fmap. by exists (name, expr').
Qed.

Lemma evalLoop_inv (K Q : EvalState cty → Prop) (okPanic : Prop) :
  (∀ st, K st → K (resetAmount st)) →
  (∀ st name expr,
      K st → pendingExprs st !! name = Some expr →
      ends okPanic (evalPending st name expr) K) →
  (∀ n st st',
      K st → pendingExprs st ≠ ∅ →
      evalPass (resetAmount st) (order n (pendingExprs st)) = Return st' →
      Q st') →
  ∀ fuel n st,
    size (pendingExprs st) < fuel → K st →
    ends okPanic (evalLoop order fuel n st)
         (λ r, K r.2 ∧ (pendingExprs r.2 = ∅ ∨ (amountEvaluated r.2 = 0 ∧ Q r.2))).
Proof using order_perm.
  intros Hreset Hstep Hpass fuel.
  induction fuel as [|fuel IH]; intros n st Hfuel HK; [lia|].
  simpl. case_bool_decide as Hempty; simpl; [by auto|].
  pose proof (evalPass_inv
    (λ _ s, K s ∧ size (pendingExprs s) + amountEvaluated s = size (pendingExprs st))
    okPanic (order n (pendingExprs st)) (resetAmount st)) as Hinv.
  destruct (evalPass (resetAmount st) (order n (pendingExprs st))) as [st'| |] eqn:Hp;
    simpl in Hinv.
  - destruct Hinv as [HK' Hsize].
    + apply order_NoDup.
    + intros name expr Hin. by apply order_elem in Hin.
    + split; [by apply Hreset|simpl; lia].
    + intros s name expr rest [HKs Hs] Hpn _.
      specialize (Hstep s name expr HKs Hpn).
      destruct (evalPending s name expr) as [s'| |] eqn:Hev; simpl in *; [|done..].
      split; [done|]. rewrite <- Hs. by eapply evalPending_size.
    + case_bool_decide as Hamount; simpl.
      * split; [done|]. right. split; [done|]. exact (Hpass n st st' HK Hempty Hp).
      * apply IH; [lia|done].
  - apply Hinv.
    + apply order_NoDup.
    + intros name expr Hin. by apply order_elem in Hin.
    + split; [by apply Hreset|simpl; lia].
    + intros s name expr rest [HKs Hs] Hpn _.
      specialize (Hstep s name expr HKs Hpn).
      destruct (evalPending s name expr) as [s'| |] eqn:Hev; simpl in *; [|done..].
      split; [done|]. rewrite <- Hs. by eapply evalPending_size.
  - apply Hinv.
    + apply order_NoDup.
    + intros name expr Hin. by apply order_elem in Hin.
    + split; [by apply Hreset|simpl; lia].
    + intros s name expr rest [HKs Hs] Hpn _.
      specialize (Hstep s name expr HKs Hpn).
      destruct (evalPending s name expr) as [s'| |] eqn:Hev; simpl in *; [|done..].
      split; [done|]. rewrite <- Hs. by eapply evalPending_size.
Qed.

(** *** References to lets *)

Lemma unknownOf_cons (c : Context cty) t vars err : unknownOf c vars err → unknownOf c (t :: vars) err.
Proof. intros (t' & Hin & Hns & ->). exists t'. split; [by apply elem_of_cons; right|done]. Qed.

(** With attribute accesses only, the loop over the references ends without
    a panic, having appended unknown-namespace errors only. *)
Lemma checkVars_attrAccess c (pending : Exprs) vars errs :
  Forall attrAccess vars →
  ∃ more, Forall (unknownOf c vars) more ∧
    (checkVars c pending vars errs = ScanSkip (errs ++ more) ∨
     checkVars c pending vars errs = ScanDone (errs ++ more)).
Proof.
  intros Hwf. revert errs.
  induction Hwf as [|t vars Ht Hwf IH]; intros errs; simpl.
  - exists []. rewrite app_nil_r. auto.
  - destruct (HasNamespace c (RootName t)) eqn:Hns; simpl.
    + case_bool_decide as Hroot.
      * destruct (IH errs) as (more & Hmore & Hres). exists more. split; [|done].
        eapply Forall_impl; [done|]. intros ?. apply unknownOf_cons.
      * destruct Ht as (attrName & r & ->); [done|].
        case_bool_decide.
        -- exists []. rewrite app_nil_r. auto.
        -- destruct (IH errs) as (more & Hmore & Hres). exists more. split; [|done].
           eapply Forall_impl; [done|]. intros ?. apply unknownOf_cons.
    + destruct (IH (Append errs (unknownNamespace t))) as (more & Hmore & Hres).
      exists (unknownNamespace t :: more). unfold Append in Hres.
      rewrite <- !(assoc_L (++)) in Hres. split; [|done].
      constructor.
      * exists t. split; [by apply elem_of_cons; left|done].
      * eapply Forall_impl; [done|]. intros ?. apply unknownOf_cons.
Qed.

Lemma letRef_other (t : Traversal cty) : RootName t ≠ "let" → letRef t = None.
Proof. intros Hr. unfold letRef. by rewrite bool_decide_eq_false_2. Qed.

Lemma letRef_attr (t : Traversal cty) attrName r :
  RootName t = "let" → steps t !! 0 = Some (TraverseAttr attrName r) →
  letRef t = Some attrName.
Proof. intros Hr Hs. unfold letRef. by rewrite bool_decide_eq_true_2, Hs. Qed.

Lemma letDeps_cons (t : Traversal cty) vars :
  omap letRef (t :: vars)
  = match letRef t with Some b => b :: omap letRef vars | None => omap letRef vars end.
Proof. done. Qed.

(** No reference to a pending let and no unknown namespace: the loop ends
    with the errors it started with. *)
Lemma checkVars_clear c (pending : Exprs) vars errs :
  Forall (λ t, HasNamespace c (RootName t) = true ∧ attrAccess t) vars →
  (∀ b, b ∈ omap letRef vars → pending !! b = None) →
  checkVars c pending vars errs = ScanDone errs.
Proof.
  intros Hvars. revert errs.
  induction Hvars as [|t vars [Hns Ht] Hvars IH]; intros errs Hdeps; [done|].
  rewrite letDeps_cons in Hdeps. simpl. rewrite Hns. simpl.
  destruct (decide (RootName t = "let")) as [Hr|Hr].
  - destruct (Ht Hr) as (attrName & r & Hstep).
    rewrite (letRef_attr _ _ _ Hr Hstep) in Hdeps.
    rewrite bool_decide_eq_false_2 by (by intros []). rewrite Hstep.
    rewrite bool_decide_eq_false_2.
    + apply IH. intros b Hb. apply Hdeps. apply elem_of_cons. by right.
    + rewrite (Hdeps attrName); [by intros [? ?]|]. apply elem_of_cons. by left.
  - rewrite (bool_decide_eq_true_2 _ Hr). rewrite (letRef_other _ Hr) in Hdeps.
    by apply IH.
Qed.

(** *** The invariant of the main loop *)

Lemma initState_ctx_let (letExprs : Exprs) c :
  HasNamespace (ctx (initState order letExprs c)) "let" = true.
Proof.
  unfold initState; simpl. destruct (HasNamespace c "let") eqn:Hc; [done|].
  unfold HasNamespace, SetNamespace; simpl.
  apply bool_decide_eq_true_2. rewrite lookup_insert_eq. eauto.
Qed.

Lemma Inv_init (letExprs : Exprs) c :
  Inv (pendingExprs (initState order letExprs c)) (ctx (initState order letExprs c))
      (initState order letExprs c).
Proof.
  split; simpl; try done.
  - apply (initState_ctx_let letExprs c).
  - by right.
Qed.

Lemma Inv_reset (pending0 : Exprs) (c0 : Context cty) (st : EvalState cty) : Inv pending0 c0 st → Inv pending0 c0 (resetAmount st).
Proof. intros []. by split. Qed.

Lemma Inv_pending_sub (pending0 : Exprs) (c0 : Context cty) (st : EvalState cty) k e :
  Inv pending0 c0 st → pendingExprs st !! k = Some e →
  pending0 !! k = Some e ∧ lets st !! k = None.
Proof.
  intros HI Hk. rewrite (inv_pending _ _ _ HI) in Hk.
  by destruct (lets st !! k).
Qed.

Lemma Inv_step (pending0 : Exprs) (c0 : Context cty) (st st' : EvalState cty) name expr :
  Inv pending0 c0 st → pendingExprs st !! name = Some expr →
  evalPending st name expr = Return st' → Inv pending0 c0 st'.
Proof.
  intros HI Hp Hev. pose proof (evalPending_cases st name expr) as Hc.
  rewrite Hev in Hc. destruct Hc as [[errs ->]|(val & _ & _ & ->)].
  - destruct HI. by split.
  - destruct (Inv_pending_sub _ _ _ _ _ HI Hp) as [Hp0 Hl].
    destruct HI as [Hpend Horig Hlet Hothers Hbound]. split; simpl.
    + intros k. destruct (decide (k = name)) as [->|Hne].
      * by rewrite lookup_delete_eq, lookup_insert_eq.
      * rewrite lookup_delete_ne, lookup_insert_ne by done. apply Hpend.
    + intros k v. destruct (decide (k = name)) as [->|Hne].
      * rewrite lookup_insert_eq. intros [= <-]. by exists expr.
      * rewrite lookup_insert_ne by done. apply Horig.
    + unfold HasNamespace; simpl. apply bool_decide_eq_true_2.
      rewrite lookup_insert_eq. eauto.
    + intros X HX. rewrite lookup_insert_ne by done. by apply Hothers.
    + left. by rewrite lookup_insert_eq.
Qed.

Lemma Inv_ends (pending0 : Exprs) (c0 : Context cty) (st : EvalState cty) name expr :
  Inv pending0 c0 st → pendingExprs st !! name = Some expr →
  ends True (evalPending st name expr) (Inv pending0 c0).
Proof.
  intros HI Hp. destruct (evalPending st name expr) eqn:Hev; simpl; [|done|].
  - by eapply Inv_step.
  - pose proof (evalPending_cases st name expr) as Hc. by rewrite Hev in Hc.
Qed.

Lemma Inv_namespace (pending0 : Exprs) (c0 : Context cty) (st : EvalState cty) X :
  Inv pending0 c0 st → X ≠ "let" → HasNamespace (ctx st) X = HasNamespace c0 X.
Proof. intros HI HX. unfold HasNamespace. by rewrite (inv_others _ _ _ HI). Qed.

(** The main loop ends, and its invariant holds where it ends. *)
Lemma evalRun_Inv (letExprs : Exprs) c :
  let st0 := initState order letExprs c in
  ends True (evalRun order letExprs c)
       (λ r, Inv (pendingExprs st0) (ctx st0) r.2).
Proof using order_perm.
  intros st0. unfold evalRun. fold st0.
  pose proof (evalLoop_inv (Inv (pendingExprs st0) (ctx st0)) (λ _, True) True) as Hloop.
  specialize (Hloop (Inv_reset _ _) (Inv_ends _ _) (λ _ _ _ _ _ _, I)
                    (S (size (pendingExprs st0))) 2 st0).
  destruct (evalLoop order _ 2 st0) as [[n st]| |]; simpl in *; try done.
  - apply Hloop; [lia|apply Inv_init].
  - apply Hloop; [lia|apply Inv_init].
Qed.

Lemma reportErrors_names n (st : EvalState cty) k :
  k ∈ (reportErrors order n st).*1 ↔ is_Some (pendingExprs st !! k).
Proof using order_perm.
  unfold reportErrors. rewrite <- list_fmap_compose.
  rewrite list_elem_of_fmap. split.
  - intros ([k' e] & -> & Hin). apply order_elem in Hin. simpl. eauto.
  - intros [e He]. exists (k, e). split; [done|]. by apply order_elem.
Qed.

Lemma initState_sub (letExprs : Exprs) c k e :
  pendingExprs (initState order letExprs c) !! k = Some e → letExprs !! k = Some e.
Proof using order_perm.
  rewrite initState_pending. destruct (letExprs !! k) as [e'|]; [|done].
  by destruct (isUnset e').
Qed.

Lemma evalPending_returns (K : EvalState cty → Prop) st name expr :
  Forall attrAccess (Variables (Expression_ expr)) →
  (∀ st', evalPending st name expr = Return st' → K st') →
  ends False (evalPending st name expr) K.
Proof.
  intros Hwf HK. pose proof (evalPending_cases st name expr) as Hc.
  destruct (evalPending st name expr) as [st'|msg|] eqn:Hev; simpl; [by apply HK| |done].
  destruct Hc as [msg' Hscan].
  destruct (checkVars_attrAccess (ctx st) (pendingExprs st) _ L Hwf)
    as (more & _ & [Hs|Hs]); congruence.
Qed.

(** **** Entries that are unset *)

(** C6: an entry whose expression is the bare identifier [unset] (a
    traversal of one step with root name [unset]) is dropped before the
    evaluation starts; the lets that [Eval] has evaluated have no entry for
    it, no error is reported for it, and the [let] namespace [Eval] leaves in
    the context has no entry for it unless it had one before. *)
Theorem C6_unset_entry_dropped (letExprs : Exprs) (c : Context cty) k e t :
  letExprs !! k = Some e →
  AbsTraversalForExpr (Expression_ e) = Some t →
  steps t = [] → RootName t = "unset" →
  pendingExprs (initState order letExprs c) !! k = None ∧
  match Eval order letExprs c with
  | Return r =>
      resLets r !! k = None ∧ (k ∉ resFor r) ∧
      ((∀ ns, namespaces c !! "let" = Some ns → ns !! k = None) →
       ∀ ns, namespaces (resCtx r) !! "let" = Some ns → ns !! k = None)
  | Panic _ => True
  | OutOfFuel => False
  end.
Proof using order_perm.
  intros Hk Ht Hsteps Hroot.
  assert (pendingExprs (initState order letExprs c) !! k = None) as Hdrop.
  { rewrite initState_pending, Hk. unfold isUnset, traversalLen.
    rewrite Ht, Hsteps, Hroot. simpl. done. }
  split; [done|].
  unfold Eval. pose proof (evalRun_Inv letExprs c) as Hrun. simpl in Hrun.
  destruct (evalRun order letExprs c) as [[n st]| |]; simpl in *; [|done..].
  assert (lets st !! k = None) as Hlets.
  { destruct (lets st !! k) as [v|] eqn:Hv; [|done].
    destruct (inv_origin _ _ _ Hrun k v Hv) as (e' & He' & _). congruence. }
  split; [done|]. split.
  - rewrite reportErrors_names. intros [e' He'].
    apply (Inv_pending_sub _ _ _ _ _ Hrun) in He' as [He' _]. congruence.
  - intros Hc ns Hns. destruct (inv_bound _ _ _ Hrun) as [Hb|[_ Hb]].
    + rewrite Hb in Hns. injection Hns as <-. unfold Attributes.
      by rewrite lookup_fmap, Hlets.
    + rewrite Hb in Hns. revert Hns. destruct (HasNamespace c "let"); [by apply Hc|].
      simpl. rewrite lookup_insert_eq. intros [= <-]. apply lookup_empty.
Qed.

(** **** Runs that do not panic *)

Lemma evalLoop_S fuel n (st : EvalState cty) :
  evalLoop order (S fuel) n st =
  if bool_decide (pendingExprs st = ∅) then Return (n, st)
  else
    match evalPass (resetAmount st) (order n (pendingExprs st)) with
    | Return st' =>
        if bool_decide (amountEvaluated st' = 0) then Return (S n, st')
        else evalLoop order fuel (S n) st'
    | Panic msg => Panic msg
    | OutOfFuel => OutOfFuel
    end.
Proof. done. Qed.

(** With attribute accesses only, the main loop ends without a panic, and
    an invariant of the visits holds where it ends. *)
Lemma evalRun_returns (letExprs : Exprs) c (K Q : EvalState cty → Prop) :
  attrAccessOnly letExprs →
  let st0 := initState order letExprs c in
  let I0 := Inv (pendingExprs st0) (ctx st0) in
  K st0 →
  (∀ st, K st → K (resetAmount st)) →
  (∀ st st' name expr,
      I0 st → K st → pendingExprs st !! name = Some expr →
      evalPending st name expr = Return st' → K st') →
  (∀ n st st',
      I0 st → K st → pendingExprs st ≠ ∅ →
      evalPass (resetAmount st) (order n (pendingExprs st)) = Return st' →
      Q st') →
  ends False (evalRun order letExprs c)
       (λ r, I0 r.2 ∧ K r.2 ∧
             (pendingExprs r.2 = ∅ ∨ (amountEvaluated r.2 = 0 ∧ Q r.2))).
Proof using order_perm.
  intros Hwf st0 I0 HK0 HKreset HKstep HQ. unfold evalRun. fold st0.
  pose proof (evalLoop_inv (λ s, I0 s ∧ K s) Q False) as Hloop.
  assert (ends False (evalLoop order (S (size (pendingExprs st0))) 2 st0)
            (λ r, (I0 r.2 ∧ K r.2) ∧
                  (pendingExprs r.2 = ∅ ∨ (amountEvaluated r.2 = 0 ∧ Q r.2)))) as Hends.
  { apply Hloop.
    - intros s [HI HK]. split; [by apply Inv_reset|by apply HKreset].
    - intros s name expr [HI HK] Hp. apply evalPending_returns.
      + apply (Hwf name). apply (initState_sub _ c).
        by apply (Inv_pending_sub _ _ _ _ _ HI).
      + intros s' Hev. split; [by eapply Inv_step|by eapply HKstep].
    - intros n s s' [HI HK]. by apply HQ.
    - lia.
    - split; [apply Inv_init|done]. }
  destruct (evalLoop order _ 2 st0) as [[n st]| |]; simpl in *; [|done..].
  by destruct Hends as [[? ?] ?].
Qed.

(** *** The error Eval returns *)

Lemma pendingError_kind errsOf name (expr : Expr cty) :
  errKind (pendingError errsOf name expr) = Some ErrEval.
Proof. unfold pendingError. by destruct (AsError _). Qed.

Lemma reportErrors_kind n (st : EvalState cty) :
  Forall (λ err, errKind err = Some ErrEval) (reportErrors order n st).*2.
Proof.
  unfold reportErrors. rewrite <- list_fmap_compose. apply Forall_fmap.
  apply Forall_forall. intros [name expr] _. apply pendingError_kind.
Qed.

Lemma AsError_elem (l : list Error) err : err ∈ l → AsError l = Some l.
Proof. destruct l; [by intros ?%elem_of_nil|done]. Qed.

Lemma unknownOf_init (letExprs : Exprs) c st vars err :
  Inv (pendingExprs (initState order letExprs c)) (ctx (initState order letExprs c)) st →
  unknownOf (ctx st) vars err → unknownOf c vars err.
Proof.
  intros HI (t & Hin & Hns & ->). exists t. split; [done|]. split; [|done].
  assert (RootName t ≠ "let") as Hr
    by (intros Hr; by rewrite Hr, (inv_let _ _ _ HI) in Hns).
  rewrite (Inv_namespace _ _ _ _ HI Hr) in Hns. simpl in Hns.
  destruct (HasNamespace c "let"); [done|].
  unfold HasNamespace, SetNamespace in Hns. simpl in Hns.
  by rewrite lookup_insert_ne in Hns.
Qed.

Lemma HasNamespace_init (letExprs : Exprs) c st X :
  Inv (pendingExprs (initState order letExprs c)) (ctx (initState order letExprs c)) st →
  X ≠ "let" → HasNamespace (ctx st) X = HasNamespace c X.
Proof.
  intros HI HX. rewrite (Inv_namespace _ _ _ _ HI HX). simpl.
  destruct (HasNamespace c "let"); [done|].
  unfold HasNamespace, SetNamespace. simpl. by rewrite lookup_insert_ne.
Qed.

(** **** Cycles *)


(** **** Maps without a cycle *)

Lemma letOnly_deps (letExprs : Exprs) k e b :
  letOnly letExprs → letExprs !! k = Some e → b ∈ letDeps e →
  is_Some (letExprs !! b).
Proof.
  intros Hlo Hk Hb. apply list_elem_of_omap in Hb as (t & Ht & Href).
  specialize (Hlo k e Hk). rewrite Forall_forall in Hlo.
  destruct (Hlo t Ht) as (Hr & attrName & r & Hs & Hsome).
  rewrite (letRef_attr _ _ _ Hr Hs) in Href. by injection Href as <-.
Qed.

Lemma dependsOn_sn (letExprs : Exprs) x :
  acyclic letExprs → sn (dependsOn letExprs) x.
Proof.
  intros Hacyc. apply tc_finite_sn.
  - intros a Ha. exact (Hacyc a Ha).
  - exists (map_to_list letExprs ≫= λ kv, letDeps kv.2). intros y Hy.
    assert (∃ z e, letExprs !! z = Some e ∧ y ∈ letDeps e) as (z & e & Hz & Hin).
    { clear Hacyc. induction Hy as [x y (e & He & Hin)|x y z _ _ IH]; [|done].
      by exists x, e. }
    apply list_elem_of_bind. exists (z, e). split; [done|].
    by apply elem_of_map_to_list.
Qed.

(** Among pending lets without a cycle there is one that depends on no
    pending let. *)
Lemma pending_minimal (letExprs pending : Exprs) :
  acyclic letExprs →
  (∀ k e, pending !! k = Some e → letExprs !! k = Some e) →
  pending ≠ ∅ →
  ∃ m em, pending !! m = Some em ∧ ∀ b, b ∈ letDeps em → pending !! b = None.
Proof.
  intros Hacyc Hsub Hne. apply map_choose in Hne as (x & e & Hx).
  revert e Hx. induction (dependsOn_sn letExprs x Hacyc) as [x _ IH]. intros e Hx.
  destruct (decide (Exists (λ b, is_Some (pending !! b)) (letDeps e))) as [Hex|Hnone].
  - apply Exists_exists in Hex as (b & Hb & eb & Heb).
    refine (IH b _ eb Heb). exists e. split; [by apply Hsub|done].
  - exists x, e. split; [done|]. intros b Hb.
    apply eq_None_not_Some. intros Hsome. apply Hnone.
    apply Exists_exists. by exists b.
Qed.

Lemma evalPending_amount (st st' : EvalState cty) name expr :
  evalPending st name expr = Return st' →
  amountEvaluated st ≤ amountEvaluated st'.
Proof.
  intros Hev. pose proof (evalPending_cases st name expr) as Hc.
  rewrite Hev in Hc. destruct Hc as [[errs ->]|(val & _ & _ & ->)]; simpl; lia.
Qed.

End Facts.

(** *** The loader *)

Section LoadFacts.
Context {cty Body : Type}.

#[local] Abbreviation Exprs := (gmap string (Expr cty)).

Variable SortedList : gmap string (Attribute cty) → list (Attribute cty).
Variable NewMapExpr : MapBlock Body → result Error (Expression cty).
Variable order : nat → Exprs → list (string * Expr cty).

Lemma loadBlocks_collision attributes pre blk post varName (letExprs : Exprs) :
  Labels blk !! 0 = Some varName → is_Some (attributes !! varName) →
  ∀ exprs, loadBlocks NewMapExpr attributes (pre ++ blk :: post) letExprs
           ≠ Return (Ok exprs).
Proof.
  intros Hlabel Hattr. revert letExprs.
  induction pre as [|b pre IH]; intros letExprs exprs; simpl.
  - rewrite Hlabel. by rewrite bool_decide_eq_true_2.
  - destruct (Labels b !! 0) as [v|]; [|done].
    case_bool_decide; [done|].
    destruct (NewMapExpr b) as [mapExpr|err]; [|done].
    destruct (RawOrigins b !! 0) as [origin|]; [|done].
    apply IH.
Qed.

Lemma loadBlocks_redefined attributes pre blk post varName (letExprs : Exprs) :
  Labels blk !! 0 = Some varName → is_Some (attributes !! varName) →
  Forall (loadable NewMapExpr) pre →
  ∃ v, is_Some (attributes !! v) ∧
       loadBlocks NewMapExpr attributes (pre ++ blk :: post) letExprs
       = Return (Err (redefined v)).
Proof.
  intros Hlabel Hattr Hpre. revert letExprs.
  induction Hpre as [|b pre ([v Hv] & [mapExpr Hmap] & [origin Horigin]) Hpre IH];
    intros letExprs; simpl.
  - rewrite Hlabel. exists varName. by rewrite bool_decide_eq_true_2.
  - rewrite Hv. case_bool_decide; [by exists v|].
    rewrite Hmap, Horigin. apply IH.
Qed.

(** C8: when a map sub-block of the merged block has the name of an
    attribute of the block as its label, [loadExprs] produces no Exprs map;
    and when the loop over the sub-blocks gets to a colliding one, each
    block before having a label and an origin and a map expression made of
    it, [loadExprs] and [Load] return an error of kind [lets redefined]. *)
Theorem C8_label_collision_rejected (letblock : MergedBlock cty Body)
    (c : Context cty) pre blk post varName :
  Blocks letblock = pre ++ blk :: post →
  Labels blk !! 0 = Some varName →
  is_Some (MAttributes letblock !! varName) →
  (∀ exprs, loadExprs SortedList NewMapExpr letblock ≠ Return (Ok exprs)) ∧
  (Forall (loadable NewMapExpr) pre →
   ∃ v, is_Some (MAttributes letblock !! v) ∧
        errKind (redefined v) = Some ErrRedefined ∧
        loadExprs SortedList NewMapExpr letblock = Return (Err (redefined v)) ∧
        Load SortedList NewMapExpr order letblock c
        = Return (c, Some (ErrorOf (redefined v)))).
Proof.
  intros Hblocks Hlabel Hattr. unfold Load, loadExprs. rewrite Hblocks. split.
  - by apply loadBlocks_collision with varName.
  - intros Hpre.
    destruct (loadBlocks_redefined (MAttributes letblock) pre blk post varName
                (loadAttrs (SortedList (MAttributes letblock)) ∅)
                Hlabel Hattr Hpre) as (v & Hv & ->).
    by exists v.
Qed.

End LoadFacts.
End LetsFacts.

(** ** The stack manager *)

Module StackFacts.
Import Stack.

Section Facts.
Context {Tree : Type}.
Variable w : World.
Variable m : Manager Tree.

(** *** listChangedFiles *)

Lemma listChangedFiles_same_commit dir ref st h :
  Stat w dir = Ok st → FileIsDir st = true → WithConfig w dir = Ok () →
  RevParse w dir ref = Ok h → RevParse w dir "HEAD" = Ok h →
  listChangedFilesLog w dir ref
  = ([CallRevParse dir ref; CallRevParse dir "HEAD"], Ok []).
Proof.
  intros Hstat Hdir Hgit Hbase Hhead. unfold listChangedFilesLog.
  rewrite Hstat, Hdir, Hgit, Hbase, Hhead. simpl.
  by rewrite bool_decide_eq_true_2.
Qed.

Lemma listChangedFiles_sameCommit dir changedFiles :
  sameCommit w m → listChangedFiles w dir (gitBaseRef m) = Ok changedFiles →
  changedFiles = [].
Proof.
  intros Hsame. unfold listChangedFiles, listChangedFilesLog.
  destruct (Stat w dir) as [st|]; [|done].
  destruct (FileIsDir st); [|done]. simpl.
  destruct (WithConfig w dir); [|done].
  destruct (RevParse w dir (gitBaseRef m)) as [baseRef|] eqn:Hbase; [|done].
  destruct (RevParse w dir "HEAD") as [headRef|] eqn:Hhead; [|done].
  rewrite bool_decide_eq_true_2 by by eapply Hsame.
  simpl. by intros [= <-].
Qed.

(** *** Loops over files and modules *)

(** What holds of the captured variables before a loop over files holds
    after it, when each call of the closure keeps it. *)
Lemma filesLoop_inv {S : Type} (P : S → Prop)
    (apply : DirEntry → S → outcome (result Error unit * S)) files s r s' :
  (∀ file s r s', P s → apply file s = Return (r, s') → P s') →
  P s → filesLoop w apply files s = Return (r, s') → P s'.
Proof.
  intros Happly. revert s. induction files as [|file files IH]; intros s HP; simpl.
  - by intros [= _ <-].
  - destruct (EntryIsDir file); [by apply IH|].
    destruct (apply file s) as [[[[]|err] s1]| |] eqn:Hfile; try done.
    + apply IH. by eapply Happly.
    + intros [= _ <-]. by eapply Happly.
Qed.

Lemma filesApply_inv {S : Type} (P : S → Prop) dir
    (apply : DirEntry → S → outcome (result Error unit * S)) s r s' :
  (∀ file s r s', P s → apply file s = Return (r, s') → P s') →
  P s → filesApply w dir apply s = Return (r, s') → P s'.
Proof.
  intros Happly HP. unfold filesApply. destruct (ReadDir w dir) as [files|err].
  - by apply filesLoop_inv.
  - by intros [= _ <-].
Qed.

(** A loop over files returns when each call of the closure does. *)
Lemma filesLoop_returns {S : Type} (P : S → Prop)
    (apply : DirEntry → S → outcome (result Error unit * S)) files s :
  (∀ file s, P s → ∃ r s', apply file s = Return (r, s') ∧ P s') →
  P s → ∃ r s', filesLoop w apply files s = Return (r, s') ∧ P s'.
Proof.
  intros Happly. revert s. induction files as [|file files IH]; intros s HP; simpl.
  - by exists (Ok ()), s.
  - destruct (EntryIsDir file); [by apply IH|].
    destruct (Happly file s HP) as ([[]|err] & s1 & -> & HP1).
    + by apply IH.
    + by eexists _, s1.
Qed.

Lemma filesApply_returns {S : Type} (P : S → Prop) dir
    (apply : DirEntry → S → outcome (result Error unit * S)) s :
  (∀ file s, P s → ∃ r s', apply file s = Return (r, s') ∧ P s') →
  P s → ∃ r s', filesApply w dir apply s = Return (r, s') ∧ P s'.
Proof.
  intros Happly HP. unfold filesApply. destruct (ReadDir w dir) as [files|err].
  - by apply filesLoop_returns.
  - by eexists _, s.
Qed.

(** *** moduleChanged *)

Lemma moduleChanged_eq fuel mod_ basedir v :
  moduleChanged w m fuel mod_ basedir v =
  if bool_decide (Source mod_ ∈ visited v) then Return (Ok (false, EmptyString), v)
  else if negb (IsLocal mod_) then Return (Ok (false, EmptyString), v)
  else
    let modPath := filepath_Join w basedir (Source mod_) in
    if negb (match Stat w modPath with Ok st => FileIsDir st | Err _ => false end)
    then
      Return (Err (E None None
                (dq +:+ "source" +:+ dq +:+ " path " +:+ quote w modPath
                    +:+ " is not a directory") []), v)
    else
      match listChangedFiles w modPath (gitBaseRef m) with
      | Err err =>
          Return (Err (E None None
                    ("listing changes in the module " +:+ quote w (Source mod_))
                    [err]), v)
      | Ok changedFiles =>
          if bool_decide (0 < length changedFiles) then
            Return (Ok (true, "module " +:+ quote w (Source mod_)
                                +:+ " has unmerged changes"), v)
          else
            match fuel with
            | 0 => OutOfFuel
            | S fuel' =>
                match filesApply w modPath
                        (moduleFile w (moduleChanged w m fuel') mod_ modPath)
                        {| changed := false; why := EmptyString;
                           walk := visit (Source mod_) v |} with
                | Return (Err err, c) => Return (Err err, walk c)
                | Return (Ok _, c) =>
                    Return (Ok (changed c,
                                "module " +:+ quote w (Source mod_)
                                  +:+ " changed because " +:+ why c),
                            walk c)
                | Panic msg => Panic msg
                | OutOfFuel => OutOfFuel
                end
            end
      end.
Proof. by destruct fuel. Qed.

Lemma walkOk_new : walkOk newWalk.
Proof. split; [constructor|]. intros source. simpl. set_solver. Qed.

Lemma walkOk_visit source v :
  walkOk v → source ∉ visited v → walkOk (visit source v).
Proof.
  intros [Hnd Hiff] Hnew. split; simpl.
  - apply NoDup_app. split; [done|]. split; [|apply NoDup_singleton].
    intros x Hx ->%list_elem_of_singleton. by apply Hnew, Hiff.
  - intros x. rewrite elem_of_app, list_elem_of_singleton, elem_of_union,
      elem_of_singleton, Hiff. tauto.
Qed.

Section Walk.
(** The sources of the modules any file declares are among [U]. *)
Variable U : gset string.
Hypothesis parsed_in_U : ∀ path modules mod2,
  ParseModules w path = Ok modules → mod2 ∈ modules → Source mod2 ∈ U.

Lemma extends_refl v : walkOk v → extends v v.
Proof. by split; [|split]. Qed.

Lemma extends_trans v0 v1 v2 : extends v0 v1 → extends v1 v2 → extends v0 v2.
Proof.
  intros (? & ? & ?) (? & ? & ?). split; [set_solver|]. split; [done|].
  by etrans.
Qed.

Lemma modulesLoop_returns v0 recurse mod_ modPath modules c :
  returnsFrom U v0 recurse →
  Forall (λ mod2, Source mod2 ∈ U) modules →
  extends v0 (walk c) →
  ∃ r c', modulesLoop recurse mod_ modPath modules c = Return (r, c')
          ∧ extends v0 (walk c').
Proof.
  intros Hrec Hmods. revert c.
  induction Hmods as [|mod2 modules Hmod2 Hmods IH]; intros c Hc; simpl.
  - by exists (Ok ()), c.
  - destruct (Hrec mod2 modPath (walk c) Hmod2 Hc) as ([[chg reason]|err] & v' & -> & Hv').
    + destruct chg.
      * eexists _, _. split; [done|]. simpl. by eapply extends_trans.
      * apply IH. simpl. by eapply extends_trans.
    + eexists _, _. split; [done|]. simpl. by eapply extends_trans.
Qed.

Lemma moduleFile_returns v0 recurse mod_ modPath file c :
  returnsFrom U v0 recurse →
  extends v0 (walk c) →
  ∃ r c', moduleFile w recurse mod_ modPath file c = Return (r, c')
          ∧ extends v0 (walk c').
Proof using parsed_in_U.
  intros Hrec Hc. unfold moduleFile.
  destruct (changed c); [by exists (Ok ()), c|].
  case_bool_decide; [by exists (Ok ()), c|].
  destruct (ParseModules w _) as [modules|err] eqn:Hparse; [|by eexists _, c].
  apply modulesLoop_returns; [done| |done].
  apply Forall_forall. intros mod2 Hin. by eapply parsed_in_U.
Qed.

(** With fuel for the sources of [U] not yet visited, the walk returns. *)
Lemma moduleChanged_returns fuel :
  ∀ mod_ basedir v,
    Source mod_ ∈ U → size (U ∖ visited v) ≤ fuel → walkOk v →
    ∃ res v', moduleChanged w m fuel mod_ basedir v = Return (res, v')
              ∧ extends v v'.
Proof using parsed_in_U.
  induction fuel as [|fuel IH]; intros mod_ basedir v HU Hsize Hv;
    rewrite moduleChanged_eq; (case_bool_decide as Hvis;
      [by eexists _, v; split; [|apply extends_refl]|]).
  - exfalso. assert (Source mod_ ∈ U ∖ visited v) as Hin by set_solver.
    assert (size (U ∖ visited v) = 0) as Hzero by lia.
    apply size_empty_inv in Hzero. by apply Hzero in Hin.
  - destruct (negb (IsLocal mod_)); [by eexists _, v; split; [|apply extends_refl]|].
    cbv zeta.
    destruct (negb _); [by eexists _, v; split; [|apply extends_refl]|].
    destruct (listChangedFiles w _ _) as [changedFiles|err];
      [|by eexists _, v; split; [|apply extends_refl]].
    case_bool_decide; [by eexists _, v; split; [|apply extends_refl]|].
    set (v1 := visit (Source mod_) v).
    assert (extends v v1) as Hv1.
    { split; [simpl; set_solver|]. split; [by apply walkOk_visit|].
      simpl. by apply prefix_app_r. }
    destruct (filesApply_returns (λ c, extends v1 (walk c))
                (filepath_Join w basedir (Source mod_))
                (moduleFile w (moduleChanged w m fuel) mod_
                   (filepath_Join w basedir (Source mod_)))
                {| changed := false; why := EmptyString; walk := v1 |})
      as (r & c' & -> & Hc').
    + intros file c Hc. apply (moduleFile_returns v1); [|done].
      intros mod2 modPath v2 Hmod2 Hv2. apply IH; [done| |by destruct Hv2 as (_ & ? & _)].
      assert (U ∖ visited v2 ⊂ U ∖ visited v) as Hsub.
      { destruct Hv2 as (Hsub & _). simpl in Hsub. split.
        - intros x [HxU Hx]%elem_of_difference. apply elem_of_difference.
          split; [done|]. intros Hxv. apply Hx, Hsub, elem_of_union. by right.
        - intros Hsup.
          assert (Source mod_ ∈ U ∖ visited v2) as [_ Hin]%elem_of_difference
            by (apply Hsup, elem_of_difference; by split).
          apply Hin, Hsub, elem_of_union. left. by apply elem_of_singleton. }
      apply subset_size in Hsub. lia.
    + simpl. apply extends_refl. by destruct Hv1 as (_ & ? & _).
    + destruct r; eexists _, _; (split; [done|]); by eapply extends_trans.
Qed.

End Walk.

Lemma size_list_to_set_le (l : list string) :
  size (list_to_set l : gset string) ≤ length l.
Proof.
  induction l as [|x l IH].
  { rewrite list_to_set_nil, size_empty. done. }
  rewrite list_to_set_cons, size_union_alt, size_singleton. simpl.
  assert (size (list_to_set l ∖ {[x]} : gset string) ≤ size (list_to_set l : gset string))
    by (apply subseteq_size, subseteq_difference_l; done).
  lia.
Qed.

(** A top-level walk returns when the bound exceeds the number of sources
    the files declare. *)
Lemma moduleChanged_top (universe : list string) mod_ basedir fuel :
  (∀ path modules mod2,
      ParseModules w path = Ok modules → mod2 ∈ modules →
      Source mod2 ∈ universe) →
  length universe < fuel →
  ∃ res v', moduleChanged w m fuel mod_ basedir newWalk = Return (res, v')
            ∧ walkOk v'.
Proof.
  intros Hparsed Hfuel.
  set (U := ({[Source mod_]} ∪ list_to_set universe : gset string)).
  destruct (moduleChanged_returns U) with
    (fuel := fuel) (mod_ := mod_) (basedir := basedir) (v := newWalk)
    as (res & v' & Hres & _ & Hok & _).
  - intros path modules mod2 Hparse Hin.
    apply elem_of_union. right. apply elem_of_list_to_set. by eapply Hparsed.
  - apply elem_of_union. left. by apply elem_of_singleton.
  - assert (size (U ∖ visited newWalk) ≤ size U) as Hle.
    { apply subseteq_size. apply subseteq_difference_l. done. }
    assert (size U ≤ S (length universe)) as Hle'.
    { unfold U. rewrite size_union_alt, size_singleton.
      pose proof (size_list_to_set_le universe) as Hlen.
      assert (size (list_to_set universe ∖ {[Source mod_]} : gset string)
              ≤ size (list_to_set universe : gset string)) as Hdiff.
      { apply subseteq_size. apply subseteq_difference_l. done. }
      lia. }
    lia.
  - apply walkOk_new.
  - by exists res, v'.
Qed.

(** C4: a call of [moduleChanged] for a source already in [visited] returns
    [(false, "", nil)] at once; and on every module graph, cyclic or not,
    whose files declare modules with sources among the finitely many of
    [universe], a top-level call returns, having gone on to parse the files
    of each source at most once: the sources it entered are without
    repetition and are those it marked as visited. *)
Theorem C4_moduleChanged_terminates (universe : list string) mod_ basedir :
  (∀ path modules mod2,
      ParseModules w path = Ok modules → mod2 ∈ modules →
      Source mod2 ∈ universe) →
  (∀ fuel v,
      Source mod_ ∈ visited v →
      moduleChanged w m fuel mod_ basedir v = Return (Ok (false, EmptyString), v)) ∧
  (∀ fuel,
      length universe < fuel →
      ∃ res v',
        moduleChanged w m fuel mod_ basedir newWalk = Return (res, v') ∧
        NoDup (entered v') ∧
        ∀ source, source ∈ entered v' ↔ source ∈ visited v').
Proof.
  intros Hparsed. split.
  - intros fuel v Hvis. rewrite moduleChanged_eq. by rewrite bool_decide_eq_true_2.
  - intros fuel Hfuel.
    destruct (moduleChanged_top universe mod_ basedir fuel Hparsed Hfuel)
      as (res & v' & Hres & [Hnd Hiff]).
    by exists res, v'.
Qed.

(** *** The two loops of ListChanged *)

#[local] Abbreviation StackSet := (gmap string Entry).

Lemma forEach_inv {A S : Type} (P : S → Prop)
    (body : S → A → outcome (result Error S)) l s s' :
  (∀ s x s', P s → body s x = Return (Ok s') → P s') →
  P s → forEach body l s = Return (Ok s') → P s'.
Proof.
  intros Hbody. revert s. induction l as [|x l IH]; intros s HP; simpl.
  - by intros [= <-].
  - destruct (body s x) as [[s1|err]| |] eqn:Hx; try done.
    apply IH. by eapply Hbody.
Qed.

Lemma keyed_addEntry stackSet s reason :
  keyed stackSet → keyed (addEntry stackSet s reason).
Proof.
  intros Hk k e. unfold addEntry.
  destruct (decide (Path_String (Dir s) = k)) as [<-|Hne].
  - rewrite lookup_insert_eq. by intros [= <-].
  - rewrite lookup_insert_ne by done. apply Hk.
Qed.

Lemma changedFile_cases (stackSet stackSet' : StackSet) path :
  changedFile w m stackSet path = Return (Ok stackSet') →
  stackSet' = stackSet ∨ ∃ s reason, stackSet' = addEntry stackSet s reason.
Proof.
  unfold changedFile.
  destruct (StackPath w _) as [triggeredStack isTriggerFile].
  destruct (String.prefix "." path && negb isTriggerFile); [left; congruence|].
  destruct isTriggerFile.
  - destruct (match Stat w _ with Ok _ => false | Err err => IsNotExist w err end);
      [left; congruence|].
    destruct (Lookup (root m) triggeredStack) as [cfg|]; [|left; congruence].
    destruct (negb (IsStack (root m) cfg)); [left; congruence|].
    destruct (NewStackFromHCL (root m) _ cfg) as [s|err]; [|done].
    intros [= <-]. right. eauto.
  - cbv zeta. case_bool_decide; [left; congruence|].
    destruct (if isStackTree m _ then _ else _) as [[cfg|]| |]; try done;
      [|left; congruence].
    destruct (negb (IsStack (root m) cfg)); [left; congruence|].
    destruct (NewStackFromHCL (root m) _ cfg) as [s|err]; [|done].
    intros [= <-]. right. eauto.
Qed.

Lemma changedFilesPass_keyed changedFiles (stackSet : StackSet) :
  changedFilesPass w m changedFiles = Return (Ok stackSet) → keyed stackSet.
Proof.
  unfold changedFilesPass. apply forEach_inv; [|done].
  intros s path s' Hs Hpath. apply changedFile_cases in Hpath as [->|(st & reason & ->)];
    [done|by apply keyed_addEntry].
Qed.

Lemma stepOf_addEntry stackSet stack s reason :
  stepOf stackSet stack s →
  stepOf stackSet stack (addEntry s (setChanged stack) reason).
Proof.
  intros [->|[reason' ->]]; right; exists reason; [done|].
  unfold addEntry. by rewrite insert_insert_eq.
Qed.

Lemma stackModules_stepOf fuel stack modules (stackSet s s' : StackSet) r :
  stepOf stackSet stack s →
  stackModules w m fuel stack modules s = Return (r, s') →
  stepOf stackSet stack s'.
Proof.
  intros Hs. induction modules as [|mod_ modules IH]; simpl.
  - by intros [= _ <-].
  - destruct (moduleChanged w m fuel mod_ _ newWalk) as [[[[chg reason]|err] v]| |];
      try done.
    + destruct chg; [|done]. intros [= _ <-]. by apply stepOf_addEntry.
    + by intros [= _ <-].
Qed.

Lemma stackFile_stepOf fuel stack file (stackSet s s' : StackSet) r :
  stepOf stackSet stack s →
  stackFile w m fuel stack file s = Return (r, s') →
  stepOf stackSet stack s'.
Proof.
  intros Hs. unfold stackFile. case_bool_decide; [by intros [= _ <-]|].
  destruct (ParseModules w _) as [modules|err]; [|by intros [= _ <-]].
  by apply stackModules_stepOf.
Qed.

(** A visit of the loop labelled [rangeStacks] leaves the set as it is, or
    adds the stack, which the set did not have. *)
Lemma checkStack_cases fuel changedFiles (stackSet stackSet' : StackSet) stackEntry :
  checkStack w m fuel changedFiles stackSet stackEntry = Return (Ok stackSet') →
  stackSet' = stackSet ∨
  (stackSet !! entryDir stackEntry = None ∧
   ∃ reason, stackSet' = addEntry stackSet (setChanged (EntryStack stackEntry)) reason).
Proof.
  unfold checkStack. cbv zeta. case_bool_decide as Hin; [left; congruence|].
  assert (stackSet !! entryDir stackEntry = None) as Hnone
    by (by apply eq_None_not_Some).
  destruct (hasChangedWatchedFiles _ _) as [changedWatch|].
  - intros [= <-]. right. split; [done|]. eauto.
  - destruct (filesApply w _ _ stackSet) as [[[[]|err] s]| |] eqn:Hfiles; try done.
    intros [= <-].
    apply (filesApply_inv (stepOf stackSet (EntryStack stackEntry))) in Hfiles.
    + destruct Hfiles as [->|[reason ->]]; [by left|right; eauto].
    + intros file s0 r0 s0' Hs0. by apply stackFile_stepOf.
    + by left.
Qed.

Lemma checkStack_keyed fuel changedFiles (stackSet stackSet' : StackSet) stackEntry :
  keyed stackSet →
  checkStack w m fuel changedFiles stackSet stackEntry = Return (Ok stackSet') →
  keyed stackSet'.
Proof.
  intros Hk [->|(_ & reason & ->)]%checkStack_cases; [done|by apply keyed_addEntry].
Qed.

(** The loop labelled [rangeStacks] replaces no entry. *)
Lemma checkStack_keeps fuel changedFiles (stackSet stackSet' : StackSet) stackEntry :
  checkStack w m fuel changedFiles stackSet stackEntry = Return (Ok stackSet') →
  stackSet ⊆ stackSet'.
Proof.
  intros [->|(Hnone & reason & ->)]%checkStack_cases; [done|].
  by apply insert_subseteq.
Qed.

(** The steps of a run of [ListChanged] that returns a report. *)
Lemma ListChanged_inv fuel r :
  ListChanged w m fuel = Return (Ok r) →
  ∃ changedFiles stackSet allstacks stackSet',
    listChangedFiles w (HostDir (root m)) (gitBaseRef m) = Ok changedFiles ∧
    changedFilesPass w m changedFiles = Return (Ok stackSet) ∧
    ListStacks (root m) = Ok allstacks ∧
    forEach (checkStack w m fuel changedFiles) allstacks stackSet
    = Return (Ok stackSet') ∧
    Stacks r = sort_Sort (map_to_list stackSet').*2.
Proof.
  unfold ListChanged.
  destruct (WithConfig w _); [|done].
  destruct (negb (IsRepository w _)); [done|].
  destruct (checkRepoIsClean w _) as [checks|]; [|done].
  destruct (listChangedFiles w _ _) as [changedFiles|] eqn:Hfiles; [|done].
  destruct (changedFilesPass w m changedFiles) as [[stackSet|]| |] eqn:Hpass; try done.
  destruct (ListStacks (root m)) as [allstacks|] eqn:Hall; [|done].
  destruct (forEach _ allstacks stackSet) as [[stackSet'|]| |] eqn:Hloop; try done.
  intros [= <-]. by exists changedFiles, stackSet, allstacks, stackSet'.
Qed.

(** *** The order of the report *)

Lemma compare_as_OT (a b : string) : String.compare a b = String_as_OT.compare a b.
Proof.
  revert b. induction a as [|x a IH]; intros [|y b]; simpl; try done.
Qed.

Lemma strLt_compare a b : strLt a b ↔ String.compare a b = Lt.
Proof. unfold strLt, String.ltb. destruct (String.compare a b); naive_solver. Qed.

Lemma strLt_trans a b c : strLt a b → strLt b c → strLt a c.
Proof.
  rewrite !strLt_compare, !compare_as_OT. intros Hab Hbc.
  exact (StrictOrder_Transitive (R := String_as_OT.lt) a b c Hab Hbc).
Qed.

Lemma strLt_trichotomy a b : strLt a b ∨ a = b ∨ strLt b a.
Proof.
  rewrite !strLt_compare, (String.compare_antisym b a).
  destruct (String.compare a b) eqn:Hc; simpl; auto.
  right. left. by apply String.compare_eq_iff.
Qed.

Lemma strLt_asym a b : strLt a b → ¬ strLt b a.
Proof.
  rewrite !strLt_compare, (String.compare_antisym b a). intros ->. done.
Qed.

Lemma inOrder_spec x y : inOrder x y ↔ ¬ strLt (entryDir y) (entryDir x).
Proof.
  unfold inOrder, EntrySlice_Less, strLt, entryDir.
  destruct (String.ltb _ _); naive_solver.
Qed.

#[local] Instance inOrder_total : Total inOrder.
Proof.
  intros x y. rewrite !inOrder_spec.
  destruct (strLt_trichotomy (entryDir x) (entryDir y)) as [H|[H|H]].
  - left. by apply strLt_asym.
  - left. rewrite H. intros H'. exact (strLt_asym _ _ H' H').
  - right. by apply strLt_asym.
Qed.

#[local] Instance inOrder_trans : Transitive inOrder.
Proof.
  intros x y z. rewrite !inOrder_spec. intros Hxy Hyz Hzx.
  destruct (strLt_trichotomy (entryDir x) (entryDir y)) as [H|[H|H]].
  - apply Hyz. by eapply strLt_trans.
  - apply Hyz. by rewrite <- H.
  - done.
Qed.

Lemma sort_Sort_perm l : sort_Sort l ≡ₚ l.
Proof. apply merge_sort_Permutation. Qed.

Lemma sort_Sort_sorted l : StronglySorted inOrder (sort_Sort l).
Proof. apply StronglySorted_merge_sort; apply _. Qed.

(** Entries in order with different directories are strictly ascending. *)
Lemma inOrder_strict l :
  StronglySorted inOrder l → NoDup (entryDir <$> l) →
  StronglySorted strLt (entryDir <$> l).
Proof.
  induction 1 as [|x l Hs IH Hx]; intros Hnd; simpl; [constructor|].
  apply NoDup_cons in Hnd as [Hx' Hnd]. constructor; [by apply IH|].
  apply Forall_fmap. rewrite Forall_forall in Hx |- *. intros y Hy. simpl.
  specialize (Hx y Hy). rewrite inOrder_spec in Hx.
  destruct (strLt_trichotomy (entryDir x) (entryDir y)) as [H|[H|H]]; [done| |done].
  exfalso. apply Hx'. rewrite H. apply list_elem_of_fmap. by exists y.
Qed.

Lemma keyed_NoDup (stackSet : StackSet) :
  keyed stackSet → NoDup (entryDir <$> (map_to_list stackSet).*2).
Proof.
  intros Hk.
  assert (entryDir <$> (map_to_list stackSet).*2 = (map_to_list stackSet).*1) as ->.
  { rewrite <- list_fmap_compose. apply list_fmap_ext.
    intros i [k e] Hi. simpl. symmetry. apply Hk.
    apply elem_of_map_to_list. apply list_elem_of_lookup. eauto. }
  apply NoDup_fst_map_to_list.
Qed.

Lemma ListChanged_keyed fuel r :
  ListChanged w m fuel = Return (Ok r) →
  ∃ stackSet' : StackSet, keyed stackSet' ∧
    Stacks r = sort_Sort (map_to_list stackSet').*2.
Proof.
  intros (changedFiles & stackSet & allstacks & stackSet' & _ & Hpass & _ & Hloop & Hr)
    %ListChanged_inv.
  exists stackSet'. split; [|done].
  eapply (forEach_inv keyed); [|by eapply changedFilesPass_keyed|exact Hloop].
  intros s x s' Hs. by apply checkStack_keyed.
Qed.

Lemma ListChanged_NoDup fuel r :
  ListChanged w m fuel = Return (Ok r) → NoDup (entryDir <$> Stacks r).
Proof.
  intros (stackSet' & Hk & ->)%ListChanged_keyed.
  rewrite sort_Sort_perm. by apply keyed_NoDup.
Qed.

(** C5: in the report of a run of [ListChanged] that returns one, the
    directories of the stacks are strictly ascending in the order of Go
    strings: each is less than all that follow it, so none occurs twice. *)
Theorem C5_report_strictly_ascending fuel r :
  ListChanged w m fuel = Return (Ok r) →
  StronglySorted strLt (entryDir <$> Stacks r).
Proof.
  intros Hrun. apply inOrder_strict; [|by eapply ListChanged_NoDup].
  apply ListChanged_keyed in Hrun as (stackSet' & _ & ->).
  apply sort_Sort_sorted.
Qed.

Lemma Path_Dir_prefix (p : Path) : Path_Dir p `prefix_of` p.
Proof.
  unfold Path_Dir. destruct (decide (p = [])) as [->|Hne]; [done|].
  destruct (exists_last Hne) as (p' & x & ->).
  rewrite removelast_last. by apply prefix_app_r.
Qed.

(** The tree the walk to the parents returns is the one it was given or
    the one of a directory above. *)
Lemma lookupParent_found fuel (checkdir : Path) stackTree cfg :
  lookupParent m fuel checkdir stackTree = Return (Some cfg) →
  stackTree = Some cfg
  ∨ ∃ dir, dir `prefix_of` checkdir ∧ Lookup (root m) dir = Some cfg.
Proof.
  revert checkdir stackTree.
  induction fuel as [|fuel IH]; intros checkdir stackTree; simpl.
  - case_bool_decide; [|done]. intros [= ->]. by left.
  - case_bool_decide; [intros [= ->]; by left|].
    destruct (isStackTree m (Lookup (root m) (Path_Dir checkdir))) eqn:Hstack.
    + intros [= Hfound]. right. exists (Path_Dir checkdir).
      split; [apply Path_Dir_prefix|done].
    + intros [Hfound|(dir & Hpre & Hdir)]%IH; right.
      * exists (Path_Dir checkdir). split; [apply Path_Dir_prefix|done].
      * exists dir. split; [|done]. etrans; [done|apply Path_Dir_prefix].
Qed.

(** The loop over the modules of a [.tf] file gets past the modules that
    have not changed. *)
Lemma stackModules_app fuel stack pre rest (stackSet : StackSet) :
  (∀ mod_, mod_ ∈ pre →
     ∃ reason v, moduleChanged w m fuel mod_ (StackHostDir stack) newWalk
                 = Return (Ok (false, reason), v)) →
  stackModules w m fuel stack (pre ++ rest) stackSet
  = stackModules w m fuel stack rest stackSet.
Proof.
  induction pre as [|mod_ pre IH]; intros Hpre; [done|].
  cbn [app stackModules].
  destruct (Hpre mod_) as (reason & v & ->); [by apply elem_of_cons; left|].
  apply IH. intros mod' Hmod'. apply Hpre. by apply elem_of_cons; right.
Qed.

(** C1: in the report of a run of [ListChanged] no directory occurs twice,
    and an entry that the loop over the changed files has left in the set is
    in the report as it is.  The first reason wins where the code asks
    whether the set has the entry: a changed file whose own directory has an
    entry changes nothing; the visit of a stack that has an entry in the
    loop over the stacks (watched files, module changes) changes nothing,
    the visit of another stack leaves every entry that the set had as it
    was, and a stack that watches a changed file gets the reason of the
    watched file whatever its modules are.  It does not win elsewhere: a changed trigger file of a stack
    writes the entry of the stack, whatever the set holds for it; a changed
    file in a directory without an entry changes the set only by writing
    the entry of a stack at or above that directory, whatever the set holds
    for that stack, and it does write it when the directory is no stack and
    the one above it is; and in the visit of a stack each [.tf] file that
    declares a changed module writes the entry of the stack, whatever the
    set holds for it, so that the last such file gives the reason. *)
Theorem C1_entries_kept fuel r :
  ListChanged w m fuel = Return (Ok r) →
  NoDup (entryDir <$> Stacks r) ∧
  (∀ changedFiles (stackSet : StackSet) k e,
      listChangedFiles w (HostDir (root m)) (gitBaseRef m) = Ok changedFiles →
      changedFilesPass w m changedFiles = Return (Ok stackSet) →
      stackSet !! k = Some e → e ∈ Stacks r) ∧
  (∀ (stackSet : StackSet) path,
      (StackPath w (projPath w m path)).2 = false →
      is_Some (stackSet !! Path_String (cfgPath w m path)) →
      changedFile w m stackSet path = Return (Ok stackSet)) ∧
  (∀ changedFiles (stackSet : StackSet) stackEntry,
      is_Some (stackSet !! Path_String (Dir (EntryStack stackEntry))) →
      checkStack w m fuel changedFiles stackSet stackEntry = Return (Ok stackSet)) ∧
  (∀ changedFiles (stackSet stackSet' : StackSet) stackEntry,
      checkStack w m fuel changedFiles stackSet stackEntry = Return (Ok stackSet') →
      stackSet ⊆ stackSet' ∧
      ∀ k, k ≠ Path_String (Dir (EntryStack stackEntry)) →
           stackSet' !! k = stackSet !! k) ∧
  (∀ changedFiles (stackSet : StackSet) stackEntry watchFile,
      stackSet !! Path_String (Dir (EntryStack stackEntry)) = None →
      hasChangedWatchedFiles (EntryStack stackEntry) changedFiles = Some watchFile →
      checkStack w m fuel changedFiles stackSet stackEntry
      = Return (Ok (<[Path_String (Dir (EntryStack stackEntry)) :=
                       {| EntryStack :=
                            {| Dir := Dir (EntryStack stackEntry);
                               StackHostDir := StackHostDir (EntryStack stackEntry);
                               Watch := Watch (EntryStack stackEntry);
                               Wants := Wants (EntryStack stackEntry);
                               WantedBy := WantedBy (EntryStack stackEntry);
                               IsChanged := true |};
                          Reason := "stack changed because watched file "
                                      +:+ quote w (Path_String watchFile)
                                      +:+ " changed" |}]>
                      stackSet))) ∧
  (∀ (stackSet : StackSet) path triggeredStack cfg s,
      StackPath w (projPath w m path) = (triggeredStack, true) →
      match Stat w (filepath_Join w (HostDir (root m)) path) with
      | Err err => IsNotExist w err = false
      | Ok _ => True
      end →
      Lookup (root m) triggeredStack = Some cfg → IsStack (root m) cfg = true →
      NewStackFromHCL (root m) (HostDir (root m)) cfg = Ok s →
      changedFile w m stackSet path
      = Return (Ok (<[Path_String (Dir s) :=
                       {| EntryStack := s;
                          Reason := "stack has been triggered by: "
                                      +:+ Path_String (projPath w m path) |}]>
                      stackSet))) ∧
  (∀ (stackSet stackSet' : StackSet) path,
      (StackPath w (projPath w m path)).2 = false →
      changedFile w m stackSet path = Return (Ok stackSet') →
      stackSet' = stackSet ∨
      ∃ dir s,
        String.prefix "." path = false ∧
        stackSet !! Path_String (cfgPath w m path) = None ∧
        dir `prefix_of` cfgPath w m path ∧ stackOf m dir s ∧
        stackSet' = <[Path_String (Dir s) :=
                       {| EntryStack := s; Reason := "stack has unmerged changes" |}]>
                      stackSet) ∧
  (∀ (stackSet : StackSet) path cfg s,
      (StackPath w (projPath w m path)).2 = false →
      String.prefix "." path = false →
      stackSet !! Path_String (cfgPath w m path) = None →
      isStackTree m (Lookup (root m) (cfgPath w m path)) = false →
      Path_String (cfgPath w m path) ≠ "/" →
      Lookup (root m) (Path_Dir (cfgPath w m path)) = Some cfg →
      IsStack (root m) cfg = true →
      NewStackFromHCL (root m) (HostDir (root m)) cfg = Ok s →
      changedFile w m stackSet path
      = Return (Ok (<[Path_String (Dir s) :=
                       {| EntryStack := s; Reason := "stack has unmerged changes" |}]>
                      stackSet))) ∧
  (∀ (stackSet : StackSet) stack file pre mod_ post reason v,
      path_Ext w (Name file) = ".tf" →
      ParseModules w (filepath_Join w (StackHostDir stack) (Name file))
      = Ok (pre ++ mod_ :: post) →
      (∀ mod', mod' ∈ pre →
         ∃ reason' v', moduleChanged w m fuel mod' (StackHostDir stack) newWalk
                       = Return (Ok (false, reason'), v')) →
      moduleChanged w m fuel mod_ (StackHostDir stack) newWalk
      = Return (Ok (true, reason), v) →
      stackFile w m fuel stack file stackSet
      = Return (Ok (),
                <[Path_String (Dir stack) :=
                   {| EntryStack :=
                        {| Dir := Dir stack; StackHostDir := StackHostDir stack;
                           Watch := Watch stack; Wants := Wants stack;
                           WantedBy := WantedBy stack; IsChanged := true |};
                      Reason := "stack changed because " +:+ quote w (Source mod_)
                                  +:+ " changed because " +:+ reason |}]>
                  stackSet)).
Proof.
  intros Hrun. split; [by eapply ListChanged_NoDup|].
  split; [|split; [|split; [|split; [|split; [|split; [|split; [|split]]]]]]].
  - intros changedFiles stackSet k e Hfiles Hpass Hk.
    apply ListChanged_inv in Hrun
      as (changedFiles' & stackSet0 & allstacks & stackSet' & Hfiles' & Hpass' & _
          & Hloop & ->).
    assert (changedFiles' = changedFiles) as -> by congruence.
    assert (stackSet0 = stackSet) as -> by congruence.
    rewrite sort_Sort_perm. apply list_elem_of_fmap. exists (k, e). split; [done|].
    apply elem_of_map_to_list.
    assert (stackSet ⊆ stackSet') as Hsub.
    { eapply (forEach_inv (λ s, stackSet ⊆ s)); [|done|exact Hloop].
      intros s x s' Hs Hx. etrans; [done|]. by eapply checkStack_keeps. }
    by eapply lookup_weaken.
  - intros stackSet path Htrigger Hown. unfold changedFile.
    unfold projPath in Htrigger.
    destruct (StackPath w _) as [triggeredStack isTriggerFile]. simpl in Htrigger.
    subst isTriggerFile. destruct (String.prefix "." path); [done|]. simpl.
    unfold cfgPath in Hown. by rewrite bool_decide_eq_true_2.
  - intros changedFiles stackSet stackEntry Hown. unfold checkStack.
    by rewrite bool_decide_eq_true_2.
  - intros changedFiles stackSet stackSet' stackEntry Hvisit.
    split; [by eapply checkStack_keeps|]. intros k Hk.
    apply checkStack_cases in Hvisit as [->|[_ [reason ->]]]; [done|].
    unfold addEntry. by rewrite lookup_insert_ne.
  - intros changedFiles stackSet stackEntry watchFile Hnone Hwatch. unfold checkStack.
    rewrite bool_decide_eq_false_2 by (rewrite Hnone; by intros [? ?]).
    by rewrite Hwatch.
  - intros stackSet path triggeredStack cfg s Hpath Hstat Hlookup Hstack Hnew.
    unfold changedFile. unfold projPath in *. rewrite Hpath, Hlookup, Hstack, Hnew.
    rewrite andb_false_r. simpl.
    destruct (Stat w _) as [st|err]; [done|]. by rewrite Hstat.
  - intros stackSet stackSet' path Htrigger. unfold changedFile.
    unfold projPath in Htrigger.
    destruct (StackPath w _) as [triggeredStack isTriggerFile]. simpl in Htrigger.
    subst isTriggerFile. destruct (String.prefix "." path) eqn:Hdot;
      [left; simpl in *; congruence|].
    cbv zeta. simpl. case_bool_decide as Hown; [left; congruence|].
    destruct (if isStackTree m _ then _ else _) as [[cfg|]| |] eqn:Hfound; try done;
      [|left; congruence].
    destruct (IsStack (root m) cfg) eqn:Hstack; [|left; simpl in *; congruence].
    simpl.
    destruct (NewStackFromHCL (root m) _ cfg) as [s|err] eqn:Hnew; [|done].
    intros [= <-]. right.
    assert (∃ dir, dir `prefix_of` cfgPath w m path ∧ Lookup (root m) dir = Some cfg)
      as (dir & Hpre & Hdir).
    { destruct (isStackTree m _) eqn:Histree.
      - injection Hfound as Hfound. by exists (cfgPath w m path).
      - apply lookupParent_found in Hfound as [Hfound|Hfound]; [|done].
        by exists (cfgPath w m path). }
    exists dir, s. split; [done|]. split.
    { apply eq_None_not_Some. exact Hown. }
    split; [done|]. split; [by exists cfg|done].
  - intros stackSet path cfg s Htrigger Hdot Hown Hnostack Hroot Hparent Hstack Hnew.
    unfold changedFile. unfold projPath in Htrigger.
    destruct (StackPath w _) as [triggeredStack isTriggerFile]. simpl in Htrigger.
    subst isTriggerFile. rewrite Hdot. cbv zeta. simpl. unfold cfgPath in *.
    rewrite bool_decide_eq_false_2 by (rewrite Hown; by intros [? ?]).
    rewrite Hnostack.
    destruct (PrjAbsPath w (HostDir (root m)) _) as [|x p] eqn:Hp; [done|].
    cbn [length lookupParent]. rewrite (bool_decide_eq_false_2 _ Hroot).
    unfold isStackTree at 1. rewrite Hparent, Hstack. cbn [negb].
    by rewrite Hstack, Hnew.
  - intros stackSet stack file pre mod_ post reason v Hext Hparse Hpre Hchanged.
    unfold stackFile. rewrite bool_decide_eq_false_2 by (by intros []).
    rewrite Hparse, (stackModules_app fuel stack pre (mod_ :: post) stackSet Hpre).
    cbn [stackModules]. by rewrite Hchanged.
Qed.

(** *** Base reference and HEAD at the same commit *)

Lemma modulesLoop_unchanged recurse mod_ modPath modules c r c' :
  (∀ mod2 p v chg reason v',
      recurse mod2 p v = Return (Ok (chg, reason), v') → chg = false) →
  changed c = false →
  modulesLoop recurse mod_ modPath modules c = Return (r, c') →
  changed c' = false.
Proof.
  intros Hrec. revert c. induction modules as [|mod2 modules IH]; intros c Hc; simpl.
  - by intros [= _ <-].
  - destruct (recurse mod2 modPath (walk c)) as [[[[chg reason]|err] v]| |] eqn:Hm;
      try done.
    + rewrite (Hrec _ _ _ _ _ _ Hm). by apply IH.
    + by intros [= _ <-].
Qed.

Lemma moduleChanged_sameCommit fuel :
  sameCommit w m →
  ∀ mod_ basedir v chg reason v',
    moduleChanged w m fuel mod_ basedir v = Return (Ok (chg, reason), v') →
    chg = false.
Proof.
  intros Hsame. induction fuel as [|fuel IH]; intros mod_ basedir v chg reason v';
    rewrite moduleChanged_eq; cbv zeta.
  - case_bool_decide; [congruence|].
    destruct (negb (IsLocal mod_)); [congruence|].
    destruct (negb _); [done|].
    destruct (listChangedFiles w _ _) as [changedFiles|] eqn:Hfiles; [|done].
    apply (listChangedFiles_sameCommit _ _ Hsame) in Hfiles as ->. done.
  - case_bool_decide; [congruence|].
    destruct (negb (IsLocal mod_)); [congruence|].
    destruct (negb _); [done|].
    destruct (listChangedFiles w _ _) as [changedFiles|] eqn:Hfiles; [|done].
    apply (listChangedFiles_sameCommit _ _ Hsame) in Hfiles as ->. simpl.
    destruct (filesApply w _ _ _) as [[[[]|err] c]| |] eqn:Happly; try done.
    intros [= <- _ _].
    apply (filesApply_inv (λ c, changed c = false)) in Happly; [done| |done].
    intros file c0 r0 c0' Hc0. unfold moduleFile. rewrite Hc0.
    case_bool_decide; [by intros [= _ <-]|].
    destruct (ParseModules w _) as [modules|err]; [|by intros [= _ <-]].
    by apply modulesLoop_unchanged.
Qed.

Lemma hasChangedWatched_nil watch : hasChangedWatched watch [] = None.
Proof.
  induction watch as [|watchFile watch IH]; simpl; done.
Qed.

Lemma stackModules_sameCommit fuel stack modules (s s' : StackSet) r :
  sameCommit w m →
  stackModules w m fuel stack modules s = Return (r, s') → s' = s.
Proof.
  intros Hsame. induction modules as [|mod_ modules IH]; simpl.
  - by intros [= _ <-].
  - destruct (moduleChanged w m fuel mod_ _ newWalk) as [[[[chg reason]|err] v]| |]
      eqn:Hm; try done.
    + rewrite (moduleChanged_sameCommit fuel Hsame _ _ _ _ _ _ Hm). done.
    + by intros [= _ <-].
Qed.

Lemma checkStack_sameCommit fuel (stackSet stackSet' : StackSet) stackEntry :
  sameCommit w m →
  checkStack w m fuel [] stackSet stackEntry = Return (Ok stackSet') →
  stackSet' = stackSet.
Proof.
  intros Hsame. unfold checkStack, hasChangedWatchedFiles. cbv zeta.
  case_bool_decide; [congruence|]. rewrite hasChangedWatched_nil.
  destruct (filesApply w _ _ stackSet) as [[[[]|err] s]| |] eqn:Hfiles; try done.
  intros [= <-].
  apply (filesApply_inv (λ s, s = stackSet)) in Hfiles; [done| |done].
  intros file s0 r0 s0' ->. unfold stackFile.
  case_bool_decide; [by intros [= _ <-]|].
  destruct (ParseModules w _) as [modules|err]; [|by intros [= _ <-]].
  by apply stackModules_sameCommit.
Qed.

(** C10: when the base reference and [HEAD] parse to the same commit,
    [listChangedFiles] returns the empty list having run the two rev-parse
    commands and no diff; and with the two at the same commit in every
    directory, the report of [ListChanged] has no stack. *)
Theorem C10_same_commit_nothing_changed :
  (∀ dir ref st h,
      Stat w dir = Ok st → FileIsDir st = true → WithConfig w dir = Ok () →
      RevParse w dir ref = Ok h → RevParse w dir "HEAD" = Ok h →
      listChangedFilesLog w dir ref
      = ([CallRevParse dir ref; CallRevParse dir "HEAD"], Ok [])) ∧
  (sameCommit w m → ∀ fuel r, ListChanged w m fuel = Return (Ok r) → Stacks r = []).
Proof.
  split; [apply listChangedFiles_same_commit|].
  intros Hsame fuel r
    (changedFiles & stackSet & allstacks & stackSet' & Hfiles & Hpass & _ & Hloop & ->)
    %ListChanged_inv.
  apply (listChangedFiles_sameCommit _ _ Hsame) in Hfiles as ->.
  unfold changedFilesPass in Hpass. simpl in Hpass. injection Hpass as <-.
  assert (stackSet' = ∅) as ->.
  { eapply (forEach_inv (λ s : StackSet, s = ∅)); [|done|exact Hloop].
    intros s x s' -> Hx. by eapply checkStack_sameCommit. }
  by rewrite map_to_list_empty.
Qed.

(** *** ListChanged returns *)

Lemma Path_Dir_length (p : Path) : length (Path_Dir p) = length p - 1.
Proof.
  unfold Path_Dir. destruct (decide (p = [])) as [->|Hne]; [done|].
  destruct (exists_last Hne) as (p' & x & ->).
  rewrite removelast_last, length_app. simpl. lia.
Qed.

(** The walk to the parents of a directory ends before the bound of the
    length of its path is used up. *)
Lemma lookupParent_returns fuel (checkdir : Path) stackTree :
  length checkdir ≤ fuel →
  ∃ found, lookupParent m fuel checkdir stackTree = Return found.
Proof.
  revert checkdir stackTree.
  induction fuel as [|fuel IH]; intros checkdir stackTree Hlen; simpl.
  - destruct checkdir; [|simpl in Hlen; lia]. by eexists.
  - case_bool_decide; [by eexists|].
    destruct (isStackTree m (Lookup (root m) (Path_Dir checkdir))); [by eexists|].
    apply IH. rewrite Path_Dir_length. lia.
Qed.

Lemma changedFile_returns (stackSet : StackSet) path :
  ∃ res, changedFile w m stackSet path = Return res.
Proof.
  unfold changedFile.
  destruct (StackPath w _) as [triggeredStack isTriggerFile].
  destruct (String.prefix "." path && negb isTriggerFile); [by eexists|].
  destruct isTriggerFile.
  - destruct (match Stat w _ with Ok _ => false | Err err => IsNotExist w err end);
      [by eexists|].
    destruct (Lookup (root m) triggeredStack) as [cfg|]; [|by eexists].
    destruct (negb (IsStack (root m) cfg)); [by eexists|].
    destruct (NewStackFromHCL (root m) _ cfg); by eexists.
  - cbv zeta. case_bool_decide; [by eexists|].
    destruct (isStackTree m _) eqn:Hstack.
    + destruct (Lookup (root m) _) as [cfg|]; [|by eexists].
      destruct (negb (IsStack (root m) cfg)); [by eexists|].
      destruct (NewStackFromHCL (root m) _ cfg); by eexists.
    + destruct (lookupParent_returns (length (PrjAbsPath w (HostDir (root m))
                  (filepath_Dir w (filepath_Join w (HostDir (root m)) path))))
                  (PrjAbsPath w (HostDir (root m))
                     (filepath_Dir w (filepath_Join w (HostDir (root m)) path)))
                  (Lookup (root m) (PrjAbsPath w (HostDir (root m))
                     (filepath_Dir w (filepath_Join w (HostDir (root m)) path)))))
        as [found ->]; [done|].
      destruct found as [cfg|]; [|by eexists].
      destruct (negb (IsStack (root m) cfg)); [by eexists|].
      destruct (NewStackFromHCL (root m) _ cfg); by eexists.
Qed.

Lemma forEach_returns {A S : Type}
    (body : S → A → outcome (result Error S)) l s :
  (∀ s x, ∃ res, body s x = Return res) →
  ∃ res, forEach body l s = Return res.
Proof.
  intros Hbody. revert s. induction l as [|x l IH]; intros s; simpl; [by eexists|].
  destruct (Hbody s x) as [[s'|err] ->]; [apply IH|by eexists].
Qed.

(** With a bound above the number of sources that the files declare,
    [ListChanged] returns: a report or an error. *)
Lemma ListChanged_returns (universe : list string) fuel :
  (∀ path modules mod2,
      ParseModules w path = Ok modules → mod2 ∈ modules →
      Source mod2 ∈ universe) →
  length universe < fuel →
  ∃ res, ListChanged w m fuel = Return res.
Proof.
  intros Hparsed Hfuel. unfold ListChanged.
  destruct (WithConfig w _); [|by eexists].
  destruct (negb (IsRepository w _)); [by eexists|].
  destruct (checkRepoIsClean w _) as [checks|]; [|by eexists].
  destruct (listChangedFiles w _ _) as [changedFiles|]; [|by eexists].
  destruct (forEach_returns (changedFile w m) changedFiles ∅ changedFile_returns)
    as [[stackSet|err] Hpass]; unfold changedFilesPass; rewrite Hpass; [|by eexists].
  destruct (ListStacks (root m)) as [allstacks|]; [|by eexists].
  destruct (forEach_returns (checkStack w m fuel changedFiles) allstacks stackSet)
    as [[stackSet'|err] ->]; [|by eexists..].
  intros s stackEntry. unfold checkStack. cbv zeta.
  case_bool_decide; [by eexists|].
  destruct (hasChangedWatchedFiles _ _); [by eexists|].
  destruct (filesApply_returns (λ _ : StackSet, True)
              (StackHostDir (EntryStack stackEntry))
              (stackFile w m fuel (EntryStack stackEntry)) s)
    as ([[]|err] & s' & -> & _); [|done|by eexists..].
  intros file s0 _. unfold stackFile. case_bool_decide; [by eexists _, _|].
  destruct (ParseModules w _) as [modules|err]; [|by eexists _, _].
  clear -Hparsed Hfuel. revert s0.
  induction modules as [|mod_ modules IH]; intros s0; simpl; [by eexists _, _|].
  destruct (moduleChanged_top universe mod_
              (StackHostDir (EntryStack stackEntry)) fuel Hparsed Hfuel)
    as ([[chg reason]|err] & v' & -> & _); [|by eexists _, _].
  destruct chg; [by eexists _, _|apply IH].
Qed.

(** *** The order of the range over the set *)

(** The report does not depend on the order in which the entries of the
    set are produced for sorting. *)
Lemma sort_Sort_any_order (stackSet : StackSet) (produced : list (string * Entry)) :
  keyed stackSet → produced ≡ₚ map_to_list stackSet →
  sort_Sort produced.*2 = sort_Sort (map_to_list stackSet).*2.
Proof.
  intros Hk Hperm.
  assert (∀ l : list Entry, l ≡ₚ (map_to_list stackSet).*2 →
            StronglySorted (λ x y, strLt (entryDir x) (entryDir y)) (sort_Sort l))
    as Hstrict.
  { intros l Hl.
    assert (NoDup (entryDir <$> sort_Sort l)) as Hnd
      by (rewrite sort_Sort_perm, Hl; by apply keyed_NoDup).
    pose proof (inOrder_strict _ (sort_Sort_sorted l) Hnd) as Hs.
    clear -Hs. induction (sort_Sort l) as [|x l' IH]; [constructor|].
    rewrite fmap_cons in Hs. apply StronglySorted_inv in Hs as [Hs Hx].
    constructor; [by apply IH|].
    apply (proj1 (Forall_fmap entryDir (strLt (entryDir x)) l')) in Hx. exact Hx. }
  apply (StronglySorted_unique_strong
           (λ x y, strLt (entryDir x) (entryDir y))).
  - intros x y _ _ Hxy Hyx. by apply strLt_asym in Hxy.
  - apply Hstrict. by rewrite Hperm.
  - by apply Hstrict.
  - by rewrite !sort_Sort_perm, Hperm.
Qed.

End Facts.
End StackFacts.

(** ** The let scenarios *)

Module LetsChecks.
Import Lets LetsFacts LetsScenarios.

Lemma byName_perm n (mp : gmap string (Expr Z)) : byName n mp ≡ₚ map_to_list mp.
Proof. apply merge_sort_Permutation. Qed.

(** The entries of a map written out. *)
Ltac entries H mp :=
  unfold mp in H;
  repeat (apply lookup_insert_Some in H as [[<- <-]|[_ H]]);
  try (apply lookup_singleton_Some in H as [<- <-]).

(** [let { a = let.b + 1  b = 2 }] evaluates to [a = 3] and [b = 2], the
    entry [a] being visited before [b]. *)
Example forwardRef_evaluated :
  (byName 2 forwardRef).*1 = ["a"; "b"] ∧
  ∃ r, Lets.Eval byName forwardRef noCtx = Return r ∧ resErr r = None ∧
       map_to_list (Attributes (resLets r)) = [("a", 3%Z); ("b", 2%Z)].
Proof. split; [by vm_compute|]. eexists. by vm_compute. Qed.

Lemma forwardRef_letOnly : letOnly forwardRef.
Proof.
  intros k e Hk. entries Hk forwardRef; simpl; [|constructor].
  apply Forall_cons. split; [|constructor]. split; [done|].
  eexists _, _. split; [done|]. eexists. by vm_compute.
Qed.

Lemma forwardRef_dependsOn x y : dependsOn forwardRef x y → x = "a" ∧ y = "b".
Proof.
  intros (e & He & Hy). entries He forwardRef; vm_compute in Hy.
  - by apply list_elem_of_singleton in Hy.
  - by apply elem_of_nil in Hy.
Qed.

Lemma forwardRef_acyclic : acyclic forwardRef.
Proof.
  intros x Hx. inversion Hx as [? ? Hd|? y ? Hd Htc]; subst.
  - by apply forwardRef_dependsOn in Hd as [-> ?].
  - apply forwardRef_dependsOn in Hd as [-> ->].
    inversion Htc as [? ? Hd|? y ? Hd _]; subst;
      by apply forwardRef_dependsOn in Hd as [? ?].
Qed.

(** [let { a = 1 / 0 }] refers to nothing and has no cycle, and [Eval]
    returns an error for it, having evaluated no let. *)
Lemma C2_counterexample :
  letOnly divByZero ∧ acyclic divByZero ∧
  ∃ r, Lets.Eval byName divByZero noCtx = Return r ∧
       resErr r = Some [E (Some ErrEval) None EmptyString
                          [E (Some ErrEval) None "let.a"
                             [E None None "Division by zero" []]]] ∧
       resLets r = ∅.
Proof.
  split; [|split].
  - intros k e Hk. entries Hk divByZero. constructor.
  - intros x Hx.
    assert (∀ y z, ¬ dependsOn divByZero y z) as Hno.
    { intros y z (e & He & Hz). entries He divByZero. by apply elem_of_nil in Hz. }
    inversion Hx as [? ? Hd|? y ? Hd _]; subst; by apply Hno in Hd.
  - eexists. by vm_compute.
Qed.

(** *** C3 *)

Lemma twoCycle_attrAccessOnly : attrAccessOnly twoCycle.
Proof.
  intros k e Hk. entries Hk twoCycle; simpl; (apply Forall_cons; split; [|constructor]);
    intros _; by eexists _, _.
Qed.




(** *** C6 *)

(** [let { a = 1  b = unset }] leaves [a = 1] and nothing for [b]. *)
Example withUnset_evaluated :
  ∃ r, Lets.Eval byName withUnset noCtx = Return r ∧ resErr r = None ∧
       map_to_list (Attributes (resLets r)) = [("a", 1%Z)].
Proof. eexists. by vm_compute. Qed.

Lemma C6_witness :
  pendingExprs (initState byName withUnset noCtx) !! "b" = None ∧
  match Lets.Eval byName withUnset noCtx with
  | Return r =>
      resLets r !! "b" = None ∧ ("b" ∉ resFor r) ∧
      ((∀ ns, namespaces noCtx !! "let" = Some ns → ns !! "b" = None) →
       ∀ ns, namespaces (resCtx r) !! "let" = Some ns → ns !! "b" = None)
  | Panic _ => True
  | OutOfFuel => False
  end.
Proof.
  apply (C6_unset_entry_dropped byName byName_perm withUnset noCtx "b"
           (unsetExpr 2) (bare "unset" (at_ 2))); by vm_compute.
Defined.

(** *** C7 *)

(** [let { b = unset }] refers to the namespace [unset], which the context
    does not have, and [Eval] returns no error.  [let { a = let.zz }] refers
    to the namespace [let], which the context does not have: [Eval] adds the
    namespace, and the error it returns has no range.
    [let { q = let.q + foo.x }] refers to the namespace [foo], which the
    context does not have, and the error [Eval] returns does not mention
    [foo].  [let { a = foo.x  b = let[0] }] refers to [foo] too, and [Eval]
    panics. *)
Lemma C7_counterexample :
  (Variables (Expression_ (unsetExpr 1)) = [bare "unset" (at_ 1)] ∧
   HasNamespace noCtx "unset" = false ∧
   ∃ r, Lets.Eval byName onlyUnset noCtx = Return r ∧ resErr r = None) ∧
  (HasNamespace noCtx "let" = false ∧
   ∃ r, Lets.Eval byName letUndefined noCtx = Return r ∧
     resErr r = Some [E (Some ErrEval) None EmptyString
                        [E (Some ErrEval) None "let.a"
                           [E None None "Unsupported attribute: zz" []]]]) ∧
  (HasNamespace noCtx "foo" = false ∧
   ∃ r errs, Lets.Eval byName unknownAfterCycle noCtx = Return r ∧
     resErr r = Some errs ∧
     errs = [E (Some ErrEval) None EmptyString
               [E None (Some (at_ 1)) "undefined let q" []]] ∧
     existsb (mentions "foo") errs = false) ∧
  Lets.Eval byName unknownAndIndex noCtx
  = Panic "unexpected type of traversal - this is a BUG".
Proof.
  split; [|split; [|split]].
  - split; [done|]. split; [by vm_compute|]. eexists. by vm_compute.
  - split; [by vm_compute|]. eexists. by vm_compute.
  - split; [by vm_compute|]. eexists _, _. by vm_compute.
  - by vm_compute.
Qed.

(** *** C8 *)

Lemma C8_witness :
  (∀ exprs, loadExprs sortedList newMapExpr collidingBlock ≠ Return (Ok exprs)) ∧
  ∃ v, is_Some (MAttributes collidingBlock !! v) ∧
       errKind (redefined v) = Some ErrRedefined ∧
       loadExprs sortedList newMapExpr collidingBlock = Return (Err (redefined v)) ∧
       Load sortedList newMapExpr byName collidingBlock noCtx
       = Return (noCtx, Some (ErrorOf (redefined v))).
Proof.
  destruct (C8_label_collision_rejected sortedList newMapExpr byName collidingBlock
              noCtx [mapBlock "m" 2 true] (mapBlock "a" 3 true) [] "a")
    as [Hnone Hkind]; [done|done|by eexists; vm_compute|].
  split; [exact Hnone|]. apply Hkind.
  apply Forall_cons. split; [|constructor].
  split; [by eexists|]. split; by eexists.
Defined.

(** A map block [a] collides with the attribute [a], and [loadExprs]
    returns an error of kind [lets eval]: no map expression can be made of
    the map block [m] before it. *)
Lemma C8_counterexample :
  mapBlock "a" 3 true ∈ Blocks collidingAfterBad ∧
  Labels (mapBlock "a" 3 true) !! 0 = Some "a" ∧
  is_Some (MAttributes collidingAfterBad !! "a") ∧
  loadExprs sortedList newMapExpr collidingAfterBad
  = Return (Err (Wrap ErrEval [E None None "map block has no value" []])) ∧
  errKind (Wrap ErrEval [E None None "map block has no value" []])
  ≠ Some ErrRedefined.
Proof.
  split; [simpl; set_solver|]. split; [done|].
  split; [by eexists; vm_compute|]. split; [by vm_compute|]. by intros [=].
Qed.

(** *** C9 *)

(** [let { q = let.q + let[0] }] has a reference to [let] that is an index,
    and [Eval] does not panic: it returns [undefined let q]. *)
Lemma C9_counterexample :
  letIndex 0 (at_ 1) ∈ Variables (Expression_
    (expr 1 [letAttr "q" (at_ 1); letIndex 0 (at_ 1)] (λ c, readVar c "let" "q"))) ∧
  isPanic (Lets.Eval byName indexAfterCycle noCtx) = false ∧
  ∃ r, Lets.Eval byName indexAfterCycle noCtx = Return r ∧
       resErr r = Some [E (Some ErrEval) None EmptyString
                          [E None (Some (at_ 1)) "undefined let q" []]].
Proof.
  split; [simpl; set_solver|]. split; [by vm_compute|]. eexists. by vm_compute.
Qed.

End LetsChecks.

(** ** The stack scenarios *)

Module StackChecks.
Import Stack StackFacts StackScenarios.

Example ahead_ListChanged : ListChanged ahead manager 3 = Return (Ok aheadReport).
Proof. by vm_compute. Qed.

Example atBase_ListChanged :
  ListChanged atBase manager 3
  = Return (Ok {| Stacks := [];
                  Checks := {| UncommittedFiles := []; UntrackedFiles := [] |} |}).
Proof. by vm_compute. Qed.

(** *** C1 *)

Lemma C1_witness :
  NoDup (entryDir <$> Stacks aheadReport) ∧
  (∀ changedFiles (stackSet : gmap string Entry) k e,
      listChangedFiles ahead (HostDir (root manager)) (gitBaseRef manager)
      = Ok changedFiles →
      changedFilesPass ahead manager changedFiles = Return (Ok stackSet) →
      stackSet !! k = Some e → e ∈ Stacks aheadReport) ∧
  (∀ (stackSet : gmap string Entry) path,
      (StackPath ahead (projPath ahead manager path)).2 = false →
      is_Some (stackSet !! Path_String (cfgPath ahead manager path)) →
      changedFile ahead manager stackSet path = Return (Ok stackSet)) ∧
  (∀ changedFiles (stackSet : gmap string Entry) stackEntry,
      is_Some (stackSet !! Path_String (Dir (EntryStack stackEntry))) →
      checkStack ahead manager 3 changedFiles stackSet stackEntry
      = Return (Ok stackSet)) ∧
  (∀ changedFiles (stackSet stackSet' : gmap string Entry) stackEntry,
      checkStack ahead manager 3 changedFiles stackSet stackEntry
      = Return (Ok stackSet') →
      stackSet ⊆ stackSet' ∧
      ∀ k, k ≠ Path_String (Dir (EntryStack stackEntry)) →
           stackSet' !! k = stackSet !! k) ∧
  (∀ changedFiles (stackSet : gmap string Entry) stackEntry watchFile,
      stackSet !! Path_String (Dir (EntryStack stackEntry)) = None →
      hasChangedWatchedFiles (EntryStack stackEntry) changedFiles = Some watchFile →
      checkStack ahead manager 3 changedFiles stackSet stackEntry
      = Return (Ok (<[Path_String (Dir (EntryStack stackEntry)) :=
                       {| EntryStack :=
                            {| Dir := Dir (EntryStack stackEntry);
                               StackHostDir := StackHostDir (EntryStack stackEntry);
                               Watch := Watch (EntryStack stackEntry);
                               Wants := Wants (EntryStack stackEntry);
                               WantedBy := WantedBy (EntryStack stackEntry);
                               IsChanged := true |};
                          Reason := "stack changed because watched file "
                                      +:+ quote ahead (Path_String watchFile)
                                      +:+ " changed" |}]>
                      stackSet))) ∧
  (∀ (stackSet : gmap string Entry) path triggeredStack cfg s,
      StackPath ahead (projPath ahead manager path) = (triggeredStack, true) →
      match Stat ahead (filepath_Join ahead (HostDir (root manager)) path) with
      | Err err => IsNotExist ahead err = false
      | Ok _ => True
      end →
      Lookup (root manager) triggeredStack = Some cfg →
      IsStack (root manager) cfg = true →
      NewStackFromHCL (root manager) (HostDir (root manager)) cfg = Ok s →
      changedFile ahead manager stackSet path
      = Return (Ok (<[Path_String (Dir s) :=
                       {| EntryStack := s;
                          Reason := "stack has been triggered by: "
                                      +:+ Path_String (projPath ahead manager path) |}]>
                      stackSet))) ∧
  (∀ (stackSet stackSet' : gmap string Entry) path,
      (StackPath ahead (projPath ahead manager path)).2 = false →
      changedFile ahead manager stackSet path = Return (Ok stackSet') →
      stackSet' = stackSet ∨
      ∃ dir s,
        String.prefix "." path = false ∧
        stackSet !! Path_String (cfgPath ahead manager path) = None ∧
        dir `prefix_of` cfgPath ahead manager path ∧ stackOf manager dir s ∧
        stackSet' = <[Path_String (Dir s) :=
                       {| EntryStack := s; Reason := "stack has unmerged changes" |}]>
                      stackSet) ∧
  (∀ (stackSet : gmap string Entry) path cfg s,
      (StackPath ahead (projPath ahead manager path)).2 = false →
      String.prefix "." path = false →
      stackSet !! Path_String (cfgPath ahead manager path) = None →
      isStackTree manager (Lookup (root manager) (cfgPath ahead manager path)) = false →
      Path_String (cfgPath ahead manager path) ≠ "/" →
      Lookup (root manager) (Path_Dir (cfgPath ahead manager path)) = Some cfg →
      IsStack (root manager) cfg = true →
      NewStackFromHCL (root manager) (HostDir (root manager)) cfg = Ok s →
      changedFile ahead manager stackSet path
      = Return (Ok (<[Path_String (Dir s) :=
                       {| EntryStack := s; Reason := "stack has unmerged changes" |}]>
                      stackSet))) ∧
  (∀ (stackSet : gmap string Entry) stack file pre mod_ post reason v,
      path_Ext ahead (Name file) = ".tf" →
      ParseModules ahead (filepath_Join ahead (StackHostDir stack) (Name file))
      = Ok (pre ++ mod_ :: post) →
      (∀ mod', mod' ∈ pre →
         ∃ reason' v', moduleChanged ahead manager 3 mod' (StackHostDir stack) newWalk
                       = Return (Ok (false, reason'), v')) →
      moduleChanged ahead manager 3 mod_ (StackHostDir stack) newWalk
      = Return (Ok (true, reason), v) →
      stackFile ahead manager 3 stack file stackSet
      = Return (Ok (),
                <[Path_String (Dir stack) :=
                   {| EntryStack :=
                        {| Dir := Dir stack; StackHostDir := StackHostDir stack;
                           Watch := Watch stack; Wants := Wants stack;
                           WantedBy := WantedBy stack; IsChanged := true |};
                      Reason := "stack changed because " +:+ quote ahead (Source mod_)
                                  +:+ " changed because " +:+ reason |}]>
                  stackSet)).
Proof.
  apply (C1_entries_kept ahead manager 3 aheadReport). by vm_compute.
Defined.

(** A changed file whose own directory has an entry changes nothing: after
    the trigger file of [/s1] a changed file of [/s1] itself leaves the
    trigger reason. *)
Example own_directory_kept :
  changedFilesPass ahead manager [".tmtriggers/s1/t.tm.hcl"; "s1/main.tf"]
  = Return (Ok {[ "/s1" := entryOf ["s1"] false
                             "stack has been triggered by: /.tmtriggers/s1/t.tm.hcl" ]}).
Proof. by vm_compute. Qed.

(** The first changed file is a trigger file of the stack [/s1]: after it
    the set has [/s1] as triggered.  A later changed file lies below [/s1],
    and the report has [/s1] with the reason of that later step.  In the
    other order the trigger file replaces the reason of the changed file.
    And the files [a.tf] and [b.tf] of the stack [/s5] each declare a
    changed module: after [a.tf] the set has [/s5] with the reason of the
    module of [a.tf], and the report has it with the reason of the module of
    [b.tf]. *)
Lemma C1_counterexample :
  listChangedFiles ahead "/repo" "main"
  = Ok [".tmtriggers/s1/t.tm.hcl"; "mods/n/x.tf"; "s1/sub/x.tf"; "s2/main.tf";
        "shared/vars.tf"] ∧
  changedFilesPass ahead manager [".tmtriggers/s1/t.tm.hcl"]
  = Return (Ok {[ "/s1" := entryOf ["s1"] false
                             "stack has been triggered by: /.tmtriggers/s1/t.tm.hcl" ]}) ∧
  changedFilesPass ahead manager [".tmtriggers/s1/t.tm.hcl"; "mods/n/x.tf"; "s1/sub/x.tf"]
  = Return (Ok {[ "/s1" := entryOf ["s1"] false "stack has unmerged changes" ]}) ∧
  ListChanged ahead manager 3 = Return (Ok aheadReport) ∧
  (Reason <$> Stacks aheadReport) !! 0 = Some "stack has unmerged changes" ∧
  changedFilesPass ahead manager ["s1/sub/x.tf"]
  = Return (Ok {[ "/s1" := entryOf ["s1"] false "stack has unmerged changes" ]}) ∧
  changedFilesPass ahead manager ["s1/sub/x.tf"; ".tmtriggers/s1/t.tm.hcl"]
  = Return (Ok {[ "/s1" := entryOf ["s1"] false
                             "stack has been triggered by: /.tmtriggers/s1/t.tm.hcl" ]}) ∧
  stackFile twoFiles manager5 3 stack5 {| Name := "a.tf"; EntryIsDir := false |} ∅
  = Return (Ok (), {[ "/s5" := moduleEntry "../m1" ]}) ∧
  ListChanged twoFiles manager5 3
  = Return (Ok {| Stacks := [moduleEntry "../m2"];
                  Checks := {| UncommittedFiles := []; UntrackedFiles := [] |} |}).
Proof. repeat split; by vm_compute. Qed.

(** *** C4 *)

Lemma parsed_sources path modules mod2 :
  ParseModules atBase path = Ok modules → mod2 ∈ modules → Source mod2 ∈ sources.
Proof.
  simpl. unfold assoc, modulesOf. simpl.
  repeat (case_decide; simpl;
          [intros [= <-] ->%list_elem_of_singleton; simpl; set_solver|]).
  by intros [= <-] ?%elem_of_nil.
Qed.

(** The modules [../a] and [../b] use each other; the walk from [../a]
    enters each once and returns. *)
Lemma C4_witness :
  (∀ fuel v,
      "../a" ∈ visited v →
      moduleChanged atBase manager fuel {| Source := "../a" |} "/cyc/x" v
      = Return (Ok (false, EmptyString), v)) ∧
  ∃ res v',
    moduleChanged atBase manager 5 {| Source := "../a" |} "/cyc/x" newWalk
    = Return (res, v') ∧
    NoDup (entered v') ∧
    ∀ source, source ∈ entered v' ↔ source ∈ visited v'.
Proof.
  destruct (C4_moduleChanged_terminates atBase manager sources
              {| Source := "../a" |} "/cyc/x" parsed_sources) as [Hvisited Hreturns].
  split; [exact Hvisited|]. apply (Hreturns 5). simpl. lia.
Defined.

Example cycle_walk :
  ∃ v', moduleChanged atBase manager 5 {| Source := "../a" |} "/cyc/x" newWalk
        = Return (Ok (false, "module " +:+ dq +:+ "../a" +:+ dq +:+ " changed because "), v')
        ∧ entered v' = ["../a"; "../b"].
Proof. eexists. by vm_compute. Qed.

(** *** C5 *)

Lemma C5_witness :
  ListChanged ahead manager 3 = Return (Ok aheadReport) ∧
  StronglySorted strLt (entryDir <$> Stacks aheadReport).
Proof.
  split; [by vm_compute|].
  apply (C5_report_strictly_ascending ahead manager 3 aheadReport). by vm_compute.
Defined.

Example ahead_dirs : entryDir <$> Stacks aheadReport = ["/s1"; "/s2"; "/s3"; "/s4"].
Proof. by vm_compute. Qed.

(** *** C10 *)

Example atBase_no_diff :
  listChangedFilesLog atBase "/repo" "main"
  = ([CallRevParse "/repo" "main"; CallRevParse "/repo" "HEAD"], Ok []) ∧
  listChangedFilesLog ahead "/repo" "main"
  = ([CallRevParse "/repo" "main"; CallRevParse "/repo" "HEAD";
      CallDiffNames "/repo" "c0ffee" "decade"],
     Ok [".tmtriggers/s1/t.tm.hcl"; "mods/n/x.tf"; "s1/sub/x.tf"; "s2/main.tf";
         "shared/vars.tf"]).
Proof. split; by vm_compute. Qed.

End StackChecks.

(** * Further properties *)

(** ** The let evaluator: passes, context and report *)

Module LetsLaws.
Import Lets LetsFacts.

Section Laws.
Context {cty : Type}.

#[local] Abbreviation Exprs := (gmap string (Expr cty)).

Variable order : nat → Exprs → list (string * Expr cty).

(** A [range] produces every entry of the map once, in some order. *)
Hypothesis order_perm : ∀ n (mp : Exprs), order n mp ≡ₚ map_to_list mp.

(** *** The test of [removeUnset] *)

Lemma isUnset_bareUnset (e : Expr cty) : isUnset e = true ↔ bareUnset e.
Proof.
  unfold isUnset, bareUnset, traversalLen.
  destruct (AbsTraversalForExpr (Expression_ e)) as [t|]; [|split; [done|]].
  - case_bool_decide as Hlen.
    + split; [done|]. intros (t' & [= <-] & Hsteps & _).
      rewrite Hsteps in Hlen. done.
    + rewrite bool_decide_eq_true. split.
      * intros Hroot. exists t. split; [done|]. split; [|done].
        destruct (steps t); [done|]. simpl in Hlen. lia.
      * by intros (t' & [= <-] & _ & Hroot).
  - by intros (t & ? & _).
Qed.

Lemma not_bareUnset (e : Expr cty) : ¬ bareUnset e → isUnset e = false.
Proof.
  intros Hn. destruct (isUnset e) eqn:Hu; [|done].
  by apply isUnset_bareUnset in Hu.
Qed.

(** *** The two helpers of Eval *)

(** X1: [copyexprs(dst, src)] leaves in [dst] every entry of [src], and of
    the entries [dst] had those under a key that [src] does not have;
    [removeUnset] deletes the entries whose expression is the bare
    identifier [unset] (an absolute traversal that is a root alone, named
    [unset]) and no other, and a second call changes nothing.  The order in
    which the [range] of either produces the entries makes no difference. *)
Theorem X1_copyexprs_removeUnset (dst src exprs : Exprs) :
  copyexprs order dst src = src ∪ dst
  ∧ (∀ k e, removeUnset order exprs !! k = Some e
            ↔ exprs !! k = Some e ∧ ¬ bareUnset e)
  ∧ removeUnset order (removeUnset order exprs) = removeUnset order exprs.
Proof using order_perm.
  split; [|split].
  - apply map_eq. intros k. unfold copyexprs.
    rewrite (foldl_insert_lookup (order 0 src) dst k
               (order_NoDup order order_perm 0 src)).
    rewrite lookup_union.
    destruct (list_to_map (order 0 src) !! k) as [e|] eqn:Hk.
    + apply elem_of_list_to_map in Hk; [|apply (order_NoDup order order_perm)].
      apply (order_elem order order_perm) in Hk. rewrite Hk.
      by destruct (dst !! k).
    + destruct (src !! k) as [e|] eqn:Hs.
      * apply (order_elem order order_perm 0) in Hs.
        apply (elem_of_list_to_map (M := gmap string)) in Hs;
          [|apply (order_NoDup order order_perm)].
        congruence.
      * by destruct (dst !! k).
  - intros k e. rewrite (removeUnset_lookup order order_perm).
    destruct (exprs !! k) as [e'|]; [|by split; [|intros []]].
    destruct (isUnset e') eqn:Hu.
    + split; [done|]. intros [[= ->] Hn]. by apply isUnset_bareUnset in Hu.
    + split.
      * intros [= ->]. split; [done|]. intros Hb%isUnset_bareUnset. congruence.
      * by intros [[= ->] _].
  - apply map_eq. intros k. rewrite !(removeUnset_lookup order order_perm).
    destruct (exprs !! k) as [e|]; [|done].
    by destruct (isUnset e) eqn:Hu; [|rewrite Hu].
Qed.

(** *** The main loop *)

(** The main loop ends, with or without a panic; where it returns, the
    invariant [Inv] and an invariant [K] of the visits hold, and [Q] holds
    of a last pass that evaluated nothing. *)
Lemma evalRun_ends (letExprs : Exprs) c (K Q : EvalState cty → Prop) :
  let st0 := initState order letExprs c in
  let I0 := Inv (pendingExprs st0) (ctx st0) in
  K st0 →
  (∀ st, K st → K (resetAmount st)) →
  (∀ st st' name expr,
      I0 st → K st → pendingExprs st !! name = Some expr →
      evalPending st name expr = Return st' → K st') →
  (∀ n st st',
      I0 st → K st → pendingExprs st ≠ ∅ →
      evalPass (resetAmount st) (order n (pendingExprs st)) = Return st' →
      Q st') →
  ends True (evalRun order letExprs c)
       (λ r, I0 r.2 ∧ K r.2 ∧
             (pendingExprs r.2 = ∅ ∨ (amountEvaluated r.2 = 0 ∧ Q r.2))).
Proof using order_perm.
  intros st0 I0 HK0 HKreset HKstep HQ. unfold evalRun. fold st0.
  pose proof (evalLoop_inv order order_perm (λ s, I0 s ∧ K s) Q True) as Hloop.
  assert (ends True (evalLoop order (S (size (pendingExprs st0))) 2 st0)
            (λ r, (I0 r.2 ∧ K r.2) ∧
                  (pendingExprs r.2 = ∅ ∨ (amountEvaluated r.2 = 0 ∧ Q r.2)))) as Hends.
  { apply Hloop.
    - intros s [HI HK]. split; [by apply Inv_reset|by apply HKreset].
    - intros s name expr [HI HK] Hp.
      pose proof (Inv_ends _ _ s name expr HI Hp) as He.
      destruct (evalPending s name expr) as [s'| |] eqn:Hev; simpl in *; [|done..].
      split; [done|]. exact (HKstep s s' name expr HI HK Hp Hev).
    - intros n s s' [HI HK]. by apply HQ.
    - lia.
    - split; [apply Inv_init|done]. }
  destruct (evalLoop order _ 2 st0) as [[n st]| |]; simpl in *; [|done..].
  by destruct Hends as [[? ?] ?].
Qed.

(** What [Eval] returns is read off the state its main loop ends in. *)
Lemma Eval_Return (letExprs : Exprs) c r :
  Eval order letExprs c = Return r →
  ∃ n st, evalRun order letExprs c = Return (n, st) ∧
    resCtx r = ctx st ∧ resLets r = lets st ∧
    resFor r = (reportErrors order n st).*1 ∧
    resErr r = AsError ((reportErrors order n st).*2).
Proof.
  unfold Eval. destruct (evalRun order letExprs c) as [[n st]| |]; [|done..].
  intros [= <-]. by exists n, st.
Qed.

(** A pass of the main loop keeps the number of entries pending or
    evaluated in it. *)
Lemma evalPass_size n (st st' : EvalState cty) :
  evalPass (resetAmount st) (order n (pendingExprs st)) = Return st' →
  size (pendingExprs st') + amountEvaluated st' = size (pendingExprs st).
Proof using order_perm.
  intros Hpass.
  pose proof (evalPass_inv
    (λ _ s, size (pendingExprs s) + amountEvaluated s = size (pendingExprs st))
    True (order n (pendingExprs st)) (resetAmount st)) as Hinv.
  rewrite Hpass in Hinv. simpl in Hinv. apply Hinv.
  - apply (order_NoDup order order_perm).
  - intros name expr Hin. by apply (order_elem order order_perm) in Hin.
  - lia.
  - intros s name expr rest Hs Hpn _.
    destruct (evalPending s name expr) as [s'| |] eqn:Hev; simpl; [|done|].
    + rewrite <- Hs. by eapply evalPending_size.
    + pose proof (evalPending_cases s name expr) as Hc. by rewrite Hev in Hc.
Qed.

Lemma evalLoop_passes fuel :
  ∀ n (st : EvalState cty) n' st',
    evalLoop order fuel n st = Return (n', st') →
    n ≤ n' ∧
    n' + size (pendingExprs st')
    ≤ n + size (pendingExprs st) + (if decide (pendingExprs st' = ∅) then 0 else 1).
Proof using order_perm.
  induction fuel as [|fuel IH]; intros n st n' st'.
  - simpl. case_bool_decide as Hempty; [|done].
    intros [= <- <-]. rewrite decide_True by done. lia.
  - rewrite evalLoop_S. case_bool_decide as Hempty.
    + intros [= <- <-]. rewrite decide_True by done. lia.
    + destruct (evalPass (resetAmount st) (order n (pendingExprs st)))
        as [st1| |] eqn:Hpass; [|done..].
      pose proof (evalPass_size n st st1 Hpass) as Hsize.
      case_bool_decide as Hamount.
      * intros [= <- <-]. split; [lia|].
        rewrite decide_False; [lia|].
        intros Hst1. rewrite Hst1, map_size_empty in Hsize.
        apply Hempty. apply map_size_empty_iff. lia.
      * intros Hloop. apply IH in Hloop. lia.
Qed.

(** X2: the main loop of [Eval] ends for every map of expressions and
    every order of its [range] statements, and it makes at most as many
    passes over the pending expressions as the map has entries. *)
Theorem X2_Eval_passes_bounded (letExprs : Exprs) (c : Context cty) :
  ends True (evalRun order letExprs c) (λ r, 2 ≤ r.1 ∧ r.1 - 2 ≤ size letExprs)
  ∧ Eval order letExprs c ≠ OutOfFuel.
Proof using order_perm.
  pose proof (evalRun_Inv order order_perm letExprs c) as Hrun. simpl in Hrun.
  split.
  - destruct (evalRun order letExprs c) as [[n st]| |] eqn:Hev; simpl; [|done..].
    unfold evalRun in Hev. apply evalLoop_passes in Hev as [Hle Hev].
    split; [done|].
    assert (size (pendingExprs (initState order letExprs c)) ≤ size letExprs) as Hsub.
    { apply map_subseteq_size. apply map_subseteq_spec. intros k e.
      apply (initState_sub order order_perm). }
    destruct (decide (pendingExprs st = ∅)) as [Hempty|Hne]; [lia|].
    assert (size (pendingExprs st) ≠ 0); [|lia].
    by apply map_size_non_empty_iff.
  - unfold Eval. by destruct (evalRun order letExprs c) as [[n st]| |].
Qed.

(** *** What Eval returns *)

(** X3: when [Eval] returns, every entry of the map that is not [unset] is
    either evaluated or named in the error, never both and never twice, no
    other name is, and the error is nil exactly when all of them are
    evaluated. *)
Theorem X3_Eval_accounts_for_entries (letExprs : Exprs) (c : Context cty) r :
  Eval order letExprs c = Return r →
  (∀ k, is_Some (resLets r !! k) ∨ k ∈ resFor r
        ↔ ∃ e, letExprs !! k = Some e ∧ isUnset e = false) ∧
  (∀ k, is_Some (resLets r !! k) → k ∉ resFor r) ∧
  NoDup (resFor r) ∧
  (resErr r = None ↔ resFor r = []) ∧
  (resErr r = None ↔
   ∀ k e, letExprs !! k = Some e → isUnset e = false → is_Some (resLets r !! k)).
Proof using order_perm.
  intros Hret. apply Eval_Return in Hret as (n & st & Hrun & _ & Hlets & Hfor & Herr).
  pose proof (evalRun_Inv order order_perm letExprs c) as HI. cbv zeta in HI.
  rewrite Hrun in HI. cbn [ends snd] in HI.
  assert (∀ k, is_Some (pendingExprs (initState order letExprs c) !! k)
               ↔ ∃ e, letExprs !! k = Some e ∧ isUnset e = false) as Hp0.
  { intros k. rewrite (initState_pending order order_perm).
    destruct (letExprs !! k) as [e|]; [destruct (isUnset e) eqn:Hu|].
    - split; [by intros [? ?]|]. intros (e' & [= <-] & ?). congruence.
    - split; [by eauto|by eauto].
    - split; [by intros [? ?]|]. by intros (e' & ? & _). }
  assert (∀ k, k ∈ resFor r ↔ is_Some (pendingExprs st !! k)) as Hnames.
  { intros k. rewrite Hfor. apply (reportErrors_names order order_perm). }
  assert (resErr r = None ↔ resFor r = []) as Hnil.
  { rewrite Herr, Hfor. unfold reportErrors. rewrite <- !list_fmap_compose.
    destruct (order n (pendingExprs st)); simpl; split; done. }
  assert (resFor r = [] ↔ pendingExprs st = ∅) as Hempty.
  { rewrite Hfor. unfold reportErrors. rewrite <- list_fmap_compose.
    rewrite <- (order_nil order order_perm n).
    destruct (order n (pendingExprs st)); simpl; split; done. }
  split; [|split; [|split; [|split; [done|]]]].
  - intros k. rewrite <- Hp0, Hnames, Hlets, (inv_pending _ _ _ HI k).
    destruct (lets st !! k) as [v|] eqn:Hv.
    + destruct (inv_origin _ _ _ HI k v Hv) as (e & He & _). rewrite He.
      split; [by eauto|]. intros _. left. eauto.
    + split; [by intros [[? ?]|?]|]. by right.
  - intros k. rewrite Hnames, Hlets, (inv_pending _ _ _ HI k).
    intros [v ->]. by intros [? ?].
  - rewrite Hfor. unfold reportErrors. rewrite <- list_fmap_compose.
    apply (order_NoDup order order_perm).
  - rewrite Hnil, Hempty. split.
    + intros Hnone k e Hk Hu. rewrite Hlets.
      assert (is_Some (pendingExprs (initState order letExprs c) !! k)) as [e' He']
        by (apply Hp0; eauto).
      pose proof (inv_pending _ _ _ HI k) as Hk'.
      rewrite Hnone, lookup_empty, He' in Hk'.
      destruct (lets st !! k); [by eauto|done].
    + intros Hall. apply map_eq. intros k. rewrite lookup_empty.
      destruct (pendingExprs st !! k) as [e|] eqn:Hk; [|done].
      destruct (Inv_pending_sub _ _ _ _ _ HI Hk) as [Hk0 Hl].
      assert (is_Some (pendingExprs (initState order letExprs c) !! k)) as Hs by eauto.
      apply Hp0 in Hs as (e' & He' & Hu').
      specialize (Hall k e' He' Hu'). rewrite Hlets, Hl in Hall. by destruct Hall.
Qed.

(** [Eval] leaves the namespaces other than [let] as they are. *)
Lemma Eval_others (letExprs : Exprs) (c : Context cty) r X :
  Eval order letExprs c = Return r → X ≠ "let" →
  namespaces (resCtx r) !! X = namespaces c !! X.
Proof using order_perm.
  intros Hret HX. apply Eval_Return in Hret as (n & st & Hrun & Hctx & _).
  pose proof (evalRun_Inv order order_perm letExprs c) as HI. cbv zeta in HI.
  rewrite Hrun in HI. cbn [ends snd] in HI.
  rewrite Hctx, (inv_others _ _ _ HI X HX). simpl.
  destruct (HasNamespace c "let"); [done|]. simpl. by rewrite lookup_insert_ne.
Qed.

(** X4: when [Eval] returns, it has left every namespace of the context
    but [let] as it was.  If it has evaluated a let, the namespace [let] holds
    the evaluated values and nothing else: values that the context had under
    [let] before are gone.  If it has evaluated none, the context is the one
    it was given, with an empty namespace [let] added when it had none. *)
Theorem X4_Eval_context (letExprs : Exprs) (c : Context cty) r :
  Eval order letExprs c = Return r →
  (∀ X, X ≠ "let" → namespaces (resCtx r) !! X = namespaces c !! X) ∧
  (resLets r ≠ ∅ →
   namespaces (resCtx r) !! "let" = Some (Attributes (resLets r))) ∧
  (resLets r = ∅ →
   resCtx r = if HasNamespace c "let" then c else SetNamespace c "let" ∅).
Proof using order_perm.
  intros Hret. apply Eval_Return in Hret as (n & st & Hrun & Hctx & Hlets & _ & _).
  pose proof (evalRun_ends letExprs c
    (λ s, lets s = ∅ → ctx s = ctx (initState order letExprs c)) (λ _, True)) as Hends.
  cbv zeta in Hends. rewrite Hrun in Hends. cbn [ends snd] in Hends.
  destruct Hends as (HI & HK & _); [done|done| |done|].
  { intros s s' name expr _ HKs _ Hev.
    pose proof (evalPending_cases s name expr) as Hc. rewrite Hev in Hc.
    destruct Hc as [[errs ->]|(val & _ & _ & ->)]; simpl; [done|].
    intros Hempty. apply (f_equal (λ mp : gmap string (Value cty), mp !! name)) in Hempty.
    by rewrite lookup_insert_eq, lookup_empty in Hempty. }
  rewrite Hctx, Hlets. split; [|split].
  - intros X HX. rewrite (inv_others _ _ _ HI X HX). simpl.
    destruct (HasNamespace c "let"); [done|]. simpl. by rewrite lookup_insert_ne.
  - intros Hne. by destruct (inv_bound _ _ _ HI) as [Hb|[Hb _]].
  - intros Hempty. by rewrite (HK Hempty).
Qed.

(** *** The errors *)

(** What [checkVars] has appended. *)
Lemma checkVars_errs c (pending : Exprs) vars errs (P : Error → Prop) :
  Forall P errs →
  (∀ t : Traversal cty,
      t ∈ vars → HasNamespace c (RootName t) = false → P (unknownNamespace t)) →
  match checkVars c pending vars errs with
  | ScanPanic _ => True
  | ScanSkip errs' =>
      Forall P errs' ∧ ∃ b, b ∈ omap letRef vars ∧ is_Some (pending !! b)
  | ScanDone errs' =>
      Forall P errs' ∧
      (HasNamespace c "let" = true → ∀ b, b ∈ omap letRef vars → pending !! b = None)
  end.
Proof.
  revert errs.
  induction vars as [|t vars IH]; intros errs Herrs HP.
  - simpl. split; [done|]. intros _ b Hb. by apply elem_of_nil in Hb.
  - assert (∀ t' : Traversal cty,
              t' ∈ vars → HasNamespace c (RootName t') = false →
              P (unknownNamespace t')) as HP'
      by (intros t' Ht'; apply HP; by apply elem_of_cons; right).
    rewrite letDeps_cons. cbn [checkVars].
    destruct (HasNamespace c (RootName t)) eqn:Hns; simpl.
    + destruct (decide (RootName t = "let")) as [Hr|Hr].
      * rewrite bool_decide_eq_false_2 by (by intros []).
        destruct (steps t !! 0) as [[attrName rg| |]|] eqn:Hstep; try done.
        rewrite (letRef_attr _ _ _ Hr Hstep).
        case_bool_decide as Hp.
        -- split; [done|]. exists attrName. split; [by apply elem_of_cons; left|done].
        -- specialize (IH errs Herrs HP').
           destruct (checkVars c pending vars errs) as [msg|errs'|errs']; [done| |].
           ++ destruct IH as [HF (b & Hb & Hbp)]. split; [done|].
              exists b. split; [by apply elem_of_cons; right|done].
           ++ destruct IH as [HF Hdeps]. split; [done|].
              intros Hlet b Hb. apply elem_of_cons in Hb as [->|Hb]; [|by apply Hdeps].
              destruct (pending !! attrName) eqn:Hpa; [|done].
              destruct Hp. eauto.
      * rewrite (bool_decide_eq_true_2 _ Hr), (letRef_other _ Hr). by apply IH.
    + assert (letRef t = None ∨ HasNamespace c "let" = false) as Hor.
      { destruct (decide (RootName t = "let")) as [Hr|Hr].
        - right. by rewrite <- Hr.
        - left. by apply letRef_other. }
      assert (Forall P (Append errs (unknownNamespace t))) as Herrs'.
      { unfold Append. apply Forall_app. split; [done|].
        constructor; [|done]. apply HP; [by apply elem_of_cons; left|done]. }
      specialize (IH _ Herrs' HP').
      destruct (checkVars c pending vars _) as [msg|errs'|errs']; [done| |].
      * destruct IH as [HF (b & Hb & Hbp)]. split; [done|].
        exists b. split; [|done]. destruct (letRef t); [by apply elem_of_cons; right|done].
      * destruct IH as [HF Hdeps]. split; [done|].
        intros Hlet b Hb. destruct Hor as [Hnone|Hfalse]; [|congruence].
        rewrite Hnone in Hb. by apply Hdeps.
Qed.

(** What a visit does: it evaluates the expression, and then no let the
    expression refers to is pending, or it records errors for it, and then
    it has found a reference to a pending let if it records none. *)
Lemma evalPending_records (st st' : EvalState cty) name expr :
  evalPending st name expr = Return st' →
  (∃ val, ExprValue (Expression_ expr) (ctx st) = Ok val ∧
     st' = evaluated st name expr val ∧
     (HasNamespace (ctx st) "let" = true →
      ∀ b, b ∈ letDeps expr → pendingExprs st !! b = None)) ∨
  (∃ errs, st' = setErrs st name errs ∧
     Forall (reported (ctx st) name expr) errs ∧
     (errs = [] → ∃ b, b ∈ letDeps expr ∧ is_Some (pendingExprs st !! b))).
Proof.
  unfold evalPending.
  pose proof (checkVars_errs (ctx st) (pendingExprs st) (Variables (Expression_ expr)) L
                (reported (ctx st) name expr)) as Hscan.
  assert (∀ t : Traversal cty,
            t ∈ Variables (Expression_ expr) →
            HasNamespace (ctx st) (RootName t) = false →
            reported (ctx st) name expr (unknownNamespace t)) as Hunknown.
  { intros t Ht Hns. left. by exists t. }
  destruct (checkVars _ _ _ _) as [msg|errs|errs]; [done| |].
  - intros [= <-]. right. exists errs.
    destruct Hscan as [HF Hb]; [by constructor|done|]. done.
  - destruct Hscan as [HF Hdeps]; [by constructor|done|].
    destruct errs as [|err errs]; simpl.
    + destruct (ExprValue _ _) as [val|err] eqn:Hval; intros [= <-].
      * left. exists val. done.
      * right. eexists. split; [done|]. split; [|done].
        unfold Append. simpl. constructor; [|done]. right. by exists (ctx st), err.
    + intros [= <-]. right. eexists. split; [done|]. split; [done|done].
Qed.

Lemma evalPass_recorded n (st st' : EvalState cty) :
  evalPass (resetAmount st) (order n (pendingExprs st)) = Return st' →
  amountEvaluated st' = 0 → recorded st'.
Proof using order_perm.
  intros Hpass Hzero.
  pose proof (evalPass_inv
    (λ rest s, amountEvaluated s = 0 →
       pendingExprs s = pendingExprs st ∧ ctx s = ctx st ∧
       ∀ a ea, pendingExprs st !! a = Some ea → a ∉ rest.*1 →
         ∃ l, pendingExprsErrs s !! a = Some l ∧
              Forall (reported (ctx st) a ea) l ∧
              (l = [] → ∃ b, b ∈ letDeps ea ∧ is_Some (pendingExprs st !! b)))
    True (order n (pendingExprs st)) (resetAmount st)) as Hinv.
  rewrite Hpass in Hinv. cbn [ends] in Hinv.
  destruct Hinv as (Hsame & Hctx & Hrec); [| | | |done|].
  - apply (order_NoDup order order_perm).
  - intros name expr Hin. by apply (order_elem order order_perm) in Hin.
  - intros _. split; [done|]. split; [done|]. intros a ea Ha Hnot. destruct Hnot.
    apply (order_keys order order_perm). eauto.
  - intros s name expr rest HK Hpn Hname.
    destruct (evalPending s name expr) as [s'| |] eqn:Hev; cbn [ends]; [|done|].
    + apply evalPending_records in Hev
        as [(val & _ & -> & _)|(errs & -> & Hkind & Hnil)]; [done|].
      cbn [amountEvaluated setErrs pendingExprs pendingExprsErrs ctx].
      intros Hz. destruct (HK Hz) as (Hsame & Hctx & HK').
      split; [done|]. split; [done|].
      intros a ea Ha Hnot. destruct (decide (a = name)) as [->|Hne].
      * exists errs. rewrite lookup_insert_eq. split; [done|].
        assert (ea = expr) as -> by (rewrite <- Hsame in Ha; congruence).
        rewrite <- Hsame, <- Hctx. done.
      * rewrite lookup_insert_ne by done. apply HK'; [done|].
        rewrite fmap_cons. intros [->|Hin]%elem_of_cons; done.
    + pose proof (evalPending_cases s name expr) as Hc. by rewrite Hev in Hc.
  - intros a ea Ha. rewrite Hsame in Ha |- *. rewrite Hctx.
    apply (Hrec a ea Ha). apply not_elem_of_nil.
Qed.

Lemma AsError_Some (l errs : list Error) : AsError l = Some errs → errs = l ∧ l ≠ [].
Proof. destruct l; [done|]. by intros [= <-]. Qed.

(** X5: the error [Eval] returns holds one error for each let it names,
    in the same order, each of kind [lets eval].  The error for a let
    either wraps the error [undefined let <name>] at the range of the
    expression of the let and nothing else, and then the expression refers
    to a let that the error names as well; or it wraps the errors recorded
    for the let at its last visit, at least one, each the unknown namespace
    of a reference of the expression whose root the given context does not
    have, or the failure of the evaluation of the expression. *)
Theorem X5_Eval_error_report (letExprs : Exprs) (c : Context cty) r errs :
  Eval order letExprs c = Return r → resErr r = Some errs →
  Forall2 (λ k err,
      ∃ e, letExprs !! k = Some e ∧ ¬ bareUnset e ∧
           errKind err = Some ErrEval ∧
           ((errCauses err = [E None (Some (ExprRange (Expression_ e)))
                                ("undefined let " +:+ k) []] ∧
             ∃ b, b ∈ letDeps e ∧ b ∈ resFor r) ∨
            (errCauses err ≠ [] ∧ Forall (reported c k e) (errCauses err))))
    (resFor r) errs.
Proof using order_perm.
  intros Hret Herrs.
  apply Eval_Return in Hret as (n & st & Hrun & _ & _ & Hfor & Herr).
  pose proof (evalRun_ends letExprs c (λ _, True) (λ s, amountEvaluated s = 0 → recorded s))
    as Hends.
  cbv zeta in Hends. rewrite Hrun in Hends. cbn [ends snd] in Hends.
  destruct Hends as (HI & _ & Hend); [done|done|done| |].
  { intros n' s s' _ _ _ Hpass Hz. by eapply evalPass_recorded. }
  rewrite Herr in Herrs. apply AsError_Some in Herrs as [-> Hne].
  assert (∀ b, b ∈ resFor r ↔ is_Some (pendingExprs st !! b)) as Hnames.
  { intros b. rewrite Hfor. apply (reportErrors_names order order_perm). }
  set (names := resFor r) in Hnames |- * at 1. rewrite Hfor.
  unfold reportErrors. rewrite <- !list_fmap_compose.
  apply Forall2_fmap, Forall_Forall2_diag, Forall_forall.
  intros [k e] Hin. simpl.
  apply (order_elem order order_perm) in Hin.
  destruct (Inv_pending_sub _ _ _ _ _ HI Hin) as [Hk0 _].
  pose proof Hk0 as Hk. apply (initState_sub order order_perm) in Hk.
  exists e. split; [done|]. split.
  { rewrite (initState_pending order order_perm), Hk in Hk0.
    intros Hb%isUnset_bareUnset. by rewrite Hb in Hk0. }
  split; [apply pendingError_kind|].
  destruct Hend as [Hempty|[Hz Hrec]]; [by rewrite Hempty, lookup_empty in Hin|].
  destruct (Hrec Hz k e Hin) as (l & Hl & Hkind & Hnil).
  unfold pendingError. rewrite Hl. simpl. destruct l as [|err l]; simpl.
  - left. split; [done|]. destruct Hnil as (b & Hb & Hbp); [done|].
    exists b. split; [done|]. by apply Hnames.
  - right. split; [done|]. eapply Forall_impl; [exact Hkind|].
    intros err' [Hu|Hfail]; [left|by right].
    by apply (unknownOf_init order letExprs c st).
Qed.

(** *** The evaluated lets *)

Lemma evaluatedIn_mono c0 (all all' : gmap string (Value cty)) a e v :
  all ⊆ all' → evaluatedIn c0 all a e v → evaluatedIn c0 all' a e v.
Proof.
  intros Hsub (c' & Hval & Hothers & Hc'). exists c'. split; [done|]. split; [done|].
  destruct Hc' as [->|(sub & Hs & Ha & Hns)]; [by left|].
  right. exists sub. split; [by etrans|done].
Qed.

Lemma evalRun_evaluatedOk (letExprs : Exprs) c :
  let st0 := initState order letExprs c in
  ends True (evalRun order letExprs c)
       (λ r, Inv (pendingExprs st0) (ctx st0) r.2
             ∧ evaluatedOk (pendingExprs st0) (ctx st0) r.2).
Proof using order_perm.
  intros st0.
  eapply ends_impl;
    [|apply (evalRun_ends letExprs c (evaluatedOk (pendingExprs st0) (ctx st0))
               (λ _, True))].
  - intros [n st] (HI & HK & _). done.
  - intros a v Hv. change ((∅ : gmap string (Value cty)) !! a = Some v) in Hv.
    by rewrite lookup_empty in Hv.
  - done.
  - intros s s' name expr HI HK Hp Hev.
    destruct (Inv_pending_sub _ _ _ _ _ HI Hp) as [Hp0 Hl].
    apply evalPending_records in Hev
      as [(val & Hval & -> & Hdeps)|(errs & -> & _ & _)]; [|done].
    specialize (Hdeps (inv_let _ _ _ HI)).
    assert (lets s ⊆ <[name := {| VOrigin := Origin expr; Value_ := val |}]> (lets s))
      as Hsub by (by apply insert_subseteq).
    intros a v. cbn [lets evaluated].
    destruct (decide (a = name)) as [->|Hne].
    + rewrite lookup_insert_eq. intros [= <-]. exists expr. split; [done|]. split.
      * exists (ctx s). split; [done|]. split; [apply (inv_others _ _ _ HI)|].
        destruct (inv_bound _ _ _ HI) as [Hb|[_ Hb]]; [|by left].
        right. exists (lets s). done.
      * intros b Hb Hb0. specialize (Hdeps b Hb).
        rewrite (inv_pending _ _ _ HI b) in Hdeps.
        destruct (lets s !! b) as [vb|] eqn:Hvb.
        -- exists vb. by apply (lookup_weaken _ _ _ _ Hvb).
        -- destruct Hb0 as [eb Hb0]. unfold st0 in *. congruence.
    + rewrite lookup_insert_ne by done. intros Hv.
      destruct (HK a v Hv) as (e & He & Hin & Hd). exists e. split; [done|]. split.
      * by eapply evaluatedIn_mono.
      * intros b Hb Hb0. destruct (Hd b Hb Hb0) as [vb Hvb].
        exists vb. by apply (lookup_weaken _ _ _ _ Hvb).
  - done.
Qed.

(** X6: a let is evaluated after the lets it refers to: when [Eval]
    returns, every let that the expression of an evaluated let refers to, and
    that the map defines and does not unset, is evaluated as well; each
    evaluated let carries the origin of its expression. *)
Theorem X6_Eval_dependencies_first (letExprs : Exprs) (c : Context cty) r a v :
  Eval order letExprs c = Return r → resLets r !! a = Some v →
  ∃ e, letExprs !! a = Some e ∧ isUnset e = false ∧ VOrigin v = Origin e ∧
       ∀ b eb, b ∈ letDeps e → letExprs !! b = Some eb → isUnset eb = false →
               is_Some (resLets r !! b).
Proof using order_perm.
  intros Hret Hv. apply Eval_Return in Hret as (n & st & Hrun & _ & Hlets & _ & _).
  pose proof (evalRun_evaluatedOk letExprs c) as Hends.
  cbv zeta in Hends. rewrite Hrun in Hends. cbn [ends snd] in Hends.
  destruct Hends as [HI HK]. rewrite Hlets in Hv |- *.
  destruct (HK a v Hv) as (e & He0 & _ & Hdeps).
  destruct (inv_origin _ _ _ HI a v Hv) as (e' & He' & Horigin).
  assert (e' = e) as -> by congruence.
  pose proof He0 as He. apply (initState_sub order order_perm) in He.
  exists e. split; [done|]. split.
  { rewrite (initState_pending order order_perm), He in He0. by destruct (isUnset e). }
  split; [done|]. intros b eb Hb Heb Hu. apply Hdeps; [done|].
  rewrite (initState_pending order order_perm), Heb, Hu. eauto.
Qed.

(** X7: the value of an evaluated let is the value its expression has in
    a context that differs from the one [Eval] was given in the namespace
    [let] only; that namespace holds there the values of lets evaluated
    earlier, the let itself not among them, or it is the one [Eval] started
    with. *)
Theorem X7_Eval_values (letExprs : Exprs) (c : Context cty) r a v :
  Eval order letExprs c = Return r → resLets r !! a = Some v →
  ∃ e c', letExprs !! a = Some e ∧
    ExprValue (Expression_ e) c' = Ok (Value_ v) ∧
    (∀ X, X ≠ "let" → namespaces c' !! X = namespaces c !! X) ∧
    (c' = (if HasNamespace c "let" then c else SetNamespace c "let" ∅) ∨
     ∃ sub : gmap string (Value cty),
       sub ⊆ resLets r ∧ sub !! a = None ∧
       namespaces c' !! "let" = Some (Attributes sub)).
Proof using order_perm.
  intros Hret Hv. apply Eval_Return in Hret as (n & st & Hrun & _ & Hlets & _ & _).
  pose proof (evalRun_evaluatedOk letExprs c) as Hends.
  cbv zeta in Hends. rewrite Hrun in Hends. cbn [ends snd] in Hends.
  destruct Hends as [HI HK]. rewrite Hlets in Hv |- *.
  destruct (HK a v Hv) as (e & He0 & (c' & Hval & Hothers & Hc') & _).
  apply (initState_sub order order_perm) in He0.
  exists e, c'. split; [done|]. split; [done|]. split; [|done].
  intros X HX. rewrite (Hothers X HX). simpl.
  destruct (HasNamespace c "let"); [done|]. simpl. by rewrite lookup_insert_ne.
Qed.

(** X8: a map of expressions that are all [unset], the empty map among
    them, evaluates to no lets and no error; the context gets an
    empty namespace [let] if it had none and is otherwise left as it was. *)
Theorem X8_Eval_nothing_to_evaluate (letExprs : Exprs) (c : Context cty) :
  (∀ k e, letExprs !! k = Some e → isUnset e = true) →
  Eval order letExprs c
  = Return {| resCtx := if HasNamespace c "let" then c else SetNamespace c "let" ∅;
              resLets := ∅; resFor := []; resErr := None |}.
Proof using order_perm.
  intros Hall.
  assert (pendingExprs (initState order letExprs c) = ∅) as Hempty.
  { apply map_eq. intros k. rewrite (initState_pending order order_perm), lookup_empty.
    destruct (letExprs !! k) as [e|] eqn:Hk; [|done]. by rewrite (Hall k e Hk). }
  unfold Eval, evalRun. rewrite evalLoop_S.
  rewrite bool_decide_eq_true_2 by done.
  unfold reportErrors. rewrite Hempty.
  rewrite (proj2 (order_nil order order_perm 2 ∅) eq_refl). done.
Qed.

End Laws.

(** *** The loader *)

Section LoadLaws.
Context {cty Body : Type}.

#[local] Abbreviation Exprs := (gmap string (Expr cty)).

Variable SortedList : gmap string (Attribute cty) → list (Attribute cty).
Variable NewMapExpr : MapBlock Body → result Error (Expression cty).
Variable order : nat → Exprs → list (string * Expr cty).

Lemma loadAttrs_snoc (attrs : list (Attribute cty)) attr (acc : Exprs) :
  loadAttrs (attrs ++ [attr]) acc = <[AttrName attr := attrExpr attr]> (loadAttrs attrs acc).
Proof. unfold loadAttrs. by rewrite foldl_app. Qed.

Lemma loadAttrs_other (attrs : list (Attribute cty)) (acc : Exprs) k :
  k ∉ AttrName <$> attrs → loadAttrs attrs acc !! k = acc !! k.
Proof.
  induction attrs as [|attr attrs IH] using rev_ind; [done|].
  rewrite fmap_app, loadAttrs_snoc. simpl. intros Hnot.
  rewrite lookup_insert_ne.
  - apply IH. intros Hin. apply Hnot. apply elem_of_app. by left.
  - intros <-. apply Hnot. apply elem_of_app. right. by apply list_elem_of_singleton.
Qed.

Lemma loadAttrs_elem (attrs : list (Attribute cty)) (acc : Exprs) attr :
  NoDup (AttrName <$> attrs) → attr ∈ attrs →
  loadAttrs attrs acc !! AttrName attr = Some (attrExpr attr).
Proof.
  induction attrs as [|attr' attrs IH] using rev_ind; [by intros _ ?%elem_of_nil|].
  rewrite fmap_app, loadAttrs_snoc. simpl.
  intros [Hnd [Hdisj _]]%NoDup_app [Hin|Hin%list_elem_of_singleton]%elem_of_app.
  - rewrite lookup_insert_ne; [by apply IH|].
    intros Heq. apply (Hdisj (AttrName attr)).
    + apply list_elem_of_fmap. by exists attr.
    + rewrite <- Heq. by apply list_elem_of_singleton.
  - subst. by rewrite lookup_insert_eq.
Qed.

(** What the loop over the map blocks has done when it returns a map. *)
Lemma loadBlocks_Ok attributes blocks (acc exprs : Exprs) :
  loadBlocks NewMapExpr attributes blocks acc = Return (Ok exprs) →
  (∀ k, is_Some (acc !! k) → is_Some (exprs !! k)) ∧
  (∀ b, b ∈ blocks →
     ∃ label, Labels b !! 0 = Some label ∧ attributes !! label = None ∧
              is_Some (exprs !! label)) ∧
  (∀ k e, exprs !! k = Some e →
     acc !! k = Some e ∨
     ∃ b, b ∈ blocks ∧ Labels b !! 0 = Some k ∧
          NewMapExpr b = Ok (Expression_ e) ∧ RawOrigins b !! 0 = Some (Origin e)).
Proof.
  revert acc. induction blocks as [|b blocks IH]; intros acc; simpl.
  - intros [= <-]. split; [done|]. split; [by intros b ?%elem_of_nil|]. by left.
  - destruct (Labels b !! 0) as [varName|] eqn:Hlabel; [|done].
    case_bool_decide as Hattr; [done|].
    destruct (NewMapExpr b) as [mapExpr|err] eqn:Hnew; [|done].
    destruct (RawOrigins b !! 0) as [origin|] eqn:Horigin; [|done].
    intros Hrest. apply IH in Hrest as (Hkeep & Hblocks & Hfrom).
    assert (attributes !! varName = None) as Hnone.
    { destruct (attributes !! varName) eqn:Hv; [|done]. destruct Hattr. eauto. }
    split; [|split].
    + intros k Hk. apply Hkeep. apply lookup_insert_is_Some'. by right.
    + intros b' [->|Hin]%elem_of_cons.
      * exists varName. split; [done|]. split; [done|].
        apply Hkeep. rewrite lookup_insert_eq. eauto.
      * by apply Hblocks.
    + intros k e Hk. destruct (Hfrom k e Hk) as [Hacc|(b' & Hin & Hb')].
      * destruct (decide (varName = k)) as [->|Hne].
        -- rewrite lookup_insert_eq in Hacc. injection Hacc as <-.
           right. exists b. split; [by apply elem_of_cons; left|done].
        -- rewrite lookup_insert_ne in Hacc by done. by left.
      * right. exists b'. split; [by apply elem_of_cons; right|done].
Qed.

(** X9: when [loadExprs] returns a map, the map has under the name of
    every attribute of the block the expression of the attribute with the
    range of the attribute as its origin; every map block has a label that is
    not the name of an attribute and is a key of the map; and every other
    entry of the map comes from a map block with the key as its label: its
    expression is the map expression made of the block and its origin the
    first raw origin of the block. *)
Theorem X9_loadExprs_loaded (letblock : MergedBlock cty Body) (exprs : Exprs) :
  SortedList (MAttributes letblock) ≡ₚ (map_to_list (MAttributes letblock)).*2 →
  (∀ k attr, MAttributes letblock !! k = Some attr → AttrName attr = k) →
  loadExprs SortedList NewMapExpr letblock = Return (Ok exprs) →
  (∀ k attr, MAttributes letblock !! k = Some attr →
     exprs !! k = Some {| Origin := AttrRange attr; Expression_ := AttrExpr attr |}) ∧
  (∀ b, b ∈ Blocks letblock →
     ∃ label, Labels b !! 0 = Some label ∧ MAttributes letblock !! label = None ∧
              is_Some (exprs !! label)) ∧
  (∀ k e, exprs !! k = Some e → MAttributes letblock !! k = None →
     ∃ b, b ∈ Blocks letblock ∧ Labels b !! 0 = Some k ∧
          NewMapExpr b = Ok (Expression_ e) ∧ RawOrigins b !! 0 = Some (Origin e)).
Proof.
  intros Hsorted Hnames Hload. unfold loadExprs in Hload.
  apply loadBlocks_Ok in Hload as (Hkeep & Hblocks & Hfrom).
  assert (∀ attr, attr ∈ SortedList (MAttributes letblock)
                  ↔ MAttributes letblock !! AttrName attr = Some attr) as Helem.
  { intros attr. rewrite Hsorted, list_elem_of_fmap. split.
    - intros ([k attr'] & -> & Hin). apply elem_of_map_to_list in Hin. simpl.
      by rewrite (Hnames k attr' Hin).
    - intros Hin. exists (AttrName attr, attr). split; [done|].
      by apply elem_of_map_to_list. }
  assert (NoDup (AttrName <$> SortedList (MAttributes letblock))) as Hnd.
  { rewrite Hsorted. rewrite <- list_fmap_compose.
    rewrite (list_fmap_ext (AttrName ∘ snd) fst (map_to_list (MAttributes letblock))).
    - apply NoDup_fst_map_to_list.
    - intros i [k attr] Hi. simpl. apply Hnames.
      apply elem_of_map_to_list. by eapply list_elem_of_lookup_2. }
  split; [|split; [done|]].
  - intros k attr Hk.
    assert (attr ∈ SortedList (MAttributes letblock)) as Hin
      by (apply Helem; by rewrite (Hnames k attr Hk)).
    pose proof (loadAttrs_elem _ ∅ attr Hnd Hin) as Hattr.
    rewrite (Hnames k attr Hk) in Hattr. unfold attrExpr in Hattr.
    destruct (Hkeep k) as [e He]; [by rewrite Hattr; eauto|].
    destruct (Hfrom k e He) as [Hacc|(b & Hb & Hlabel & _)]; [congruence|].
    destruct (Hblocks b Hb) as (label & Hlabel' & Hnone & _).
    congruence.
  - intros k e Hk Hnone. destruct (Hfrom k e Hk) as [Hacc|Hb]; [|done].
    rewrite loadAttrs_other, lookup_empty in Hacc; [done|].
    intros (attr & -> & Hin)%list_elem_of_fmap. apply Helem in Hin. congruence.
Qed.

Lemma loadBlocks_Err attributes blocks (acc : Exprs) err :
  loadBlocks NewMapExpr attributes blocks acc = Return (Err err) →
  errKind err = Some ErrRedefined ∨ errKind err = Some ErrEval.
Proof.
  revert acc. induction blocks as [|b blocks IH]; intros acc; simpl; [done|].
  destruct (Labels b !! 0) as [varName|]; [|done].
  case_bool_decide; [intros [= <-]; by left|].
  destruct (NewMapExpr b) as [mapExpr|err']; [|intros [= <-]; by right].
  destruct (RawOrigins b !! 0) as [origin|]; [|done].
  apply IH.
Qed.

(** X10: the error [Load] returns is either the single error of the
    loader, of kind [lets redefined] or [lets eval], and then the context is
    the one [Load] was given; or it is the list of errors of [Eval], which is
    not empty and holds errors of kind [lets eval] only.  [Load] returns no
    error only when the block was loaded and [Eval] returned none; the
    context is then the one [Eval] has left. *)
Theorem X10_Load_errors (letblock : MergedBlock cty Body) (c c' : Context cty) res :
  Load SortedList NewMapExpr order letblock c = Return (c', res) →
  match res with
  | Some (ErrorOf err) =>
      c' = c ∧ (errKind err = Some ErrRedefined ∨ errKind err = Some ErrEval)
  | Some (ListOf errs) =>
      errs ≠ [] ∧ Forall (λ err, errKind err = Some ErrEval) errs
  | None =>
      ∃ exprs r, loadExprs SortedList NewMapExpr letblock = Return (Ok exprs) ∧
        Lets.Eval order exprs c = Return r ∧ resErr r = None ∧ c' = resCtx r
  end.
Proof.
  unfold Load.
  destruct (loadExprs SortedList NewMapExpr letblock) as [[exprs|err]| |] eqn:Hload;
    [| |done..].
  - destruct (Lets.Eval order exprs c) as [r| |] eqn:Hev; [|done..].
    intros [= <- <-].
    pose proof (Eval_Return order exprs c r Hev) as (n & st & _ & _ & _ & Hfor & Herr).
    destruct (resErr r) as [errs|] eqn:Hres; simpl.
    + symmetry in Herr. apply AsError_Some in Herr as [-> Hne]. split; [done|].
      apply reportErrors_kind.
    + by exists exprs, r.
  - intros [= <- <-]. split; [done|]. by eapply loadBlocks_Err.
Qed.

End LoadLaws.
End LetsLaws.

(** ** The let evaluator: what a run ends in *)

Module LetsOutcomes.
Import Lets LetsFacts LetsLaws.

Section Outcomes.
Context {cty : Type}.

#[local] Abbreviation Exprs := (gmap string (Expr cty)).

Variable order : nat → Exprs → list (string * Expr cty).

(** A [range] produces every entry of the map once, in some order. *)
Hypothesis order_perm : ∀ n (mp : Exprs), order n mp ≡ₚ map_to_list mp.

(** *** The loop over the references *)

Lemma checkVars_app c (pending : Exprs) pre rest errs :
  checkVars c pending (pre ++ rest) errs
  = match checkVars c pending pre errs with
    | ScanDone errs' => checkVars c pending rest errs'
    | other => other
    end.
Proof.
  revert errs. induction pre as [|t pre IH]; intros errs; [done|].
  cbn [app checkVars].
  destruct (negb (HasNamespace c (RootName t))); [apply IH|].
  case_bool_decide; [apply IH|].
  destruct (steps t !! 0) as [[attrName rg| |]|]; try done.
  case_bool_decide; [done|apply IH].
Qed.

Lemma checkVars_grows c (pending : Exprs) vars errs :
  match checkVars c pending vars errs with
  | ScanPanic _ => True
  | ScanSkip errs' | ScanDone errs' => ∃ more, errs' = errs ++ more
  end.
Proof.
  revert errs. induction vars as [|t vars IH]; intros errs.
  - simpl. exists []. by rewrite app_nil_r.
  - cbn [checkVars].
    destruct (negb (HasNamespace c (RootName t))).
    + specialize (IH (Append errs (unknownNamespace t))).
      destruct (checkVars c pending vars _) as [msg|errs'|errs']; [done|..];
        destruct IH as [more ->]; unfold Append; rewrite <- app_assoc; eauto.
    + case_bool_decide; [apply IH|].
      destruct (steps t !! 0) as [[attrName rg| |]|]; try done.
      case_bool_decide; [|apply IH]. exists []. by rewrite app_nil_r.
Qed.

(** Only a reference to [let] that is no attribute access makes the loop
    panic. *)
Lemma checkVars_panic c (pending : Exprs) vars errs msg :
  checkVars c pending vars errs = ScanPanic msg →
  ∃ t, t ∈ vars ∧ otherAccess t.
Proof.
  revert errs. induction vars as [|t vars IH]; intros errs; [done|].
  cbn [checkVars].
  assert (∀ errs', checkVars c pending vars errs' = ScanPanic msg →
                   ∃ t0, t0 ∈ t :: vars ∧ otherAccess t0) as Hrest.
  { intros errs' H. apply IH in H as (t0 & Ht0 & Ho).
    exists t0. split; [by apply elem_of_cons; right|done]. }
  destruct (negb (HasNamespace c (RootName t))); [apply Hrest|].
  case_bool_decide as Hroot; [apply Hrest|].
  assert (RootName t = "let") as Hlet by (by destruct (decide (RootName t = "let"))).
  destruct (steps t !! 0) as [[attrName rg| |]|] eqn:Hstep.
  - case_bool_decide; [done|apply Hrest].
  - intros _. exists t. split; [by apply elem_of_cons; left|]. split; [done|].
    intros ? ?. by rewrite Hstep.
  - intros _. exists t. split; [by apply elem_of_cons; left|]. split; [done|].
    intros ? ?. by rewrite Hstep.
  - intros _. exists t. split; [by apply elem_of_cons; left|]. split; [done|].
    intros ? ?. by rewrite Hstep.
Qed.

(** A reference to [let] that is no attribute access is not passed: the
    loop leaves the expression at a reference before it, or panics. *)
Lemma checkVars_other c (pending : Exprs) pre t post errs :
  HasNamespace c "let" = true → otherAccess t →
  match checkVars c pending (pre ++ t :: post) errs with
  | ScanDone _ => False
  | ScanPanic _ => True
  | ScanSkip errs' => checkVars c pending pre errs = ScanSkip errs'
  end.
Proof.
  intros Hlet [Hroot Hstep]. rewrite checkVars_app.
  destruct (checkVars c pending pre errs) as [msg|errs'|errs']; [done..|].
  cbn [checkVars]. rewrite Hroot, Hlet. cbn [negb].
  rewrite bool_decide_eq_false_2 by (by intros []).
  destruct (steps t !! 0) as [[attrName rg| |]|] eqn:Hs; try done.
  by destruct (Hstep attrName rg).
Qed.

(** The unknown namespace of a reference that the loop passes is among the
    errors. *)
Lemma checkVars_unknown_at c (pending : Exprs) pre t post errs :
  HasNamespace c (RootName t) = false →
  match checkVars c pending (pre ++ t :: post) errs with
  | ScanPanic _ => True
  | ScanSkip errs' =>
      checkVars c pending pre errs = ScanSkip errs' ∨ unknownNamespace t ∈ errs'
  | ScanDone errs' => unknownNamespace t ∈ errs'
  end.
Proof.
  intros Hns. rewrite checkVars_app.
  destruct (checkVars c pending pre errs) as [msg|errs1|errs1]; [done|by left|].
  cbn [checkVars]. rewrite Hns. cbn [negb].
  pose proof (checkVars_grows c pending post (Append errs1 (unknownNamespace t))) as Hg.
  assert (∀ more, unknownNamespace t ∈ Append errs1 (unknownNamespace t) ++ more) as Hin.
  { intros more. unfold Append. rewrite !elem_of_app, list_elem_of_singleton. tauto. }
  destruct (checkVars c pending post _) as [msg|errs'|errs']; [done|..];
    destruct Hg as [more ->]; [right|]; apply Hin.
Qed.

(** *** The last pass *)

Lemma evalPass_visitedLast n (st st' : EvalState cty) :
  evalPass (resetAmount st) (order n (pendingExprs st)) = Return st' →
  amountEvaluated st' = 0 → visitedLast st'.
Proof using order_perm.
  intros Hpass Hzero.
  pose proof (evalPass_inv
    (λ rest s, amountEvaluated s = 0 →
       pendingExprs s = pendingExprs st ∧ ctx s = ctx st ∧
       ∀ a ea, pendingExprs st !! a = Some ea → a ∉ rest.*1 →
         ∃ l, pendingExprsErrs s !! a = Some l ∧
              lastVisitIn (ctx st) (pendingExprs st) a ea l)
    True (order n (pendingExprs st)) (resetAmount st)) as Hinv.
  rewrite Hpass in Hinv. cbn [ends] in Hinv.
  destruct Hinv as (Hsame & Hctx & Hrec); [| | | |done|].
  - apply (order_NoDup order order_perm).
  - intros name expr Hin. by apply (order_elem order order_perm) in Hin.
  - intros _. split; [done|]. split; [done|]. intros a ea Ha Hnot. destruct Hnot.
    apply (order_keys order order_perm). eauto.
  - intros s name expr rest HK Hpn Hname.
    destruct (evalPending s name expr) as [s'| |] eqn:Hev; cbn [ends]; [|done|].
    + intros Hz.
      assert (amountEvaluated s = 0) as Hz0.
      { pose proof (evalPending_amount s s' name expr Hev). lia. }
      destruct (HK Hz0) as (Hsame & Hctx & HK').
      assert (∃ l, s' = setErrs s name l ∧
                   lastVisitIn (ctx st) (pendingExprs st) name expr l) as (l & -> & Hl).
      { unfold evalPending in Hev. unfold lastVisitIn. rewrite <- Hsame, <- Hctx.
        destruct (checkVars _ _ _ _) as [msg|errs|errs]; [done| |].
        - injection Hev as <-. by exists errs.
        - destruct (AsError errs) eqn:Has.
          + injection Hev as <-. by exists errs.
          + destruct (ExprValue _ _) as [val|cause] eqn:Hval.
            * injection Hev as <-. simpl in Hz. lia.
            * injection Hev as <-. eexists. split; [done|].
              destruct errs; [|done]. exists cause. done. }
      cbn [setErrs pendingExprs pendingExprsErrs ctx].
      split; [done|]. split; [done|].
      intros a ea Ha Hnot. destruct (decide (a = name)) as [->|Hne].
      * exists l. rewrite lookup_insert_eq. split; [done|].
        assert (ea = expr) as -> by (rewrite <- Hsame in Ha; congruence). done.
      * rewrite lookup_insert_ne by done. apply HK'; [done|].
        rewrite fmap_cons. intros [->|Hin]%elem_of_cons; done.
    + pose proof (evalPending_cases s name expr) as Hc. by rewrite Hev in Hc.
  - intros a ea Ha. rewrite Hsame in Ha |- *. rewrite Hctx.
    apply (Hrec a ea Ha). apply not_elem_of_nil.
Qed.

(** The main loop ends; it panics only when an expression has a reference
    to [let] that is no attribute access; and where it returns with lets
    pending, each has the errors of a visit in the state the loop ends
    in. *)
Lemma evalRun_outcome (letExprs : Exprs) c (K : EvalState cty → Prop) :
  let st0 := initState order letExprs c in
  let I0 := Inv (pendingExprs st0) (ctx st0) in
  K st0 →
  (∀ st, K st → K (resetAmount st)) →
  (∀ st st' name expr,
      I0 st → K st → pendingExprs st !! name = Some expr →
      evalPending st name expr = Return st' → K st') →
  ends (hasOtherAccess letExprs) (evalRun order letExprs c)
       (λ r, I0 r.2 ∧ K r.2 ∧ (pendingExprs r.2 = ∅ ∨ visitedLast r.2)).
Proof using order_perm.
  intros st0 I0 HK0 HKreset HKstep. unfold evalRun. fold st0.
  pose proof (evalLoop_inv order order_perm (λ s, I0 s ∧ K s)
                (λ s, amountEvaluated s = 0 → visitedLast s)
                (hasOtherAccess letExprs)) as Hloop.
  assert (ends (hasOtherAccess letExprs)
            (evalLoop order (S (size (pendingExprs st0))) 2 st0)
            (λ r, (I0 r.2 ∧ K r.2) ∧
                  (pendingExprs r.2 = ∅ ∨
                   (amountEvaluated r.2 = 0 ∧
                    (amountEvaluated r.2 = 0 → visitedLast r.2))))) as Hends.
  { apply Hloop.
    - intros s [HI HK]. split; [by apply Inv_reset|by apply HKreset].
    - intros s name expr [HI HK] Hp.
      pose proof (evalPending_cases s name expr) as Hc.
      destruct (evalPending s name expr) as [s'|msg|] eqn:Hev; cbn [ends]; [| |done].
      + split; [by eapply Inv_step|]. exact (HKstep s s' name expr HI HK Hp Hev).
      + destruct Hc as [msg' Hscan].
        apply checkVars_panic in Hscan as (t & Ht & Ho).
        exists name, expr, t. split; [|done].
        destruct (Inv_pending_sub _ _ _ _ _ HI Hp) as [Hp0 _].
        by apply (initState_sub order order_perm) in Hp0.
    - intros n s s' _ _ Hpass Hz. by eapply evalPass_visitedLast.
    - lia.
    - split; [apply Inv_init|done]. }
  destruct (evalLoop order _ 2 st0) as [[n st]| |]; cbn [ends snd] in *; [|done..].
  destruct Hends as [[? ?] Hend]. split; [done|]. split; [done|].
  destruct Hend as [?|[Hz Hv]]; [by left|right; by apply Hv].
Qed.

(** The error for a pending let stands in the list where its name stands
    in the list of the names. *)
Lemma reportErrors_at n (st : EvalState cty) a ea :
  pendingExprs st !! a = Some ea →
  ∃ i, (reportErrors order n st).*1 !! i = Some a ∧
       (reportErrors order n st).*2 !! i
       = Some (pendingError (pendingExprsErrs st) a ea).
Proof using order_perm.
  intros Ha. apply (order_elem order order_perm n) in Ha.
  apply list_elem_of_lookup in Ha as [i Hi]. exists i.
  unfold reportErrors. rewrite !list_lookup_fmap, Hi. done.
Qed.


(** *** What Eval returns *)

(** What [Eval] makes of the state its main loop ends in. *)
Lemma Eval_outcome (letExprs : Exprs) c (K : EvalState cty → Prop)
    (P : EvalResult cty → Prop) :
  let st0 := initState order letExprs c in
  let I0 := Inv (pendingExprs st0) (ctx st0) in
  K st0 →
  (∀ st, K st → K (resetAmount st)) →
  (∀ st st' name expr,
      I0 st → K st → pendingExprs st !! name = Some expr →
      evalPending st name expr = Return st' → K st') →
  (∀ n st,
      I0 st → K st → (pendingExprs st = ∅ ∨ visitedLast st) →
      P {| resCtx := ctx st; resLets := lets st;
           resFor := (reportErrors order n st).*1;
           resErr := AsError ((reportErrors order n st).*2) |}) →
  ends (hasOtherAccess letExprs) (Eval order letExprs c) P.
Proof using order_perm.
  intros st0 I0 HK0 HKreset HKstep HP.
  pose proof (evalRun_outcome letExprs c K HK0 HKreset HKstep) as Hrun.
  unfold Eval. destruct (evalRun order letExprs c) as [[n st]| |]; cbn [ends snd] in *;
    [|done..].
  destruct Hrun as (HI & HK & Hend). by apply HP.
Qed.

(** A let with a reference that the loop over the references does not get
    past stays pending. *)
Lemma stays_pending (letExprs : Exprs) c k e :
  letExprs !! k = Some e → ¬ bareUnset e →
  (∀ st, Inv (pendingExprs (initState order letExprs c))
             (ctx (initState order letExprs c)) st →
         checkVars (ctx st) (pendingExprs st) (Variables (Expression_ e)) L
         ≠ ScanDone []) →
  let K := λ st : EvalState cty, pendingExprs st !! k = Some e in
  K (initState order letExprs c) ∧
  (∀ st, K st → K (resetAmount st)) ∧
  (∀ st st' name expr,
      Inv (pendingExprs (initState order letExprs c))
          (ctx (initState order letExprs c)) st →
      K st → pendingExprs st !! name = Some expr →
      evalPending st name expr = Return st' → K st').
Proof using order_perm.
  intros Hk Hu Hscan K. split; [|split].
  - unfold K. by rewrite (initState_pending order order_perm), Hk, (not_bareUnset e Hu).
  - done.
  - unfold K. intros st st' name expr HI HK Hp Hev.
    destruct (decide (name = k)) as [->|Hne].
    + assert (expr = e) as -> by congruence.
      pose proof (evalPending_cases st k e) as Hc. rewrite Hev in Hc.
      destruct Hc as [[errs ->]|(val & Hdone & _ & _)]; [done|].
      by destruct (Hscan st HI).
    + by rewrite (evalPending_other st st' name expr k Hev).
Qed.

(** The error list [Eval] returns when a let is pending. *)
Lemma pending_reported n (st : EvalState cty) a ea l :
  pendingExprs st !! a = Some ea → pendingExprsErrs st !! a = Some l →
  ∃ errs i err,
    AsError ((reportErrors order n st).*2) = Some errs ∧
    (reportErrors order n st).*1 !! i = Some a ∧ errs !! i = Some err ∧
    errKind err = Some ErrEval ∧
    errCauses err = match l with
                    | [] => [E None (Some (ExprRange (Expression_ ea)))
                               ("undefined let " +:+ a) []]
                    | _ => l
                    end.
Proof using order_perm.
  intros Ha Hl. destruct (reportErrors_at n st a ea Ha)
    as (i & Hname & Herr).
  exists (reportErrors order n st).*2, i, (pendingError (pendingExprsErrs st) a ea).
  split; [|split; [done|split; [done|split; [apply pendingError_kind|]]]].
  - eapply AsError_elem. by eapply list_elem_of_lookup_2.
  - unfold pendingError. rewrite Hl. simpl. by destruct l.
Qed.

(** *** References to [let] that are no attribute access *)

(** C9: an expression, not the bare [unset], with a reference to [let]
    whose first step after the root is no attribute access (an index, a
    splat, or no step at all) makes [Eval] panic, unless a reference that
    stands before it in the expression is an attribute access to a let that
    is still pending when [Eval] returns: the loop over the references then
    leaves the expression there at every visit, and [Eval] returns an error
    that names both lets.  When every reference to [let] continues with an
    attribute access, [Eval] returns and does not panic. *)
Theorem C9_panic_on_other_traversal (letExprs : Exprs) (c : Context cty) :
  (∀ k e pre t post,
      letExprs !! k = Some e → ¬ bareUnset e →
      Variables (Expression_ e) = pre ++ t :: post →
      RootName t = "let" →
      (∀ attrName r, steps t !! 0 ≠ Some (TraverseAttr attrName r)) →
      isPanic (Eval order letExprs c) = true ∨
      ∃ r b, Eval order letExprs c = Return r ∧
             b ∈ omap letRef pre ∧ b ∈ resFor r ∧ k ∈ resFor r ∧
             is_Some (resErr r))
  ∧ (attrAccessOnly letExprs → isReturn (Eval order letExprs c) = true).
Proof using order_perm.
  split.
  - intros k e pre t post Hk Hu Hvars Hroot Hstep.
    assert (otherAccess t) as Ho by done.
    destruct (stays_pending letExprs c k e Hk Hu) as (HK0 & HKreset & HKstep).
    { intros st HI Hdone.
      pose proof (checkVars_other (ctx st) (pendingExprs st) pre t post L
                    (inv_let _ _ _ HI) Ho) as Hno.
      by rewrite <- Hvars, Hdone in Hno. }
    assert (ends (hasOtherAccess letExprs) (Eval order letExprs c)
              (λ r, ∃ b, b ∈ omap letRef pre ∧ b ∈ resFor r ∧ k ∈ resFor r ∧
                         is_Some (resErr r))) as Hends.
    2: { destruct (Eval order letExprs c) as [r|msg|]; cbn [ends] in Hends;
           [right|by left|done].
         destruct Hends as (b & Hb). by exists r, b. }
    apply (Eval_outcome letExprs c _ _ HK0 HKreset HKstep).
    intros n st HI HK Hend. cbn [resFor resErr].
    destruct Hend as [Hempty|Hlast]; [by rewrite Hempty, lookup_empty in HK|].
    destruct (Hlast k e HK) as (l & Hl & Hvisit). unfold lastVisitIn in Hvisit.
    pose proof (checkVars_other (ctx st) (pendingExprs st) pre t post L
                  (inv_let _ _ _ HI) Ho) as Hno.
    rewrite <- Hvars in Hno.
    destruct (checkVars (ctx st) (pendingExprs st) (Variables (Expression_ e)) L)
      as [msg|errs|errs]; [done| |done].
    pose proof (checkVars_errs (ctx st) (pendingExprs st) pre L (λ _, True)) as Hpre.
    rewrite Hno in Hpre. destruct Hpre as [_ (b & Hb & Hbp)]; [done|done|].
    exists b. split; [done|].
    split; [by apply (reportErrors_names order order_perm)|].
    split; [apply (reportErrors_names order order_perm); eauto|].
    destruct (pending_reported n st k e l HK Hl) as (errs' & _ & _ & -> & _). eauto.
  - intros Hwf.
    pose proof (evalRun_returns order order_perm letExprs c (λ _, True) (λ _, True) Hwf)
      as Hrun.
    simpl in Hrun. unfold Eval.
    destruct (evalRun order letExprs c) as [[n st]| |]; simpl in *; [done|..];
      exfalso; by apply Hrun.
Qed.

(** *** Unknown namespaces *)

(** C7: let an expression of [letExprs], not the bare [unset], have a
    reference [t] whose root namespace is not [let] and does not exist in
    the context.  Then [Eval], unless it panics on a reference to [let] that
    is no attribute access, returns a composite error that names the let;
    and when no reference that stands before [t] in the expression is an
    attribute access to a let that the error names too (one that is still
    pending), the element for the let, of kind [lets eval], wraps an error
    of that kind whose message is [unknown variable namespace: ] followed by
    the namespace and whose range is the source range of [t]. *)
Theorem C7_unknown_namespace_reported (letExprs : Exprs) (c : Context cty)
    k e pre t post :
  letExprs !! k = Some e → ¬ bareUnset e →
  Variables (Expression_ e) = pre ++ t :: post →
  RootName t ≠ "let" →
  HasNamespace c (RootName t) = false →
  match Eval order letExprs c with
  | Return r =>
      ∃ errs, resErr r = Some errs ∧ k ∈ resFor r ∧
        ((∀ b, b ∈ omap letRef pre → b ∉ resFor r) →
         ∃ i err cause,
           resFor r !! i = Some k ∧ errs !! i = Some err ∧
           errKind err = Some ErrEval ∧ cause ∈ errCauses err ∧
           errKind cause = Some ErrEval ∧
           errDescription cause = "unknown variable namespace: " +:+ RootName t ∧
           errRange cause = Some (SourceRange t))
  | Panic _ => hasOtherAccess letExprs
  | OutOfFuel => False
  end.
Proof using order_perm.
  intros Hk Hu Hvars Hroot Hns.
  assert (∀ st, Inv (pendingExprs (initState order letExprs c))
                    (ctx (initState order letExprs c)) st →
                HasNamespace (ctx st) (RootName t) = false) as Hns'.
  { intros st HI. by rewrite (HasNamespace_init order letExprs c st _ HI Hroot). }
  destruct (stays_pending letExprs c k e Hk Hu) as (HK0 & HKreset & HKstep).
  { intros st HI Hdone.
    pose proof (checkVars_unknown_at (ctx st) (pendingExprs st) pre t post L
                  (Hns' st HI)) as Hin.
    rewrite <- Hvars, Hdone in Hin. by apply elem_of_nil in Hin. }
  assert (ends (hasOtherAccess letExprs) (Eval order letExprs c)
            (λ r, ∃ errs, resErr r = Some errs ∧ k ∈ resFor r ∧
               ((∀ b, b ∈ omap letRef pre → b ∉ resFor r) →
                ∃ i err cause,
                  resFor r !! i = Some k ∧ errs !! i = Some err ∧
                  errKind err = Some ErrEval ∧ cause ∈ errCauses err ∧
                  errKind cause = Some ErrEval ∧
                  errDescription cause
                  = "unknown variable namespace: " +:+ RootName t ∧
                  errRange cause = Some (SourceRange t)))) as Hends;
    [|by destruct (Eval order letExprs c)].
  apply (Eval_outcome letExprs c _ _ HK0 HKreset HKstep).
  intros n st HI HK Hend. cbn [resFor resErr].
  destruct Hend as [Hempty|Hlast]; [by rewrite Hempty, lookup_empty in HK|].
  destruct (Hlast k e HK) as (l & Hl & Hvisit). unfold lastVisitIn in Hvisit.
  destruct (pending_reported n st k e l HK Hl) as (errs & i & err & Herrs & Hi & Herr
                                                   & Hkind & Hcauses).
  exists errs. split; [done|].
  split; [apply (reportErrors_names order order_perm); eauto|].
  intros Hpre.
  assert (unknownNamespace t ∈ l) as Hin.
  { pose proof (checkVars_unknown_at (ctx st) (pendingExprs st) pre t post L
                  (Hns' st HI)) as Hat.
    rewrite <- Hvars in Hat.
    destruct (checkVars (ctx st) (pendingExprs st) (Variables (Expression_ e)) L)
      as [msg|errs'|errs']; [done|..].
    - subst l. destruct Hat as [Hskip|Hat]; [|done].
      pose proof (checkVars_errs (ctx st) (pendingExprs st) pre L (λ _, True)) as Hscan.
      rewrite Hskip in Hscan. destruct Hscan as [_ (b & Hb & Hbp)]; [done|done|].
      destruct (Hpre b Hb). by apply (reportErrors_names order order_perm).
    - destruct (AsError errs') eqn:Has; [by subst l|].
      destruct errs'; [by apply elem_of_nil in Hat|done]. }
  exists i, err, (unknownNamespace t).
  split; [done|]. split; [done|]. split; [done|].
  split; [|done]. rewrite Hcauses. destruct l; [by apply elem_of_nil in Hin|done].
Qed.

(** *** Cycles *)


(** *** Maps without a cycle *)

(** C2: let every reference in [letExprs] be [let.<name>] for a name that
    [letExprs] defines, let no let depend on itself directly or through
    others, and let no entry be the bare [unset].  Then [Eval] returns, the
    lets it has evaluated having the origins of their expressions.  When it
    returns no error, the lets are exactly the keys of [letExprs], as many
    as [letExprs] has: an entry may refer to entries that are visited after
    it, the passes of the loop resolve it.  And it returns an error only
    when the evaluation of an expression fails in the context [Eval]
    leaves, every let the expression refers to being evaluated and bound to
    its value there; the error then has for that let an element of kind
    [lets eval] wrapping the failure, with the message [let.<name>]. *)
Theorem C2_acyclic_lets_evaluated (letExprs : Exprs) (c : Context cty) :
  letOnly letExprs → acyclic letExprs →
  (∀ k e, letExprs !! k = Some e → ¬ bareUnset e) →
  ∃ r, Eval order letExprs c = Return r ∧
    (∀ k v, resLets r !! k = Some v →
            ∃ e, letExprs !! k = Some e ∧ VOrigin v = Origin e) ∧
    (resErr r = None →
     dom (resLets r) = dom letExprs ∧
     size (resLets r) = size letExprs ∧
     ∀ k e, letExprs !! k = Some e →
            ∃ v, resLets r !! k = Some v ∧ VOrigin v = Origin e) ∧
    (∀ errs, resErr r = Some errs →
       ∃ k e cause i err,
         letExprs !! k = Some e ∧ resLets r !! k = None ∧
         (∀ b, b ∈ letDeps e →
               ∃ v ns, resLets r !! b = Some v ∧
                       namespaces (resCtx r) !! "let" = Some ns ∧
                       ns !! b = Some (Value_ v)) ∧
         ExprValue (Expression_ e) (resCtx r) = Err cause ∧
         resFor r !! i = Some k ∧ errs !! i = Some err ∧
         errKind err = Some ErrEval ∧
         ∃ failure, errCauses err = [failure] ∧
           errKind failure = Some ErrEval ∧
           errDescription failure = "let." +:+ k ∧
           errCauses failure = [cause]).
Proof using order_perm.
  intros Hlo Hacyc Hu.
  assert (∀ k e, letExprs !! k = Some e → isUnset e = false) as Hu'
    by (intros k e Hk; by apply not_bareUnset, (Hu k e)).
  set (P := λ r : EvalResult cty,
    (∀ k v, resLets r !! k = Some v →
            ∃ e, letExprs !! k = Some e ∧ VOrigin v = Origin e) ∧
    (resErr r = None →
     dom (resLets r) = dom letExprs ∧
     size (resLets r) = size letExprs ∧
     ∀ k e, letExprs !! k = Some e →
            ∃ v, resLets r !! k = Some v ∧ VOrigin v = Origin e) ∧
    (∀ errs, resErr r = Some errs →
       ∃ k e cause i err,
         letExprs !! k = Some e ∧ resLets r !! k = None ∧
         (∀ b, b ∈ letDeps e →
               ∃ v ns, resLets r !! b = Some v ∧
                       namespaces (resCtx r) !! "let" = Some ns ∧
                       ns !! b = Some (Value_ v)) ∧
         ExprValue (Expression_ e) (resCtx r) = Err cause ∧
         resFor r !! i = Some k ∧ errs !! i = Some err ∧
         errKind err = Some ErrEval ∧
         ∃ failure, errCauses err = [failure] ∧
           errKind failure = Some ErrEval ∧
           errDescription failure = "let." +:+ k ∧
           errCauses failure = [cause])).
  assert (ends (hasOtherAccess letExprs) (Eval order letExprs c) P) as Hends.
  2: { destruct (Eval order letExprs c) as [r|msg|]; cbn [ends] in Hends; [by exists r| |done].
       destruct Hends as (k & e & t & Hk & Ht & Hroot & Hstep).
       pose proof (Hlo k e Hk) as Hall. rewrite Forall_forall in Hall.
       destruct (Hall t Ht) as (_ & attrName & rg & Hs & _). by destruct (Hstep attrName rg). }
  apply (Eval_outcome letExprs c (λ _, True)); [done..|].
  intros n st HI _ Hend. unfold P. cbn [resLets resErr resCtx resFor].
  assert (∀ k v, lets st !! k = Some v →
                 ∃ e, letExprs !! k = Some e ∧ VOrigin v = Origin e) as Horig.
  { intros k v Hv. destruct (inv_origin _ _ _ HI k v Hv) as (e & He & Ho).
    exists e. split; [|done]. by apply (initState_sub order order_perm) in He. }
  assert (∀ k e, letExprs !! k = Some e → pendingExprs st !! k = None →
                 ∃ v, lets st !! k = Some v ∧ VOrigin v = Origin e) as Hdone.
  { intros k e Hk Hp. pose proof (inv_pending _ _ _ HI k) as Hpk.
    rewrite Hp, (initState_pending order order_perm), Hk, (Hu' k e Hk) in Hpk.
    destruct (lets st !! k) as [v|] eqn:Hv; [|done].
    exists v. split; [done|].
    destruct (Horig k v Hv) as (e' & He' & Ho). congruence. }
  split; [done|]. split.
  - intros Hnone.
    assert (pendingExprs st = ∅) as Hempty.
    { apply (order_nil order order_perm n). unfold reportErrors in Hnone.
      destruct (order n (pendingExprs st)); [done|]. done. }
    assert (∀ k e, letExprs !! k = Some e →
                   ∃ v, lets st !! k = Some v ∧ VOrigin v = Origin e) as Hall.
    { intros k e Hk. apply Hdone; [done|]. by rewrite Hempty, lookup_empty. }
    assert (dom (lets st) = dom letExprs) as Hdom.
    { apply set_eq. intros k. rewrite !elem_of_dom. split.
      - intros [v Hv]. destruct (Horig k v Hv) as (e & He & _). eauto.
      - intros [e He]. destruct (Hall k e He) as (v & Hv & _). eauto. }
    split; [done|]. split; [|done]. by rewrite <- !size_dom, Hdom.
  - intros errs Herrs.
    assert (pendingExprs st ≠ ∅) as Hne.
    { intros Hempty. unfold reportErrors in Herrs.
      by rewrite Hempty, (proj2 (order_nil order order_perm n ∅) eq_refl) in Herrs. }
    destruct Hend as [Hempty|Hlast]; [done|].
    destruct (pending_minimal letExprs (pendingExprs st) Hacyc) as (k & e & Hp & Hmin);
      [|done|].
    { intros k e Hp. destruct (Inv_pending_sub _ _ _ _ _ HI Hp) as [Hp0 _].
      by apply (initState_sub order order_perm) in Hp0. }
    destruct (Inv_pending_sub _ _ _ _ _ HI Hp) as [Hp0 Hl].
    apply (initState_sub order order_perm) in Hp0.
    destruct (Hlast k e Hp) as (l & Hel & Hvisit). unfold lastVisitIn in Hvisit.
    rewrite (checkVars_clear (ctx st) (pendingExprs st) (Variables (Expression_ e)) L)
      in Hvisit; [|..|done].
    2: { pose proof (Hlo k e Hp0) as Hall. eapply Forall_impl; [exact Hall|].
         intros t (Hroot & attrName & rg & Hs & _). split.
         - rewrite Hroot. apply (inv_let _ _ _ HI).
         - intros _. eauto. }
    cbn [AsError L] in Hvisit. destruct Hvisit as (cause & Hval & ->).
    destruct (pending_reported n st k e _ Hp Hel)
      as (errs' & i & err & Herrs' & Hi & Herr & Hkind & Hcauses).
    assert (errs' = errs) as -> by congruence.
    exists k, e, cause, i, err. split; [done|]. split; [done|]. split.
    { intros b Hb. destruct (letOnly_deps letExprs k e b Hlo Hp0 Hb) as [eb Heb].
      destruct (Hdone b eb Heb (Hmin b Hb)) as (v & Hv & _).
      destruct (inv_bound _ _ _ HI) as [Hbound|[Hempty _]];
        [|by rewrite Hempty, lookup_empty in Hv].
      exists v, (Attributes (lets st)). split; [done|]. split; [done|].
      unfold Attributes. by rewrite lookup_fmap, Hv. }
    split; [done|]. split; [done|]. split; [done|]. split; [done|].
    eexists. split; [exact Hcauses|]. done.
Qed.

End Outcomes.
End LetsOutcomes.

(** ** The let scenarios: what a run ends in *)

Module LetsOutcomesChecks.
Import Lets LetsFacts LetsScenarios LetsChecks LetsOutcomes.

(** None of the scenarios with plain expressions has a bare [unset]. *)
Ltac plain H mp := entries H mp; by intros (t & [=] & _).

(** *** C2 *)

Lemma forwardRef_plain k e : forwardRef !! k = Some e → ¬ bareUnset e.
Proof. intros Hk. plain Hk forwardRef. Qed.

(** [let { a = let.b + 1  b = 2 }]: [Eval] returns no error, and [a] and
    [b] are evaluated. *)
Lemma C2_witness :
  ∃ r, Lets.Eval byName forwardRef noCtx = Return r ∧
    (∀ k v, resLets r !! k = Some v →
            ∃ e, forwardRef !! k = Some e ∧ VOrigin v = Origin e) ∧
    (resErr r = None →
     dom (resLets r) = dom forwardRef ∧
     size (resLets r) = size forwardRef ∧
     ∀ k e, forwardRef !! k = Some e →
            ∃ v, resLets r !! k = Some v ∧ VOrigin v = Origin e) ∧
    (∀ errs, resErr r = Some errs →
       ∃ k e cause i err,
         forwardRef !! k = Some e ∧ resLets r !! k = None ∧
         (∀ b, b ∈ letDeps e →
               ∃ v ns, resLets r !! b = Some v ∧
                       namespaces (resCtx r) !! "let" = Some ns ∧
                       ns !! b = Some (Value_ v)) ∧
         ExprValue (Expression_ e) (resCtx r) = Err cause ∧
         resFor r !! i = Some k ∧ errs !! i = Some err ∧
         errKind err = Some ErrEval ∧
         ∃ failure, errCauses err = [failure] ∧
           errKind failure = Some ErrEval ∧
           errDescription failure = "let." +:+ k ∧
           errCauses failure = [cause]).
Proof.
  apply (C2_acyclic_lets_evaluated byName byName_perm forwardRef noCtx).
  - exact forwardRef_letOnly.
  - exact forwardRef_acyclic.
  - exact forwardRef_plain.
Defined.

(** *** C3 *)



Example twoCycle_errors :
  ∃ r, Lets.Eval byName twoCycle noCtx = Return r ∧ resFor r = ["a"; "b"] ∧
    resErr r = Some [E (Some ErrEval) None EmptyString
                       [E None (Some (at_ 1)) "undefined let a" []];
                     E (Some ErrEval) None EmptyString
                       [E None (Some (at_ 2)) "undefined let b" []]].
Proof. eexists. by vm_compute. Qed.

(** *** C7 *)

(** [let { a = let.b + foo.x  b = 1 }] without a namespace [foo]: the
    reference to [let.b] stands before the one to [foo.x], and [b] is
    evaluated. *)
Lemma C7_witness :
  ∃ r errs i err cause,
    Lets.Eval byName unknownAfterLet noCtx = Return r ∧ resErr r = Some errs ∧
    resFor r !! i = Some "a" ∧ errs !! i = Some err ∧
    errKind err = Some ErrEval ∧ cause ∈ errCauses err ∧
    errKind cause = Some ErrEval ∧
    errDescription cause = "unknown variable namespace: foo" ∧
    errRange cause = Some (at_ 1).
Proof.
  pose proof (C7_unknown_namespace_reported byName byName_perm unknownAfterLet noCtx "a"
                (expr 1 [letAttr "b" (at_ 1); nsAttr "foo" "x" (at_ 1)]
                      (λ c, readVar c "foo" "x"))
                [letAttr "b" (at_ 1)] (nsAttr "foo" "x" (at_ 1)) []) as Hrun.
  destruct (Lets.Eval byName unknownAfterLet noCtx) as [r|msg|] eqn:Hev;
    [|by vm_compute in Hev..].
  destruct Hrun as (errs & Herrs & _ & Hrep).
  - by vm_compute.
  - by intros (t & [=] & _).
  - done.
  - by intros [=].
  - by vm_compute.
  - destruct Hrep as (i & err & cause & Hrep).
    + intros b Hb. vm_compute in Hev. injection Hev as <-.
      apply list_elem_of_singleton in Hb as ->. cbn [resFor].
      by intros [=]%list_elem_of_singleton.
    + by exists r, errs, i, err, cause.
Defined.

(** *** C9 *)

(** [let { a = let.b + let[0]  b = 1 }]: the reference to [let.b] stands
    before the index, and [b] is evaluated; [let { a = let.b  b = let.a }]
    returns. *)
Lemma C9_witness :
  (isPanic (Lets.Eval byName indexAfterLet noCtx) = true ∨
   ∃ r b, Lets.Eval byName indexAfterLet noCtx = Return r ∧
          b ∈ omap letRef [letAttr "b" (at_ 1)] ∧ b ∈ resFor r ∧ "a" ∈ resFor r ∧
          is_Some (resErr r)) ∧
  isReturn (Lets.Eval byName twoCycle noCtx) = true.
Proof.
  split.
  - apply (proj1 (C9_panic_on_other_traversal byName byName_perm indexAfterLet noCtx)
             "a" (expr 1 [letAttr "b" (at_ 1); letIndex 0 (at_ 1)]
                       (λ c, readVar c "let" "b"))
             [letAttr "b" (at_ 1)] (letIndex 0 (at_ 1)) []).
    + by vm_compute.
    + by intros (t & [=] & _).
    + done.
    + done.
    + by intros ? ? [=].
  - apply (proj2 (C9_panic_on_other_traversal byName byName_perm twoCycle noCtx)).
    exact twoCycle_attrAccessOnly.
Defined.

(** The expression of [a] is visited when [b] is evaluated, and [Eval]
    panics. *)
Example indexAfterLet_panics :
  Lets.Eval byName indexAfterLet noCtx
  = Panic "unexpected type of traversal - this is a BUG".
Proof. by vm_compute. Qed.

End LetsOutcomesChecks.

(** ** The stack manager: the report and its entries *)

Module StackLaws.
Import Stack StackFacts.

#[local] Abbreviation StackSet := (gmap string Entry).

Section Laws.
Context {Tree : Type}.
Variable w : World.
Variable m : Manager Tree.

(** *** listChangedFiles and hasChangedWatchedFiles *)

(** X11: [listChangedFiles] runs no git command unless the path is a
    directory for which a git wrapper can be made; it runs [git diff] only
    after both revisions were parsed and are different commits, and then
    returns what the diff returns; and it lists a changed file only when it
    has run the diff. *)
Theorem X11_listChangedFiles_git_commands (dir ref : string) :
  let log := (listChangedFilesLog w dir ref).1 in
  let res := (listChangedFilesLog w dir ref).2 in
  (log ≠ [] →
   ∃ st, Stat w dir = Ok st ∧ FileIsDir st = true ∧ WithConfig w dir = Ok ()) ∧
  (∀ d baseRef headRef,
     CallDiffNames d baseRef headRef ∈ log →
     d = dir ∧ RevParse w dir ref = Ok baseRef ∧ RevParse w dir "HEAD" = Ok headRef ∧
     baseRef ≠ headRef ∧ res = DiffNames w dir baseRef headRef) ∧
  (∀ files, res = Ok files → files ≠ [] →
     ∃ baseRef headRef, CallDiffNames dir baseRef headRef ∈ log).
Proof.
  cbv zeta. unfold listChangedFilesLog.
  destruct (Stat w dir) as [st|err] eqn:Hstat; simpl.
  2:{ split; [done|]. split; [by intros ??? ?%elem_of_nil|done]. }
  destruct (FileIsDir st) eqn:Hdir; simpl.
  2:{ split; [done|]. split; [by intros ??? ?%elem_of_nil|done]. }
  destruct (WithConfig w dir) as [[]|err] eqn:Hcfg; simpl.
  2:{ split; [done|]. split; [by intros ??? ?%elem_of_nil|done]. }
  assert (∃ st0, Ok st = Ok (E := Error) st0 ∧ FileIsDir st0 = true
                 ∧ Ok (E := Error) () = Ok ()) as Hst by (by exists st).
  destruct (RevParse w dir ref) as [baseRef|err] eqn:Hbase; simpl.
  2:{ split; [done|]. split; [|done].
      intros d b h Hin. apply list_elem_of_singleton in Hin. done. }
  destruct (RevParse w dir "HEAD") as [headRef|err] eqn:Hhead; simpl.
  2:{ split; [done|]. split; [|done].
      intros d b h Hin. repeat (apply elem_of_cons in Hin as [Hin|Hin]; [done|]).
      by apply elem_of_nil in Hin. }
  case_bool_decide as Hsame; simpl.
  - split; [done|]. split.
    + intros d b h Hin. repeat (apply elem_of_cons in Hin as [Hin|Hin]; [done|]).
      by apply elem_of_nil in Hin.
    + intros files [= <-]. done.
  - split; [done|]. split.
    + intros d b h Hin. repeat (apply elem_of_cons in Hin as [Hin|Hin]; [try done|]).
      * by injection Hin as -> -> ->.
      * by apply elem_of_nil in Hin.
    + intros files _ _. exists baseRef, headRef.
      apply elem_of_cons. right. apply elem_of_cons. right. by apply elem_of_cons; left.
Qed.

Lemma dropFirst_Path_String (p : Path) :
  dropFirst (Path_String p) = String.concat "/" p.
Proof. done. Qed.

(** X12: [hasChangedWatchedFiles] returns the first path of the watch list
    of the stack that, without its leading slash, is one of the changed
    files; it returns none when no path of the list is. *)
Theorem X12_hasChangedWatchedFiles_first (stack : Stack) (changedFiles : list string) :
  match hasChangedWatchedFiles stack changedFiles with
  | Some watchFile =>
      ∃ pre post, Watch stack = pre ++ watchFile :: post ∧
        String.concat "/" watchFile ∈ changedFiles ∧
        Forall (λ p, String.concat "/" p ∉ changedFiles) pre
  | None => Forall (λ p, String.concat "/" p ∉ changedFiles) (Watch stack)
  end.
Proof.
  unfold hasChangedWatchedFiles.
  induction (Watch stack) as [|watchFile rest IH]; simpl; [done|].
  case_bool_decide as Hex.
  - exists [], rest. split; [done|]. split; [|done].
    apply Exists_exists in Hex as (file & Hin & ->). exact Hin.
  - assert (String.concat "/" watchFile ∉ changedFiles) as Hnot.
    { intros Hin. apply Hex. apply Exists_exists.
      exists (String.concat "/" watchFile). split; [done|]. reflexivity. }
    destruct (hasChangedWatched rest changedFiles) as [found|].
    + destruct IH as (pre & post & -> & Hin & Hpre).
      exists (watchFile :: pre), post. split; [done|]. split; [done|]. by constructor.
    + by constructor.
Qed.

(** *** filesApply *)

(** X13: [filesApply] hands the entries of the directory that are not
    directories to the closure, in the order [os.ReadDir] lists them, and no
    other: when the closure returns nil on each of them, the captured
    variables are left as the calls on these entries leave them, one after
    the other. *)
Theorem X13_filesApply_files_in_order {S : Type} (dir : string)
    (apply : DirEntry → S → outcome (result Error unit * S))
    (step : DirEntry → S → S) (files : list DirEntry) (s : S) :
  ReadDir w dir = Ok files →
  (∀ file s, file ∈ files → EntryIsDir file = false →
             apply file s = Return (Ok (), step file s)) →
  filesApply w dir apply s
  = Return (Ok (), foldl (λ s file, step file s) s
                     (filter (λ file, EntryIsDir file = false) files)).
Proof.
  intros Hread Happly. unfold filesApply. rewrite Hread. clear Hread.
  revert s. induction files as [|file files IH]; intros s; [done|].
  simpl. destruct (EntryIsDir file) eqn:Hdir.
  - rewrite filter_cons_False by (by rewrite Hdir).
    apply IH. intros f s' Hf. apply Happly. by apply elem_of_cons; right.
  - rewrite filter_cons_True by done.
    rewrite (Happly file s) by (by try apply elem_of_cons; try left).
    simpl. apply IH. intros f s' Hf. apply Happly. by apply elem_of_cons; right.
Qed.

(** X14: [filesApply] stops at the first entry on which the closure returns
    an error: the entries after it are not handed to the closure, and the
    error is returned wrapped with the name of the file. *)
Theorem X14_filesApply_stops_at_error {S : Type} (dir : string)
    (apply : DirEntry → S → outcome (result Error unit * S))
    (step : DirEntry → S → S) (pre post : list DirEntry) (file : DirEntry)
    (s s' : S) (err : Error) :
  ReadDir w dir = Ok (pre ++ file :: post) →
  (∀ f s, f ∈ pre → EntryIsDir f = false → apply f s = Return (Ok (), step f s)) →
  EntryIsDir file = false →
  apply file (foldl (λ s f, step f s) s (filter (λ f, EntryIsDir f = false) pre))
  = Return (Err err, s') →
  filesApply w dir apply s
  = Return (Err (E None None ("applying operation to file " +:+ quote w (Name file))
                   [err]), s').
Proof.
  intros Hread Hpre Hdir Hfile. unfold filesApply. rewrite Hread. clear Hread.
  revert s Hfile. induction pre as [|f pre IH]; intros s Hfile; simpl.
  - rewrite Hdir. simpl in Hfile. by rewrite Hfile.
  - destruct (EntryIsDir f) eqn:Hf.
    + rewrite filter_cons_False in Hfile by (by rewrite Hf).
      apply IH; [|done]. intros f' s0 Hf'. apply Hpre. by apply elem_of_cons; right.
    + rewrite filter_cons_True in Hfile by done.
      rewrite (Hpre f s) by (by try apply elem_of_cons; try left).
      apply IH; [|done]. intros f' s0 Hf'. apply Hpre. by apply elem_of_cons; right.
Qed.

(** *** moduleChanged *)

Lemma modulesLoop_changed (Q : Prop) recurse mod_ modPath modules c r c' :
  (∀ mod2 p v reason v', recurse mod2 p v = Return (Ok (true, reason), v') → Q) →
  (changed c = true → Q) →
  modulesLoop recurse mod_ modPath modules c = Return (r, c') →
  changed c' = true → Q.
Proof.
  intros Hrec. revert c. induction modules as [|mod2 modules IH]; intros c Hc; simpl.
  - by intros [= _ <-].
  - destruct (recurse mod2 modPath (walk c)) as [[[[chg reason]|err] v1]| |] eqn:Hr;
      try done.
    + destruct chg.
      * intros [= _ <-] _. by eapply Hrec.
      * apply IH. done.
    + by intros [= _ <-].
Qed.

(** X15: [moduleChanged] reports a module as changed only when the module
    is local and was not visited before, and git lists a changed file in
    some directory. *)
Theorem X15_moduleChanged_changed_sound (fuel : nat) (mod_ : Module_) (basedir : string)
    (v v' : Walk) (reason : string) :
  moduleChanged w m fuel mod_ basedir v = Return (Ok (true, reason), v') →
  IsLocal mod_ = true ∧ (Source mod_ ∉ visited v) ∧
  ∃ dir st, Stat w dir = Ok st ∧ FileIsDir st = true ∧ hasChanges w m dir.
Proof.
  intros Hret.
  assert (IsLocal mod_ = true ∧ (Source mod_ ∉ visited v)) as Hlocal.
  { rewrite moduleChanged_eq in Hret.
    case_bool_decide; [done|]. by destruct (IsLocal mod_). }
  split; [apply Hlocal|]. split; [apply Hlocal|]. clear Hlocal.
  revert mod_ basedir v v' reason Hret.
  induction fuel as [|fuel IH]; intros mod_ basedir v v' reason;
    rewrite moduleChanged_eq; cbv zeta.
  - case_bool_decide; [done|]. destruct (negb (IsLocal mod_)); [done|].
    destruct (Stat w _) as [st|] eqn:Hstat; [|done].
    destruct (FileIsDir st) eqn:Hdir; [|done]. simpl.
    destruct (listChangedFiles w _ _) as [changedFiles|] eqn:Hfiles; [|done].
    case_bool_decide as Hlen; [|done]. intros _.
    eexists _, st. split; [done|]. split; [done|].
    exists changedFiles. split; [done|]. by destruct changedFiles; [simpl in Hlen; lia|].
  - case_bool_decide; [done|]. destruct (negb (IsLocal mod_)); [done|].
    destruct (Stat w _) as [st|] eqn:Hstat; [|done].
    destruct (FileIsDir st) eqn:Hdir; [|done]. simpl.
    destruct (listChangedFiles w _ _) as [changedFiles|] eqn:Hfiles; [|done].
    case_bool_decide as Hlen.
    { intros _. eexists _, st. split; [done|]. split; [done|].
      exists changedFiles. split; [done|].
      by destruct changedFiles; [simpl in Hlen; lia|]. }
    destruct (filesApply w _ _ _) as [[[[]|err] c]| |] eqn:Happly; try done.
    intros [= Hchg _ _].
    revert Hchg.
    refine (filesApply_inv w
             (λ c, changed c = true →
                   ∃ dir st, Stat w dir = Ok st ∧ FileIsDir st = true
                             ∧ hasChanges w m dir) _ _ _ _ _ _ _ Happly); [|done].
    intros file c0 r0 c0' Hc0. unfold moduleFile.
    destruct (changed c0) eqn:Hchanged; [intros [= _ <-]; by rewrite Hchanged|].
    case_bool_decide; [intros [= _ <-]; by rewrite Hchanged|].
    destruct (ParseModules w _) as [modules|]; [|intros [= _ <-]; by rewrite Hchanged].
    apply modulesLoop_changed; [|by rewrite Hchanged].
    intros mod2 p v2 reason2 v2'. apply IH.
Qed.

(** *** ListChanged *)

Lemma forEach_Err {A S : Type} (P : Error → Prop)
    (body : S → A → outcome (result Error S)) l s err :
  (∀ s x err, body s x = Return (Err err) → P err) →
  forEach body l s = Return (Err err) → P err.
Proof.
  intros Hbody. revert s. induction l as [|x l IH]; intros s; simpl; [done|].
  destruct (body s x) as [[s1|err1]| |] eqn:Hx; try done.
  - apply IH.
  - intros [= <-]. by eapply Hbody.
Qed.

(** X16: every error [ListChanged] returns is of kind [listing changed
    stacks error]. *)
Theorem X16_ListChanged_error_kind (fuel : nat) (err : Error) :
  ListChanged w m fuel = Return (Err err) → errKind err = Some errListChanged.
Proof.
  unfold ListChanged.
  destruct (WithConfig w _); [|by intros [= <-]].
  destruct (negb (IsRepository w _)); [by intros [= <-]|].
  destruct (checkRepoIsClean w _) as [checks|]; [|by intros [= <-]].
  destruct (listChangedFiles w _ _) as [changedFiles|]; [|by intros [= <-]].
  destruct (changedFilesPass w m changedFiles) as [[stackSet|err1]| |] eqn:Hpass;
    try done.
  - destruct (ListStacks (root m)) as [allstacks|]; [|by intros [= <-]].
    destruct (forEach _ allstacks stackSet) as [[stackSet'|err2]| |] eqn:Hloop;
      try done.
    intros [= <-]. revert Hloop.
    apply (forEach_Err (λ err, errKind err = Some errListChanged)).
    intros s stackEntry err. unfold checkStack. cbv zeta.
    case_bool_decide; [done|].
    destruct (hasChangedWatchedFiles _ _); [done|].
    destruct (filesApply w _ _ s) as [[[[]|err3] s3]| |]; try done.
    by intros [= <-].
  - intros [= <-]. revert Hpass. unfold changedFilesPass.
    apply (forEach_Err (λ err, errKind err = Some errListChanged)).
    intros s path err. unfold changedFile.
    destruct (StackPath w _) as [triggeredStack isTriggerFile].
    destruct (String.prefix "." path && negb isTriggerFile); [done|].
    destruct isTriggerFile.
    + destruct (match Stat w _ with Ok _ => false | Err e => IsNotExist w e end);
        [done|].
      destruct (Lookup (root m) triggeredStack) as [cfg|]; [|done].
      destruct (negb (IsStack (root m) cfg)); [done|].
      destruct (NewStackFromHCL (root m) _ cfg) as [s0|err0]; [done|].
      by intros [= <-].
    + cbv zeta. case_bool_decide; [done|].
      destruct (if isStackTree m _ then _ else _) as [[cfg|]| |]; try done.
      destruct (negb (IsStack (root m) cfg)); [done|].
      destruct (NewStackFromHCL (root m) _ cfg) as [s0|err0]; [done|].
      by intros [= <-].
Qed.

(** **** The entries of the report *)

Lemma forEach_inv_elem {A S : Type} (P : S → Prop)
    (body : S → A → outcome (result Error S)) l s s' :
  (∀ s x s', x ∈ l → P s → body s x = Return (Ok s') → P s') →
  P s → forEach body l s = Return (Ok s') → P s'.
Proof.
  revert s. induction l as [|x l IH]; intros s Hbody HP; simpl.
  - by intros [= <-].
  - destruct (body s x) as [[s1|err]| |] eqn:Hx; try done.
    apply IH.
    + intros s0 y s0' Hy. apply Hbody. by apply elem_of_cons; right.
    + eapply Hbody; [|done..]. by apply elem_of_cons; left.
Qed.

Lemma filesLoop_inv_elem {S : Type} (P : S → Prop)
    (apply : DirEntry → S → outcome (result Error unit * S)) files s r s' :
  (∀ file s r s', file ∈ files → EntryIsDir file = false →
                  P s → apply file s = Return (r, s') → P s') →
  P s → filesLoop w apply files s = Return (r, s') → P s'.
Proof.
  revert s. induction files as [|file files IH]; intros s Happly HP; simpl.
  - by intros [= _ <-].
  - assert (∀ f s r s', f ∈ files → EntryIsDir f = false →
                        P s → apply f s = Return (r, s') → P s') as Hrest
      by (intros f s0 r0 s0' Hf; apply Happly; by apply elem_of_cons; right).
    destruct (EntryIsDir file) eqn:Hdir; [by apply IH|].
    destruct (apply file s) as [[[[]|err] s1]| |] eqn:Hfile; try done.
    + apply IH; [done|]. eapply Happly; [|done..]. by apply elem_of_cons; left.
    + intros [= _ <-]. eapply Happly; [|done..]. by apply elem_of_cons; left.
Qed.

Lemma changedFile_justified changedFiles (stackSet stackSet' : StackSet) path :
  path ∈ changedFiles →
  changedFile w m stackSet path = Return (Ok stackSet') →
  stackSet' = stackSet ∨
  ∃ s reason, stackSet' = addEntry stackSet s reason ∧
    (triggered w m changedFiles {| EntryStack := s; Reason := reason |}
     ∨ unmerged w m changedFiles {| EntryStack := s; Reason := reason |}).
Proof.
  intros Hpath. unfold changedFile.
  destruct (StackPath w _) as [triggeredStack isTriggerFile] eqn:Htrigger.
  destruct (String.prefix "." path && negb isTriggerFile) eqn:Hdot; [left; congruence|].
  destruct isTriggerFile.
  - destruct (match Stat w _ with Ok _ => false | Err err => IsNotExist w err end);
      [left; congruence|].
    destruct (Lookup (root m) triggeredStack) as [cfg|] eqn:Hcfg; [|left; congruence].
    destruct (IsStack (root m) cfg) eqn:Hstack; [|left; simpl in *; congruence].
    simpl.
    destruct (NewStackFromHCL (root m) _ cfg) as [s|err] eqn:Hnew; [|done].
    intros [= <-]. right. eexists _, _. split; [done|]. left.
    exists path, triggeredStack. split; [done|]. split; [done|].
    split; [by exists cfg|done].
  - cbv zeta. case_bool_decide; [left; congruence|].
    destruct (if isStackTree m _ then _ else _) as [[cfg|]| |] eqn:Hfound; try done;
      [|left; congruence].
    destruct (IsStack (root m) cfg) eqn:Hstack; [|left; simpl in *; congruence].
    simpl.
    destruct (NewStackFromHCL (root m) _ cfg) as [s|err] eqn:Hnew; [|done].
    intros [= <-]. right. eexists _, _. split; [done|]. right.
    assert (∃ dir, dir `prefix_of` cfgPath w m path ∧ Lookup (root m) dir = Some cfg)
      as (dir & Hpre & Hdir).
    { destruct (isStackTree m _) eqn:Histree.
      - injection Hfound as Hfound. by exists (cfgPath w m path).
      - apply lookupParent_found in Hfound as [Hfound|Hfound]; [|done].
        by exists (cfgPath w m path). }
    exists path, dir. unfold projPath. rewrite Htrigger.
    split; [done|]. split; [done|]. split; [by rewrite andb_true_r in Hdot|].
    split; [done|]. split; [by exists cfg|done].
Qed.

Lemma hasChangedWatched_Some watch changedFiles watchFile :
  hasChangedWatched watch changedFiles = Some watchFile →
  watchFile ∈ watch ∧ dropFirst (Path_String watchFile) ∈ changedFiles.
Proof.
  induction watch as [|p watch IH]; simpl; [done|].
  case_bool_decide as Hex.
  - intros [= <-]. split; [by apply elem_of_cons; left|].
    apply Exists_exists in Hex as (file & Hin & ->). exact Hin.
  - intros [Hin Hfile]%IH. split; [by apply elem_of_cons; right|done].
Qed.

Lemma hasChangedWatched_None watch changedFiles watchFile :
  hasChangedWatched watch changedFiles = None →
  watchFile ∈ watch → dropFirst (Path_String watchFile) ∉ changedFiles.
Proof.
  induction watch as [|p watch IH]; simpl; [by intros _ ?%elem_of_nil|].
  case_bool_decide as Hex; [done|].
  intros Hnone [->|Hin]%elem_of_cons; [|by apply IH].
  intros Hfile. apply Hex. apply Exists_exists. by eexists.
Qed.

(** The loop over the modules of a file leaves the set as it is or adds
    the stack for the first module that has changed. *)
Lemma stackModules_inv (P : StackSet → Prop) fuel stack modules (s s' : StackSet) r :
  (∀ mod_ reason v,
      mod_ ∈ modules →
      moduleChanged w m fuel mod_ (StackHostDir stack) newWalk
      = Return (Ok (true, reason), v) →
      P (addEntry s (setChanged stack)
           ("stack changed because " +:+ quote w (Source mod_)
              +:+ " changed because " +:+ reason))) →
  P s → stackModules w m fuel stack modules s = Return (r, s') → P s'.
Proof.
  induction modules as [|mod_ modules IH]; intros Hadd HP; simpl.
  - by intros [= _ <-].
  - destruct (moduleChanged w m fuel mod_ _ newWalk)
      as [[[[chg reason]|err] v]| |] eqn:Hmod; try done.
    + destruct chg.
      * intros [= _ <-]. eapply Hadd; [|done]. by apply elem_of_cons; left.
      * apply IH; [|done]. intros mod2 reason2 v2 Hin. apply Hadd.
        by apply elem_of_cons; right.
    + by intros [= _ <-].
Qed.

Lemma checkStack_justified fuel changedFiles allstacks
    (stackSet stackSet' : StackSet) stackEntry :
  stackEntry ∈ allstacks →
  checkStack w m fuel changedFiles stackSet stackEntry = Return (Ok stackSet') →
  (∀ k e, stackSet !! k = Some e → justified w m fuel changedFiles allstacks e) →
  ∀ k e, stackSet' !! k = Some e → justified w m fuel changedFiles allstacks e.
Proof.
  intros Hentry Hcheck HJ. revert Hcheck. unfold checkStack. cbv zeta.
  case_bool_decide as Hin; [by intros [= <-]|].
  destruct (hasChangedWatchedFiles _ _) as [changedWatch|] eqn:Hwatch.
  - intros [= <-] k e. unfold addEntry.
    destruct (decide (Path_String (Dir (setChanged (EntryStack stackEntry))) = k))
      as [<-|Hne].
    + rewrite lookup_insert_eq. intros [= <-]. right. right. left.
      apply hasChangedWatched_Some in Hwatch as [Hw Hfile].
      by exists stackEntry, changedWatch.
    + rewrite lookup_insert_ne by done. apply HJ.
  - unfold filesApply.
    destruct (ReadDir w (StackHostDir (EntryStack stackEntry))) as [files|err] eqn:Hread;
      [|done].
    destruct (filesLoop w _ files stackSet) as [[[[]|err] s]| |] eqn:Hfiles; try done.
    intros [= <-]. revert Hfiles.
    apply (filesLoop_inv_elem
             (λ s : StackSet, ∀ k e, s !! k = Some e →
                                     justified w m fuel changedFiles allstacks e));
      [|done].
    intros file s0 r0 s0' Hfile Hdir Hs0. unfold stackFile.
    case_bool_decide as Hext; [by intros [= _ <-]|].
    destruct (ParseModules w _) as [modules|err] eqn:Hparse; [|by intros [= _ <-]].
    apply (stackModules_inv
             (λ s : StackSet, ∀ k e, s !! k = Some e →
                                     justified w m fuel changedFiles allstacks e));
      [|done].
    intros mod_ reason v Hmod Hchanged k e. unfold addEntry.
    destruct (decide (Path_String (Dir (setChanged (EntryStack stackEntry))) = k))
      as [<-|Hne].
    + rewrite lookup_insert_eq. intros [= <-]. right. right. right.
      exists stackEntry, files, file, modules, mod_, reason, v.
      split; [done|]. split; [done|]. split; [done|]. split; [done|].
      split; [done|]. split; [done|]. done.
    + rewrite lookup_insert_ne by done. apply Hs0.
Qed.

(** The set the report is made of. *)
Lemma ListChanged_set fuel r :
  ListChanged w m fuel = Return (Ok r) →
  ∃ changedFiles stackSet allstacks stackSet',
    listChangedFiles w (HostDir (root m)) (gitBaseRef m) = Ok changedFiles ∧
    changedFilesPass w m changedFiles = Return (Ok stackSet) ∧
    ListStacks (root m) = Ok allstacks ∧
    forEach (checkStack w m fuel changedFiles) allstacks stackSet
    = Return (Ok stackSet') ∧
    keyed stackSet' ∧
    ∀ e, e ∈ Stacks r ↔ ∃ k, stackSet' !! k = Some e.
Proof.
  intros (changedFiles & stackSet & allstacks & stackSet' & Hfiles & Hpass & Hall
          & Hloop & Hr)%ListChanged_inv.
  exists changedFiles, stackSet, allstacks, stackSet'.
  split; [done|]. split; [done|]. split; [done|]. split; [done|]. split.
  - eapply (forEach_inv keyed); [|by eapply changedFilesPass_keyed|exact Hloop].
    intros s x s' Hs. by apply checkStack_keyed.
  - intros e. rewrite Hr, sort_Sort_perm, list_elem_of_fmap. split.
    + intros ([k e'] & -> & Hin). exists k. by apply elem_of_map_to_list.
    + intros [k Hk]. exists (k, e). split; [done|]. by apply elem_of_map_to_list.
Qed.

(** X17: every entry of the report of [ListChanged] is there for one of
    four reasons, which its [Reason] tells: a trigger file of the stack is
    among the changed files; a changed file lies in the directory of the
    stack or below it; the stack is one of the listed stacks and watches a
    changed file; or it is one of the listed stacks and a module of one of
    the [.tf] files of its directory has changed.  In the first two cases the
    stack is the one loaded from the tree, in the last two it is the listed
    stack marked as changed. *)
Theorem X17_ListChanged_entries_justified (fuel : nat) (r : Report) :
  ListChanged w m fuel = Return (Ok r) →
  ∃ changedFiles allstacks,
    listChangedFiles w (HostDir (root m)) (gitBaseRef m) = Ok changedFiles ∧
    ListStacks (root m) = Ok allstacks ∧
    ∀ e, e ∈ Stacks r → justified w m fuel changedFiles allstacks e.
Proof.
  intros (changedFiles & stackSet & allstacks & stackSet' & Hfiles & Hpass & Hall
          & Hloop & _ & Hr)%ListChanged_set.
  exists changedFiles, allstacks. split; [done|]. split; [done|].
  intros e [k Hk]%Hr. revert k e Hk.
  eapply (forEach_inv_elem
            (λ s : StackSet, ∀ k e, s !! k = Some e →
                                    justified w m fuel changedFiles allstacks e));
    [| |exact Hloop].
  - intros s x s' Hx Hs Hcheck. by eapply checkStack_justified.
  - revert Hpass. unfold changedFilesPass.
    apply (forEach_inv_elem
             (λ s : StackSet, ∀ k e, s !! k = Some e →
                                     justified w m fuel changedFiles allstacks e)).
    + intros s path s' Hpath Hs Hcf.
      apply (changedFile_justified changedFiles) in Hcf; [|done].
      destruct Hcf as [->|(st & reason & -> & HJ)]; [done|].
      intros k e. unfold addEntry.
      destruct (decide (Path_String (Dir st) = k)) as [<-|Hne].
      * rewrite lookup_insert_eq. intros [= <-].
        destruct HJ as [HJ|HJ]; [by left|by right; left].
      * rewrite lookup_insert_ne by done. apply Hs.
    + intros k e Hk. by rewrite lookup_empty in Hk.
Qed.

(** **** No changed stack is missed *)

Lemma addEntry_has (stackSet : StackSet) s reason k :
  is_Some (stackSet !! k) → is_Some (addEntry stackSet s reason !! k).
Proof. intros Hk. unfold addEntry. apply lookup_insert_is_Some'. by right. Qed.

Lemma addEntry_key (stackSet : StackSet) s reason :
  is_Some (addEntry stackSet s reason !! Path_String (Dir s)).
Proof. unfold addEntry. rewrite lookup_insert_eq. eauto. Qed.

Lemma checkStack_has fuel changedFiles (stackSet stackSet' : StackSet) stackEntry k :
  checkStack w m fuel changedFiles stackSet stackEntry = Return (Ok stackSet') →
  is_Some (stackSet !! k) → is_Some (stackSet' !! k).
Proof.
  intros Hsub%checkStack_keeps [e He]. exists e. by eapply lookup_weaken.
Qed.

(** A stack that a visit of the loop labelled [rangeStacks] puts into the
    set is in the set when the loop ends. *)
Lemma forEach_checkStack_has fuel changedFiles l (s s' : StackSet) stackEntry :
  forEach (checkStack w m fuel changedFiles) l s = Return (Ok s') →
  stackEntry ∈ l →
  (∀ s1 s2, checkStack w m fuel changedFiles s1 stackEntry = Return (Ok s2) →
            is_Some (s2 !! entryDir stackEntry)) →
  is_Some (s' !! entryDir stackEntry).
Proof.
  intros Hloop Hin Hvisit. revert s Hloop.
  induction l as [|x l IH]; intros s; [by apply elem_of_nil in Hin|].
  simpl. destruct (checkStack w m fuel changedFiles s x) as [[s1|err]| |] eqn:Hx;
    try done.
  intros Hrest. apply elem_of_cons in Hin as [->|Hin]; [|by eapply IH].
  revert Hrest.
  apply (forEach_inv (λ s0 : StackSet, is_Some (s0 !! entryDir x))).
  - intros s0 y s0' Hs0 Hy. by eapply checkStack_has.
  - by eapply Hvisit.
Qed.

(** X18: a listed stack that watches a changed file is in the report of
    [ListChanged]. *)
Theorem X18_ListChanged_reports_watching_stack (fuel : nat) (r : Report)
    (changedFiles : list string) (allstacks : list Entry)
    (stackEntry : Entry) (watchFile : Path) :
  ListChanged w m fuel = Return (Ok r) →
  listChangedFiles w (HostDir (root m)) (gitBaseRef m) = Ok changedFiles →
  ListStacks (root m) = Ok allstacks →
  stackEntry ∈ allstacks →
  watchFile ∈ Watch (EntryStack stackEntry) →
  String.concat "/" watchFile ∈ changedFiles →
  ∃ e, e ∈ Stacks r ∧ entryDir e = entryDir stackEntry.
Proof.
  intros (changedFiles' & stackSet & allstacks' & stackSet' & Hfiles & Hpass & Hall
          & Hloop & Hkeyed & Hr)%ListChanged_set Hfiles' Hall' Hentry Hwatch Hfile.
  assert (changedFiles' = changedFiles) as -> by congruence.
  assert (allstacks' = allstacks) as -> by congruence.
  destruct (forEach_checkStack_has _ _ _ _ _ stackEntry Hloop Hentry) as [e He].
  - intros s1 s2. unfold checkStack. cbv zeta.
    case_bool_decide as Hin; [by intros [= <-]|].
    destruct (hasChangedWatchedFiles _ _) as [changedWatch|] eqn:Hw.
    + intros [= <-]. exact (addEntry_key s1 (setChanged (EntryStack stackEntry)) _).
    + destruct (hasChangedWatched_None _ _ _ Hw Hwatch). exact Hfile.
  - exists e. split; [apply Hr; eauto|]. symmetry. by apply Hkeyed.
Qed.

Lemma stackFile_has fuel stack file (s s' : StackSet) r k :
  stackFile w m fuel stack file s = Return (r, s') →
  is_Some (s !! k) → is_Some (s' !! k).
Proof.
  intros Hfile Hk.
  destruct (stackFile_stepOf w m fuel stack file s s s' r) as [->|[reason ->]];
    [by left|done|done|by apply addEntry_has].
Qed.

(** A loop over files establishes what the call of the closure on one of
    the files does, when the calls on the files after it keep it. *)
Lemma filesLoop_elem {S : Type} (P : S → Prop)
    (apply : DirEntry → S → outcome (result Error unit * S)) files file s s' :
  file ∈ files → EntryIsDir file = false →
  (∀ f s r s', P s → apply f s = Return (r, s') → P s') →
  (∀ s s', apply file s = Return (Ok (), s') → P s') →
  filesLoop w apply files s = Return (Ok (), s') → P s'.
Proof.
  intros Hin Hdir Hkeep Hfile. revert s.
  induction files as [|f files IH]; intros s; [by apply elem_of_nil in Hin|].
  simpl. destruct (EntryIsDir f) eqn:Hf.
  - apply elem_of_cons in Hin as [->|Hin]; [congruence|]. by apply IH.
  - destruct (apply f s) as [[[[]|err] s1]| |] eqn:Hcall; try done.
    apply elem_of_cons in Hin as [->|Hin]; [|by apply IH].
    apply (filesLoop_inv w P); [done|]. by eapply Hfile.
Qed.

Lemma stackModules_elem fuel stack modules mod_ reason v (s s' : StackSet) :
  mod_ ∈ modules →
  moduleChanged w m fuel mod_ (StackHostDir stack) newWalk
  = Return (Ok (true, reason), v) →
  stackModules w m fuel stack modules s = Return (Ok (), s') →
  is_Some (s' !! Path_String (Dir stack)).
Proof.
  intros Hin Hchanged.
  induction modules as [|mod2 modules IH]; [by apply elem_of_nil in Hin|].
  simpl.
  destruct (moduleChanged w m fuel mod2 _ newWalk)
    as [[[[chg reason2]|err] v2]| |] eqn:Hmod; try done.
  destruct chg.
  - intros [= <-]. apply (addEntry_key s (setChanged stack)).
  - apply elem_of_cons in Hin as [->|Hin]; [congruence|]. by apply IH.
Qed.

(** X19: a listed stack one of whose [.tf] files declares a module that
    [moduleChanged] finds changed is in the report of [ListChanged]. *)
Theorem X19_ListChanged_reports_changed_module (fuel : nat) (r : Report)
    (allstacks : list Entry) (stackEntry : Entry) (files : list DirEntry)
    (file : DirEntry) (modules : list Module_) (mod_ : Module_)
    (reason : string) (v : Walk) :
  ListChanged w m fuel = Return (Ok r) →
  ListStacks (root m) = Ok allstacks →
  stackEntry ∈ allstacks →
  ReadDir w (StackHostDir (EntryStack stackEntry)) = Ok files →
  file ∈ files → EntryIsDir file = false → path_Ext w (Name file) = ".tf" →
  ParseModules w (filepath_Join w (StackHostDir (EntryStack stackEntry)) (Name file))
  = Ok modules →
  mod_ ∈ modules →
  moduleChanged w m fuel mod_ (StackHostDir (EntryStack stackEntry)) newWalk
  = Return (Ok (true, reason), v) →
  ∃ e, e ∈ Stacks r ∧ entryDir e = entryDir stackEntry.
Proof.
  intros (changedFiles & stackSet & allstacks' & stackSet' & Hfiles & Hpass & Hall
          & Hloop & Hkeyed & Hr)%ListChanged_set Hall' Hentry Hread Hfile Hdir Hext
         Hparse Hmod Hchanged.
  assert (allstacks' = allstacks) as -> by congruence.
  destruct (forEach_checkStack_has _ _ _ _ _ stackEntry Hloop Hentry) as [e He].
  - intros s1 s2. unfold checkStack. cbv zeta.
    case_bool_decide as Hin; [by intros [= <-]|].
    destruct (hasChangedWatchedFiles _ _) as [changedWatch|] eqn:Hw.
    { intros [= <-]. exact (addEntry_key s1 (setChanged (EntryStack stackEntry)) _). }
    unfold filesApply. rewrite Hread.
    destruct (filesLoop w _ files s1) as [[[[]|err] s]| |] eqn:Hloop2; try done.
    intros [= <-]. revert Hloop2.
    apply (filesLoop_elem (λ s0 : StackSet, is_Some (s0 !! entryDir stackEntry))
             _ files file); [done|done| |].
    + intros f s0 r0 s0' Hs0 Hf. by eapply stackFile_has.
    + intros s0 s0'. unfold stackFile.
      rewrite bool_decide_eq_false_2 by (by intros Hne; apply Hne).
      rewrite Hparse. by apply stackModules_elem with mod_ reason v.
  - exists e. split; [apply Hr; eauto|]. symmetry. by apply Hkeyed.
Qed.

Lemma changedFile_has (stackSet stackSet' : StackSet) path k :
  changedFile w m stackSet path = Return (Ok stackSet') →
  is_Some (stackSet !! k) → is_Some (stackSet' !! k).
Proof.
  intros [->|(s & reason & ->)]%changedFile_cases; [done|]. apply addEntry_has.
Qed.

Lemma forEach_changedFile_has l (s s' : StackSet) path key :
  forEach (changedFile w m) l s = Return (Ok s') →
  path ∈ l →
  (∀ s1 s2, changedFile w m s1 path = Return (Ok s2) → is_Some (s2 !! key)) →
  is_Some (s' !! key).
Proof.
  intros Hloop Hin Hvisit. revert s Hloop.
  induction l as [|p l IH]; intros s; [by apply elem_of_nil in Hin|].
  simpl. destruct (changedFile w m s p) as [[s1|err]| |] eqn:Hp; try done.
  intros Hrest. apply elem_of_cons in Hin as [->|Hin]; [|by eapply IH].
  revert Hrest. apply (forEach_inv (λ s2 : StackSet, is_Some (s2 !! key))).
  - intros s2 y s2' Hs2 Hy. by eapply changedFile_has.
  - by eapply Hvisit.
Qed.

(** X20: a changed file that is no trigger file, has a name that does not
    begin with a dot, and lies in the directory of a stack, puts that stack
    into the report of [ListChanged]. *)
Theorem X20_ListChanged_reports_changed_stack (fuel : nat) (r : Report)
    (changedFiles : list string) (path : string) (s : Stack) :
  ListChanged w m fuel = Return (Ok r) →
  listChangedFiles w (HostDir (root m)) (gitBaseRef m) = Ok changedFiles →
  path ∈ changedFiles →
  (StackPath w (projPath w m path)).2 = false →
  String.prefix "." path = false →
  stackOf m (cfgPath w m path) s → Dir s = cfgPath w m path →
  ∃ e, e ∈ Stacks r ∧ entryDir e = Path_String (cfgPath w m path).
Proof.
  intros (changedFiles' & stackSet & allstacks & stackSet' & Hfiles & Hpass & Hall
          & Hloop & Hkeyed & Hr)%ListChanged_set Hfiles' Hpath Htrigger Hdot
         (cfg & Hcfg & Hstack & Hnew) HDir.
  assert (changedFiles' = changedFiles) as -> by congruence.
  set (key := Path_String (cfgPath w m path)).
  assert (is_Some (stackSet !! key)) as Hfirst.
  { apply (forEach_changedFile_has changedFiles ∅ stackSet path key Hpass Hpath).
    intros s1 s2. unfold changedFile. fold (projPath w m path).
    destruct (StackPath w (projPath w m path)) as [ts isTrigger].
    simpl in Htrigger. subst isTrigger. rewrite Hdot. simpl.
    fold (cfgPath w m path). fold key.
    case_bool_decide as Hin; [by intros [= <-]|].
    rewrite Hcfg. unfold isStackTree at 1. rewrite Hstack, Hnew.
    simpl. rewrite Hstack. simpl.
    intros [= <-]. unfold key. rewrite <- HDir. apply addEntry_key. }
  assert (is_Some (stackSet' !! key)) as [e He].
  { revert Hloop. apply (forEach_inv (λ s2 : StackSet, is_Some (s2 !! key))); [|done].
    intros s2 y s2' Hs2 Hy. by eapply checkStack_has. }
  exists e. split; [apply Hr; eauto|]. symmetry. by apply Hkeyed.
Qed.

(** X21: the walk to the parents of the directory of a changed file
    returns the nearest directory above it that is a stack: the one [j]
    components long, when no directory between it and the directory of the
    file is a stack or the root. *)
Theorem X21_lookupParent_nearest_stack (fuel : nat) (checkdir : Path)
    (stackTree : option Tree) (j : nat) :
  j < length checkdir → length checkdir - j ≤ fuel →
  (∀ i, j < i ≤ length checkdir → Path_String (take i checkdir) ≠ "/") →
  (∀ i, j < i < length checkdir →
        isStackTree m (Lookup (root m) (take i checkdir)) = false) →
  isStackTree m (Lookup (root m) (take j checkdir)) = true →
  lookupParent m fuel checkdir stackTree = Return (Lookup (root m) (take j checkdir)).
Proof.
  revert checkdir stackTree.
  induction fuel as [|fuel IH]; intros checkdir stackTree Hj Hfuel Hroot Hnone Hstack;
    [lia|].
  simpl.
  assert (Path_Dir checkdir = take (length checkdir - 1) checkdir) as Hdir.
  { unfold Path_Dir. destruct (decide (checkdir = [])) as [->|Hne]; [done|].
    destruct (exists_last Hne) as (p' & x & ->).
    rewrite removelast_last, length_app. simpl.
    replace (length p' + 1 - 1) with (length p') by lia.
    by rewrite take_app_length. }
  rewrite bool_decide_eq_false_2.
  2:{ specialize (Hroot (length checkdir)). rewrite firstn_all in Hroot.
      apply Hroot. lia. }
  destruct (decide (j = length checkdir - 1)) as [->|Hne].
  - rewrite Hdir, Hstack. done.
  - rewrite Hdir, Hnone by lia.
    assert (∀ i, i ≤ length checkdir - 1 →
                 take i (take (length checkdir - 1) checkdir) = take i checkdir)
      as Htake by (intros i Hi; rewrite take_take; f_equal; lia).
    rewrite <- (Htake j) by lia.
    assert (length (take (length checkdir - 1) checkdir) = length checkdir - 1)
      as Hlen by (rewrite length_take; lia).
    apply IH.
    + rewrite Hlen. lia.
    + rewrite Hlen. lia.
    + intros i Hi. rewrite Hlen in Hi. rewrite Htake by lia. apply Hroot. lia.
    + intros i Hi. rewrite Hlen in Hi. rewrite Htake by lia. apply Hnone. lia.
    + rewrite Htake by lia. done.
Qed.

(** *** Manager.List *)

(** X22: [Manager.List] does not look at the base reference.  The error
    it returns is the one of the listing of the stacks as it is, or an error
    of kind [listing stacks error].  The report it returns holds the listed
    stacks as they are; outside a git repository it has no checks, inside
    one the checks are those of [checkRepoIsClean]. *)
Theorem X22_Manager_List_report :
  (∀ ref, Manager_List w (NewManager (root m) ref) = Manager_List w m) ∧
  (∀ err, Manager_List w m = Err err →
          ListStacks (root m) = Err err ∨ errKind err = Some errList) ∧
  (∀ r, Manager_List w m = Ok r →
        ListStacks (root m) = Ok (Stacks r) ∧
        if IsRepository w (HostDir (root m))
        then checkRepoIsClean w (HostDir (root m)) = Ok (Checks r)
        else Checks r = {| UncommittedFiles := []; UntrackedFiles := [] |}).
Proof.
  split; [done|]. unfold Manager_List. split.
  - intros err. destruct (ListStacks (root m)) as [entries|err0]; [|intros [= <-]; by left].
    destruct (WithConfig w _); [|intros [= <-]; by right].
    destruct (IsRepository w _); simpl; [|done].
    destruct (checkRepoIsClean w _); [done|]. intros [= <-]. by right.
  - intros r. destruct (ListStacks (root m)) as [entries|err0]; [|done].
    destruct (WithConfig w _); [|done].
    destruct (IsRepository w _); simpl; [|by intros [= <-]].
    destruct (checkRepoIsClean w _); [|done]. by intros [= <-].
Qed.

(** X23: when [ListChanged] returns a report, [List] returns one too: it
    has the same checks of the repository, and its stacks are the ones among
    which [ListChanged] has looked for watched files and changed modules. *)
Theorem X23_List_agrees_with_ListChanged (fuel : nat) (r : Report) :
  ListChanged w m fuel = Return (Ok r) →
  ∃ allstacks, ListStacks (root m) = Ok allstacks ∧
    Manager_List w m = Ok {| Stacks := allstacks; Checks := Checks r |}.
Proof.
  unfold ListChanged, Manager_List.
  destruct (WithConfig w _); [|done].
  destruct (IsRepository w _); simpl; [|done].
  destruct (checkRepoIsClean w _) as [checks|]; [|done].
  destruct (listChangedFiles w _ _) as [changedFiles|]; [|done].
  destruct (changedFilesPass w m changedFiles) as [[stackSet|]| |]; try done.
  destruct (ListStacks (root m)) as [allstacks|]; [|done].
  destruct (forEach _ allstacks stackSet) as [[stackSet'|]| |]; try done.
  intros [= <-]. by exists allstacks.
Qed.

(** *** The order of the report *)

Lemma EntrySlice_Less_order :
  (∀ x, EntrySlice_Less x x = false) ∧
  (∀ x y z, EntrySlice_Less x y = true → EntrySlice_Less y z = true →
            EntrySlice_Less x z = true) ∧
  (∀ x y, EntrySlice_Less x y = true → EntrySlice_Less y x = false) ∧
  (∀ x y, EntrySlice_Less x y = false → EntrySlice_Less y x = false →
          entryDir x = entryDir y).
Proof.
  unfold EntrySlice_Less. fold (entryDir). split; [|split; [|split]].
  - intros x. destruct (String.ltb (entryDir x) (entryDir x)) eqn:H; [|done].
    destruct (strLt_asym _ _ H H).
  - intros x y z. apply strLt_trans.
  - intros x y H. destruct (String.ltb (entryDir y) (entryDir x)) eqn:H'; [|done].
    destruct (strLt_asym _ _ H H').
  - intros x y Hxy Hyx.
    destruct (strLt_trichotomy (entryDir x) (entryDir y)) as [H|[H|H]];
      [|done|]; unfold strLt in H; unfold entryDir in *; congruence.
Qed.

Lemma EntrySlice_Swap_spec (x : list Entry) (i j : nat) :
  (i < EntrySlice_Len x → j < EntrySlice_Len x →
   ∃ x', EntrySlice_Swap x i j = Return x' ∧
     EntrySlice_Len x' = EntrySlice_Len x ∧
     x' !! i = x !! j ∧ x' !! j = x !! i ∧
     (∀ k, k ≠ i → k ≠ j → x' !! k = x !! k) ∧
     x' ≡ₚ x ∧ EntrySlice_Swap x' i j = Return x) ∧
  (EntrySlice_Len x ≤ i ∨ EntrySlice_Len x ≤ j →
   EntrySlice_Swap x i j = Panic "index out of range").
Proof.
  unfold EntrySlice_Len, EntrySlice_Swap. split.
  - intros Hi Hj.
    destruct (lookup_lt_is_Some_2 x i Hi) as [xi Hxi].
    destruct (lookup_lt_is_Some_2 x j Hj) as [xj Hxj].
    rewrite Hxi, Hxj. eexists. split; [done|].
    assert (∀ k, <[j:=xi]> (<[i:=xj]> x) !! k
                 = x !! (if decide (k = i) then j else if decide (k = j) then i else k))
      as Hlookup.
    { intros k. destruct (decide (k = j)) as [->|Hkj].
      - rewrite list_lookup_insert_eq by (by rewrite length_insert).
        destruct (decide (j = i)) as [->|]; congruence.
      - rewrite list_lookup_insert_ne by done.
        destruct (decide (k = i)) as [->|Hki].
        + by rewrite list_lookup_insert_eq.
        + by rewrite list_lookup_insert_ne. }
    split; [by rewrite !length_insert|].
    split; [rewrite Hlookup; by rewrite decide_True|].
    split.
    { rewrite Hlookup. destruct (decide (j = i)) as [->|]; [done|].
      by rewrite decide_True. }
    split.
    { intros k Hki Hkj. rewrite Hlookup. by rewrite !decide_False. }
    split.
    { apply Permutation_inj. split; [by rewrite !length_insert|].
      exists (λ k, if decide (k = i) then j else if decide (k = j) then i else k).
      split; [|exact Hlookup].
      intros a b Hab. repeat case_decide; lia. }
    destruct (decide (j = i)) as [->|Hne].
    + rewrite !Hlookup, !decide_True by done. rewrite Hxi. f_equal.
      assert (xj = xi) as -> by congruence.
      apply list_eq. intros k.
      destruct (decide (k = i)) as [->|Hki].
      * rewrite list_lookup_insert_eq by (by rewrite !length_insert). done.
      * rewrite !list_lookup_insert_ne by done. done.
    + rewrite !Hlookup. rewrite (decide_False (P := j = i)) by done.
      rewrite !decide_True by done. rewrite Hxi, Hxj. f_equal.
      apply list_eq. intros k.
      destruct (decide (k = j)) as [->|Hkj].
      * rewrite list_lookup_insert_eq by (by rewrite !length_insert). done.
      * rewrite list_lookup_insert_ne by done.
        destruct (decide (k = i)) as [->|Hki].
        -- rewrite list_lookup_insert_eq by (by rewrite !length_insert). done.
        -- rewrite list_lookup_insert_ne by done. rewrite Hlookup.
           by rewrite !decide_False.
  - intros [Hi|Hj].
    + rewrite (lookup_ge_None_2 x i Hi). by destruct (x !! j).
    + by rewrite (lookup_ge_None_2 x j Hj).
Qed.

(** X24: [EntrySlice] meets what [sort.Sort] asks of its argument.
    [Less] is a strict order of the entries by the directory of their stack:
    no entry is less than itself, [Less] is transitive, of two entries at
    most one is less than the other, and neither is only when they have the
    same directory.  [Swap] with two indices below [Len] exchanges the two
    entries and leaves the others and [Len] as they are, so that the slice
    it leaves is a permutation of the one it was given, and the same [Swap]
    again gives that one back; with an index not below [Len] it panics. *)
Theorem X24_EntrySlice_sort_interface :
  ((∀ x, EntrySlice_Less x x = false) ∧
   (∀ x y z, EntrySlice_Less x y = true → EntrySlice_Less y z = true →
             EntrySlice_Less x z = true) ∧
   (∀ x y, EntrySlice_Less x y = true → EntrySlice_Less y x = false) ∧
   (∀ x y, EntrySlice_Less x y = false → EntrySlice_Less y x = false →
           entryDir x = entryDir y)) ∧
  ∀ (x : list Entry) (i j : nat),
    (i < EntrySlice_Len x → j < EntrySlice_Len x →
     ∃ x', EntrySlice_Swap x i j = Return x' ∧
       EntrySlice_Len x' = EntrySlice_Len x ∧
       x' !! i = x !! j ∧ x' !! j = x !! i ∧
       (∀ k, k ≠ i → k ≠ j → x' !! k = x !! k) ∧
       x' ≡ₚ x ∧ EntrySlice_Swap x' i j = Return x) ∧
    (EntrySlice_Len x ≤ i ∨ EntrySlice_Len x ≤ j →
     EntrySlice_Swap x i j = Panic "index out of range").
Proof. split; [exact EntrySlice_Less_order|exact EntrySlice_Swap_spec]. Qed.

(** X25: the report of [ListChanged] does not depend on the order in which
    the range over the set produces the entries: sorting them in any other
    order gives the same list. *)
Theorem X25_ListChanged_any_range_order (fuel : nat) (r : Report) (l : list Entry) :
  ListChanged w m fuel = Return (Ok r) → l ≡ₚ Stacks r → sort_Sort l = Stacks r.
Proof.
  intros (stackSet' & Hkeyed & Hr)%ListChanged_keyed Hperm.
  rewrite Hr in Hperm |- *. rewrite sort_Sort_perm in Hperm.
  set (pair := λ e : Entry, (entryDir e, e)).
  assert (map_to_list stackSet' = pair <$> (map_to_list stackSet').*2) as Hpairs.
  { rewrite <- list_fmap_compose. rewrite <- (list_fmap_id (map_to_list stackSet')) at 1.
    apply list_fmap_ext. intros n [k e] Hke. simpl. unfold pair. simpl. f_equal.
    apply Hkeyed. apply elem_of_map_to_list. by eapply list_elem_of_lookup_2. }
  rewrite <- (sort_Sort_any_order stackSet' (pair <$> l) Hkeyed).
  - rewrite <- list_fmap_compose. by rewrite list_fmap_id.
  - rewrite Hpairs. by apply fmap_Permutation.
Qed.

(** *** The bound of the module walks *)

Lemma modulesLoop_mono
    (rec1 rec2 : Module_ → string → Walk → outcome (result Error (bool * string) * Walk))
    mod_ modPath modules c res :
  (∀ mod2 p v x, rec1 mod2 p v = Return x → rec2 mod2 p v = Return x) →
  modulesLoop rec1 mod_ modPath modules c = Return res →
  modulesLoop rec2 mod_ modPath modules c = Return res.
Proof.
  intros Hrec. revert c. induction modules as [|mod2 modules IH]; intros c; simpl;
    [done|].
  destruct (rec1 mod2 modPath (walk c)) as [[[[chg reason]|err] v1]| |] eqn:Hr;
    try done; rewrite (Hrec _ _ _ _ Hr); [|done].
  destruct chg; [done|]. apply IH.
Qed.

Lemma filesLoop_mono {S : Type}
    (apply1 apply2 : DirEntry → S → outcome (result Error unit * S)) files s res :
  (∀ file s x, apply1 file s = Return x → apply2 file s = Return x) →
  filesLoop w apply1 files s = Return res →
  filesLoop w apply2 files s = Return res.
Proof.
  intros Happly. revert s. induction files as [|file files IH]; intros s; simpl;
    [done|].
  destruct (EntryIsDir file); [apply IH|].
  destruct (apply1 file s) as [[[[]|err] s1]| |] eqn:Hfile; try done;
    rewrite (Happly _ _ _ Hfile); [|done].
  apply IH.
Qed.

Lemma filesApply_mono {S : Type} dir
    (apply1 apply2 : DirEntry → S → outcome (result Error unit * S)) s res :
  (∀ file s x, apply1 file s = Return x → apply2 file s = Return x) →
  filesApply w dir apply1 s = Return res →
  filesApply w dir apply2 s = Return res.
Proof.
  intros Happly. unfold filesApply. destruct (ReadDir w dir); [|done].
  by apply filesLoop_mono.
Qed.

(** What [moduleChanged] returns within a bound, it returns within every
    greater bound. *)
Lemma moduleChanged_S fuel :
  ∀ mod_ basedir v x,
    moduleChanged w m fuel mod_ basedir v = Return x →
    moduleChanged w m (S fuel) mod_ basedir v = Return x.
Proof.
  induction fuel as [|fuel IH]; intros mod_ basedir v x Hx;
    rewrite moduleChanged_eq in Hx; rewrite moduleChanged_eq; cbv zeta in Hx |- *.
  - case_bool_decide; [done|]. destruct (negb (IsLocal mod_)); [done|].
    destruct (negb _); [done|].
    destruct (listChangedFiles w _ _) as [changedFiles|]; [|done].
    case_bool_decide; done.
  - case_bool_decide; [done|]. destruct (negb (IsLocal mod_)); [done|].
    destruct (negb _); [done|].
    destruct (listChangedFiles w _ _) as [changedFiles|]; [|done].
    case_bool_decide; [done|].
    set (modPath := filepath_Join w basedir (Source mod_)) in *.
    assert (∀ file c y,
              moduleFile w (moduleChanged w m fuel) mod_ modPath file c = Return y →
              moduleFile w (moduleChanged w m (S fuel)) mod_ modPath file c = Return y)
      as Hmono.
    { intros file c y. unfold moduleFile. destruct (changed c); [done|].
      case_bool_decide; [done|]. destruct (ParseModules w _); [|done].
      apply modulesLoop_mono. apply IH. }
    destruct (filesApply w modPath (moduleFile w (moduleChanged w m fuel) mod_ modPath) _)
      as [res| |] eqn:Happly; try done.
    by rewrite (filesApply_mono _ _ _ _ _ Hmono Happly).
Qed.

Lemma moduleChanged_le fuel fuel' mod_ basedir v x :
  fuel ≤ fuel' →
  moduleChanged w m fuel mod_ basedir v = Return x →
  moduleChanged w m fuel' mod_ basedir v = Return x.
Proof.
  induction 1 as [|fuel' Hle IH]; [done|]. intros Hx. by apply moduleChanged_S, IH.
Qed.

Lemma forEach_mono {A S : Type} (body1 body2 : S → A → outcome (result Error S)) l s res :
  (∀ s x y, body1 s x = Return y → body2 s x = Return y) →
  forEach body1 l s = Return res → forEach body2 l s = Return res.
Proof.
  intros Hbody. revert s. induction l as [|x l IH]; intros s; simpl; [done|].
  destruct (body1 s x) as [[s1|err]| |] eqn:Hx; try done; rewrite (Hbody _ _ _ Hx);
    [apply IH|done].
Qed.

Lemma ListChanged_le fuel fuel' res :
  fuel ≤ fuel' →
  ListChanged w m fuel = Return res → ListChanged w m fuel' = Return res.
Proof.
  intros Hle. unfold ListChanged.
  destruct (WithConfig w _); [|done].
  destruct (negb (IsRepository w _)); [done|].
  destruct (checkRepoIsClean w _) as [checks|]; [|done].
  destruct (listChangedFiles w _ _) as [changedFiles|]; [|done].
  destruct (changedFilesPass w m changedFiles) as [[stackSet|]| |]; try done.
  destruct (ListStacks (root m)) as [allstacks|]; [|done].
  assert (∀ s stackEntry y,
            checkStack w m fuel changedFiles s stackEntry = Return y →
            checkStack w m fuel' changedFiles s stackEntry = Return y) as Hmono.
  { intros s stackEntry y. unfold checkStack. cbv zeta.
    case_bool_decide; [done|]. destruct (hasChangedWatchedFiles _ _); [done|].
    assert (∀ file s0 z,
              stackFile w m fuel (EntryStack stackEntry) file s0 = Return z →
              stackFile w m fuel' (EntryStack stackEntry) file s0 = Return z) as Hfile.
    { intros file s0 z. unfold stackFile. case_bool_decide; [done|].
      destruct (ParseModules w _) as [modules|]; [|done].
      revert s0. induction modules as [|mod_ modules IH]; intros s0; simpl; [done|].
      destruct (moduleChanged w m fuel mod_ _ newWalk) as [x| |] eqn:Hmod; try done.
      rewrite (moduleChanged_le _ _ _ _ _ _ Hle Hmod).
      destruct x as [[[chg reason]|err] v]; [|done]. destruct chg; [done|]. apply IH. }
    destruct (filesApply w _ (stackFile w m fuel _) s) as [res2| |] eqn:Happly;
      try done.
    by rewrite (filesApply_mono _ _ _ _ _ Hfile Happly). }
  destruct (forEach (checkStack w m fuel changedFiles) allstacks stackSet)
    as [res1| |] eqn:Hloop; try done.
  by rewrite (forEach_mono _ _ _ _ _ Hmono Hloop).
Qed.

(** X26: when the [.tf] files declare modules of finitely many sources
    only, [ListChanged] returns a report or an error, and never panics; what
    it returns is the same for every bound of the module walks above the
    number of the sources. *)
Theorem X26_ListChanged_returns_whatever_the_bound (universe : list string) :
  (∀ path modules mod2,
      ParseModules w path = Ok modules → mod2 ∈ modules →
      Source mod2 ∈ universe) →
  ∃ res, ∀ fuel, length universe < fuel → ListChanged w m fuel = Return res.
Proof.
  intros Hparsed.
  destruct (ListChanged_returns w m universe (S (length universe)) Hparsed) as [res Hres];
    [lia|].
  exists res. intros fuel Hfuel. apply (ListChanged_le (S (length universe))); [lia|done].
Qed.

End Laws.
End StackLaws.

(** ** The wanted stacks *)

Module WantedLaws.
Import Stack.

Lemma size_difference_visit (U visited_ : gset string) (id : string) :
  id ∈ U → id ∉ visited_ → size (U ∖ ({[id]} ∪ visited_)) < size (U ∖ visited_).
Proof.
  intros HU Hv. apply subset_size. split.
  - intros x. rewrite !elem_of_difference, elem_of_union. tauto.
  - intros Hsub. specialize (Hsub id).
    rewrite !elem_of_difference, elem_of_union, elem_of_singleton in Hsub. tauto.
Qed.

Lemma visitedFront_app (visited_ : gset string) (rest new : list string) :
  Forall (λ id, id ∉ visited_) new →
  visitedFront visited_ (rest ++ new) = visitedFront visited_ rest.
Proof.
  intros Hnew. induction rest as [|id rest IH]; simpl.
  - destruct Hnew as [|id new Hid _]; [done|]. simpl. by rewrite decide_False.
  - by rewrite IH.
Qed.

Section Laws.
Context {D : Type}.
Variable LoadAllStacks : result Error (list Stack).
Variable sortStacks : list Stack → list Stack.
Variable dag_New : D.
Variable BuildDAG : D → gset string → Stack → result Error (D * gset string).
Variable Node : D → string → option Stack.
Variable AncestorsOf : D → string → list string.

#[local] Abbreviation loop := (wantedLoop Node AncestorsOf).
#[local] Abbreviation AddWanted :=
  (AddWantedOf LoadAllStacks sortStacks dag_New BuildDAG Node AncestorsOf).

(** What every iteration of the loop keeps holds when the loop ends. *)
Lemma wantedLoop_inv (wantsDag : D)
    (I : list string → gset string → list Stack → Prop) fuel :
  (∀ id rest visited_ selected s,
      I (id :: rest) visited_ selected → Node wantsDag id = Some s →
      I (rest ++ filter (λ a, a ∉ (addStack s visited_ selected).1)
                        (AncestorsOf wantsDag id))
        (addStack s visited_ selected).1 (addStack s visited_ selected).2) →
  ∀ pending visited_ selected sel,
    I pending visited_ selected →
    loop fuel wantsDag pending visited_ selected = Return sel →
    ∃ visited', I [] visited' sel.
Proof.
  intros Hstep. induction fuel as [|fuel IH]; intros pending visited_ selected sel HI.
  - destruct pending; simpl; [|done]. intros [= <-]. by exists visited_.
  - destruct pending as [|id rest]; simpl; [intros [= <-]; by exists visited_|].
    destruct (Node wantsDag id) as [s|] eqn:Hnode; [|done].
    specialize (Hstep id rest visited_ selected s HI Hnode).
    destruct (addStack s visited_ selected) as [visited' selected'].
    by apply IH.
Qed.

Lemma AddWantedOf_inv fuel scopeStacks selected :
  AddWanted fuel scopeStacks = Return (Ok selected) →
  ∃ allstacks wantsDag,
    LoadAllStacks = Ok allstacks ∧
    buildAll BuildDAG (sortStacks allstacks) dag_New ∅ = Ok wantsDag ∧
    loop fuel wantsDag (stackID <$> scopeStacks) ∅ [] = Return selected.
Proof.
  unfold AddWantedOf. remember LoadAllStacks as loaded eqn:Hload.
  destruct loaded as [allstacks|]; [|done].
  destruct (buildAll _ _ _ _) as [wantsDag|] eqn:Hbuild; [|done].
  destruct (wantedLoop _ _ _ _ _ _ _) as [sel| |] eqn:Hloop; try done.
  intros [= <-]. by exists allstacks, wantsDag.
Qed.

Lemma reached_step (wantsDag : D) seeds id a :
  reached AncestorsOf wantsDag seeds id → a ∈ AncestorsOf wantsDag id →
  reached AncestorsOf wantsDag seeds a.
Proof.
  intros (seed & Hseed & Hrtc) Ha. exists seed. split; [done|].
  eapply rtc_r; [exact Hrtc|done].
Qed.

Lemma soundAt_step (wantsDag : D) seeds id rest visited_ selected s :
  soundAt Node AncestorsOf wantsDag seeds (id :: rest) visited_ selected →
  Node wantsDag id = Some s →
  soundAt Node AncestorsOf wantsDag seeds
    (rest ++ filter (λ a, a ∉ (addStack s visited_ selected).1)
                    (AncestorsOf wantsDag id))
    (addStack s visited_ selected).1 (addStack s visited_ selected).2.
Proof.
  intros (Hvis & Hnd & Hsel & Hpend) Hnode.
  assert (reached AncestorsOf wantsDag seeds id) as Hid
    by (apply Hpend; by apply elem_of_cons; left).
  assert (∀ vis : gset string, ∀ a,
            a ∈ rest ++ filter (λ a, a ∉ vis) (AncestorsOf wantsDag id) →
            reached AncestorsOf wantsDag seeds a) as Hpend'.
  { intros vis a [Ha|Ha]%elem_of_app.
    - apply Hpend. by apply elem_of_cons; right.
    - apply list_elem_of_filter in Ha as [_ Ha]. by eapply reached_step. }
  unfold addStack. case_bool_decide as Hin; simpl.
  - split; [done|]. split; [done|]. split; [done|]. apply Hpend'.
  - split; [|split; [|split]].
    + intros a. rewrite fmap_app, elem_of_app, elem_of_union, elem_of_singleton.
      simpl. rewrite list_elem_of_singleton, (Hvis a). tauto.
    + rewrite fmap_app. apply NoDup_app. split; [done|]. split.
      * intros a Ha ->%list_elem_of_singleton. apply Hin. by apply Hvis.
      * apply NoDup_singleton.
    + intros s' [Hs'| ->%list_elem_of_singleton]%elem_of_app; [by apply Hsel|].
      by exists id.
    + apply Hpend'.
Qed.

(** X27: whatever stacks are given, the stacks [AddWantedOf] returns have
    different directories, and each is the node the graph has under an
    identifier that is reached from the directory of a given stack along the
    edges to the ancestors. *)
Theorem X27_AddWantedOf_selects_reached_once (fuel : nat)
    (scopeStacks selected : list Stack) :
  AddWanted fuel scopeStacks = Return (Ok selected) →
  ∃ allstacks wantsDag,
    LoadAllStacks = Ok allstacks ∧
    buildAll BuildDAG (sortStacks allstacks) dag_New ∅ = Ok wantsDag ∧
    NoDup (stackID <$> selected) ∧
    ∀ s, s ∈ selected →
         ∃ id, reached AncestorsOf wantsDag (stackID <$> scopeStacks) id
               ∧ Node wantsDag id = Some s.
Proof.
  intros (allstacks & wantsDag & Hload & Hbuild & Hloop)%AddWantedOf_inv.
  exists allstacks, wantsDag. split; [done|]. split; [done|].
  assert (soundAt Node AncestorsOf wantsDag (stackID <$> scopeStacks)
            (stackID <$> scopeStacks) ∅ []) as Hinit.
  { split; [|split; [|split]].
    - intros id. rewrite elem_of_empty. simpl. split; [done|by intros ?%elem_of_nil].
    - constructor.
    - by intros s ?%elem_of_nil.
    - intros id Hid. exists id. split; [done|]. constructor. }
  destruct (wantedLoop_inv wantsDag
              (soundAt Node AncestorsOf wantsDag (stackID <$> scopeStacks)) fuel
              (soundAt_step wantsDag (stackID <$> scopeStacks))
              _ _ _ _ Hinit Hloop) as (visited' & _ & Hnd & Hsel & _).
  done.
Qed.

Lemma completeAt_step (wantsDag : D) seeds id rest visited_ selected s :
  nodesKeyed Node wantsDag →
  completeAt Node AncestorsOf wantsDag seeds (id :: rest) visited_ selected →
  Node wantsDag id = Some s →
  completeAt Node AncestorsOf wantsDag seeds
    (rest ++ filter (λ a, a ∉ (addStack s visited_ selected).1)
                    (AncestorsOf wantsDag id))
    (addStack s visited_ selected).1 (addStack s visited_ selected).2.
Proof.
  intros Hkeyed (Hseeds & Hclosed & Hnodes) Hnode.
  pose proof (Hkeyed id s Hnode) as Hid.
  unfold addStack. rewrite Hid. case_bool_decide as Hin; simpl.
  - split; [|split; [|done]].
    + intros seed [Hs|[->|Hs]%elem_of_cons]%Hseeds; [by left|by left|].
      right. apply elem_of_app. by left.
    + intros id' a Hid' [Ha|[->|Ha]%elem_of_cons]%(Hclosed id' a Hid');
        [by left|by left|].
      right. apply elem_of_app. by left.
  - split; [|split].
    + intros seed [Hs|[->|Hs]%elem_of_cons]%Hseeds.
      * left. apply elem_of_union. by right.
      * left. apply elem_of_union. left. by apply elem_of_singleton.
      * right. apply elem_of_app. by left.
    + intros id' a [->%elem_of_singleton|Hid']%elem_of_union Ha.
      * destruct (decide (a ∈ ({[id]} ∪ visited_ : gset string))) as [Hv|Hv];
          [by left|].
        right. apply elem_of_app. right. by apply list_elem_of_filter.
      * destruct (Hclosed id' a Hid' Ha) as [Hv|[->|Hr]%elem_of_cons].
        -- left. apply elem_of_union. by right.
        -- left. apply elem_of_union. left. by apply elem_of_singleton.
        -- right. apply elem_of_app. by left.
    + intros id' [->%elem_of_singleton|Hid']%elem_of_union.
      * exists s. split; [|done]. apply elem_of_app. right.
        by apply list_elem_of_singleton.
      * destruct (Hnodes id' Hid') as (s' & Hs' & Hn'). exists s'.
        split; [|done]. apply elem_of_app. by left.
Qed.

(** X28: when the graph has every node under the directory of its stack,
    [AddWantedOf] misses no stack: for every identifier that is reached from
    the directory of a given stack along the edges to the ancestors, the
    node under it is among the stacks returned. *)
Theorem X28_AddWantedOf_selects_all_reached (fuel : nat)
    (scopeStacks selected allstacks : list Stack) (wantsDag : D) (id : string) :
  LoadAllStacks = Ok allstacks →
  buildAll BuildDAG (sortStacks allstacks) dag_New ∅ = Ok wantsDag →
  nodesKeyed Node wantsDag →
  AddWanted fuel scopeStacks = Return (Ok selected) →
  reached AncestorsOf wantsDag (stackID <$> scopeStacks) id →
  ∃ s, s ∈ selected ∧ Node wantsDag id = Some s.
Proof.
  intros Hload Hbuild Hkeyed
         (allstacks' & wantsDag' & Hload' & Hbuild' & Hloop)%AddWantedOf_inv Hid.
  assert (allstacks' = allstacks) as -> by congruence.
  assert (wantsDag' = wantsDag) as -> by congruence.
  assert (completeAt Node AncestorsOf wantsDag (stackID <$> scopeStacks)
            (stackID <$> scopeStacks) ∅ []) as Hinit.
  { split; [|split].
    - intros seed Hseed. by right.
    - by intros id' a ?%elem_of_empty.
    - by intros id' ?%elem_of_empty. }
  destruct (wantedLoop_inv wantsDag
              (completeAt Node AncestorsOf wantsDag (stackID <$> scopeStacks)) fuel
              (λ id rest v sel s, completeAt_step wantsDag _ id rest v sel s Hkeyed)
              _ _ _ _ Hinit Hloop) as (visited' & Hseeds & Hclosed & Hnodes).
  apply Hnodes. destruct Hid as (seed & Hseed & Hrtc).
  assert (seed ∈ visited') as Hv.
  { destruct (Hseeds seed Hseed) as [Hv|Hp]; [done|by apply elem_of_nil in Hp]. }
  clear Hseed. induction Hrtc as [seed|seed a id Ha Hrtc IH]; [done|].
  apply IH. destruct (Hclosed seed a Hv Ha) as [Hva|Hp]; [done|].
  by apply elem_of_nil in Hp.
Qed.

(** What the loop returns within a bound, it returns within every greater
    bound. *)
Lemma wantedLoop_le (wantsDag : D) fuel fuel' pending visited_ selected sel :
  fuel ≤ fuel' →
  loop fuel wantsDag pending visited_ selected = Return sel →
  loop fuel' wantsDag pending visited_ selected = Return sel.
Proof.
  revert fuel' pending visited_ selected.
  induction fuel as [|fuel IH]; intros fuel' pending visited_ selected Hle.
  - destruct pending; simpl; [|done]. intros [= <-]. by destruct fuel'.
  - destruct fuel' as [|fuel']; [lia|].
    destruct pending as [|id rest]; simpl; [done|].
    destruct (Node wantsDag id) as [s|]; [|done].
    destruct (addStack s visited_ selected) as [visited' selected'].
    apply IH. lia.
Qed.

(** The loop ends: a visit of a node not visited before leaves fewer nodes
    to visit, and a visit of one visited before leaves fewer visited nodes
    at the front of the queue. *)
Lemma wantedLoop_returns (wantsDag : D) (U : gset string) :
  (∀ id, id ∈ U → ∃ s, Node wantsDag id = Some s ∧ stackID s = id) →
  (∀ id a, id ∈ U → a ∈ AncestorsOf wantsDag id → a ∈ U) →
  ∀ n1 n2 pending visited_ selected,
    Forall (λ id, id ∈ U) pending →
    size (U ∖ visited_) ≤ n1 → visitedFront visited_ pending ≤ n2 →
    ∃ fuel sel, loop fuel wantsDag pending visited_ selected = Return sel.
Proof.
  intros Hnodes Hclosed.
  induction n1 as [n1 IH1] using lt_wf_ind.
  induction n2 as [|n2 IH2]; intros pending visited_ selected Hpend Hsize Hfront.
  - destruct pending as [|id rest]; [by exists 0, selected|].
    apply Forall_cons in Hpend as [Hid Hrest].
    destruct (Hnodes id Hid) as (s & Hnode & Hs).
    simpl in Hfront. destruct (decide (id ∈ visited_)) as [Hv|Hv]; [lia|].
    pose proof (size_difference_visit U visited_ id Hid Hv) as Hless.
    destruct (IH1 (size (U ∖ ({[id]} ∪ visited_))) ltac:(lia)
                (visitedFront ({[id]} ∪ visited_)
                   (rest ++ filter (λ a, a ∉ ({[id]} ∪ visited_ : gset string))
                                   (AncestorsOf wantsDag id)))
                (rest ++ filter (λ a, a ∉ ({[id]} ∪ visited_ : gset string))
                                (AncestorsOf wantsDag id))
                ({[id]} ∪ visited_) (selected ++ [s]))
      as (fuel & sel & Hloop); [|lia|lia|].
    { apply Forall_app. split; [done|]. apply Forall_forall.
      intros a [_ Ha]%list_elem_of_filter. by eapply Hclosed. }
    exists (S fuel), sel. simpl. rewrite Hnode. unfold addStack. rewrite Hs.
    by rewrite bool_decide_eq_false_2.
  - destruct pending as [|id rest]; [by exists 0, selected|].
    apply Forall_cons in Hpend as [Hid Hrest].
    destruct (Hnodes id Hid) as (s & Hnode & Hs).
    simpl in Hfront. destruct (decide (id ∈ visited_)) as [Hv|Hv].
    + destruct (IH2 (rest ++ filter (λ a, a ∉ visited_) (AncestorsOf wantsDag id))
                  visited_ selected) as (fuel & sel & Hloop); [|done| |].
      { apply Forall_app. split; [done|]. apply Forall_forall.
        intros a [_ Ha]%list_elem_of_filter. by eapply Hclosed. }
      { rewrite visitedFront_app; [lia|]. apply Forall_forall.
        by intros a [Ha _]%list_elem_of_filter. }
      exists (S fuel), sel. simpl. rewrite Hnode. unfold addStack. rewrite Hs.
      by rewrite bool_decide_eq_true_2.
    + pose proof (size_difference_visit U visited_ id Hid Hv) as Hless.
      destruct (IH1 (size (U ∖ ({[id]} ∪ visited_))) ltac:(lia)
                  (visitedFront ({[id]} ∪ visited_)
                     (rest ++ filter (λ a, a ∉ ({[id]} ∪ visited_ : gset string))
                                     (AncestorsOf wantsDag id)))
                  (rest ++ filter (λ a, a ∉ ({[id]} ∪ visited_ : gset string))
                                  (AncestorsOf wantsDag id))
                  ({[id]} ∪ visited_) (selected ++ [s]))
        as (fuel & sel & Hloop); [|lia|lia|].
      { apply Forall_app. split; [done|]. apply Forall_forall.
        intros a [_ Ha]%list_elem_of_filter. by eapply Hclosed. }
      exists (S fuel), sel. simpl. rewrite Hnode. unfold addStack. rewrite Hs.
      by rewrite bool_decide_eq_false_2.
Qed.

(** X29: when the identifiers that can be reached are finitely many, each
    with a node of its own directory in the graph, the loop of
    [AddWantedOf] ends, whatever cycles the graph has: [AddWantedOf] returns
    a list of stacks, the same for every bound of the iterations that is
    large enough. *)
Theorem X29_AddWantedOf_returns (scopeStacks allstacks : list Stack) (wantsDag : D)
    (universe : list string) :
  LoadAllStacks = Ok allstacks →
  buildAll BuildDAG (sortStacks allstacks) dag_New ∅ = Ok wantsDag →
  (∀ id, id ∈ universe → ∃ s, Node wantsDag id = Some s ∧ stackID s = id) →
  (∀ id a, id ∈ universe → a ∈ AncestorsOf wantsDag id → a ∈ universe) →
  (∀ s, s ∈ scopeStacks → stackID s ∈ universe) →
  ∃ fuel0 selected,
    ∀ fuel, fuel0 ≤ fuel → AddWanted fuel scopeStacks = Return (Ok selected).
Proof.
  intros Hload Hbuild Hnodes Hclosed Hscope.
  destruct (wantedLoop_returns wantsDag (list_to_set universe)) with
    (n1 := size (list_to_set universe ∖ ∅ : gset string))
    (n2 := visitedFront ∅ (stackID <$> scopeStacks))
    (pending := stackID <$> scopeStacks) (visited_ := (∅ : gset string))
    (selected := @nil Stack) as (fuel0 & sel & Hloop); [| | |done|done|].
  - intros id Hid%elem_of_list_to_set. by apply Hnodes.
  - intros id a Hid%elem_of_list_to_set Ha. apply elem_of_list_to_set.
    by eapply Hclosed.
  - apply Forall_fmap, Forall_forall. intros s Hs. simpl.
    apply elem_of_list_to_set. by apply Hscope.
  - exists fuel0, sel. intros fuel Hle. unfold AddWantedOf.
    rewrite Hload, Hbuild. by rewrite (wantedLoop_le _ _ _ _ _ _ _ Hle Hloop).
Qed.

End Laws.
End WantedLaws.

(** ** The evaluation context of a stack *)

Module EvalCtxLaws.
Import Lets Stack LetsLaws.

Section Laws.
Context {cty Tree Object : Type}.
Variable NewContext : string → Context cty.
Variable Runtime : Root Tree → gmap string cty.
Variable RuntimeValues : Stack → Root Tree → gmap string cty.
Variable Merge : gmap string cty → gmap string cty → gmap string cty.
Variable AsValueMap : Object → gmap string cty.

(** X30: the context [NewEvalCtx] makes has the globals under the namespace
    [global] and the merged runtime values of the root and the stack under
    [terramate], and is otherwise the new context; the order of
    [SetMetadata] and [SetGlobals] makes no difference; and an evaluation of
    lets in this context that returns leaves both namespaces as they are. *)
Theorem X30_NewEvalCtx_namespaces (root_ : Root Tree) (stack : Stack) (globals : Object) :
  let e := NewEvalCtx NewContext Runtime RuntimeValues Merge AsValueMap
             root_ stack globals in
  let runtime := Merge (Runtime root_) (RuntimeValues stack root_) in
  namespaces (Context_ e) !! "global" = Some (AsValueMap globals) ∧
  namespaces (Context_ e) !! "terramate" = Some runtime ∧
  (∀ X, X ≠ "global" → X ≠ "terramate" →
        namespaces (Context_ e) !! X
        = namespaces (NewContext (StackHostDir stack)) !! X) ∧
  (∀ e0 : EvalCtx,
      SetGlobals AsValueMap (SetMetadata Runtime RuntimeValues Merge e0 stack) globals
      = SetMetadata Runtime RuntimeValues Merge (SetGlobals AsValueMap e0 globals) stack) ∧
  (∀ (order : nat → gmap string (Expr cty) → list (string * Expr cty))
     (letExprs : gmap string (Expr cty)) r,
      (∀ n mp, order n mp ≡ₚ map_to_list mp) →
      Lets.Eval order letExprs (Context_ e) = Return r →
      namespaces (resCtx r) !! "global" = Some (AsValueMap globals) ∧
      namespaces (resCtx r) !! "terramate" = Some runtime).
Proof.
  cbv zeta. unfold NewEvalCtx, SetGlobals, SetMetadata, SetNamespace. simpl.
  assert (∀ ns : gmap string (gmap string cty),
            <["global" := AsValueMap globals]>
              (<["terramate" := Merge (Runtime root_) (RuntimeValues stack root_)]> ns)
            !! "terramate"
            = Some (Merge (Runtime root_) (RuntimeValues stack root_))) as Hterramate.
  { intros ns. rewrite lookup_insert_ne by done. by rewrite lookup_insert_eq. }
  split; [by rewrite lookup_insert_eq|]. split; [apply Hterramate|]. split; [|split].
  - intros X HX1 HX2. by rewrite !lookup_insert_ne.
  - intros e0. f_equal. f_equal. by apply insert_insert_ne.
  - intros order letExprs r Hperm Hret.
    rewrite !(Eval_others order Hperm _ _ r _ Hret) by done. simpl.
    split; [by rewrite lookup_insert_eq|apply Hterramate].
Qed.

End Laws.
End EvalCtxLaws.

(** ** The laws on the scenarios *)

Module LetsLawsChecks.
Import Lets LetsFacts LetsScenarios LetsChecks LetsLaws.

Lemma X1_witness :
  copyexprs byName forwardRef withUnset = withUnset ∪ forwardRef
  ∧ (∀ k e, removeUnset byName withUnset !! k = Some e
            ↔ withUnset !! k = Some e ∧ ¬ bareUnset e)
  ∧ removeUnset byName (removeUnset byName withUnset) = removeUnset byName withUnset.
Proof.
  exact (X1_copyexprs_removeUnset byName byName_perm forwardRef withUnset withUnset).
Defined.

Lemma X2_witness :
  ends True (evalRun byName forwardRef noCtx)
    (λ r, 2 ≤ r.1 ∧ r.1 - 2 ≤ size forwardRef)
  ∧ Lets.Eval byName forwardRef noCtx ≠ OutOfFuel.
Proof. exact (X2_Eval_passes_bounded byName byName_perm forwardRef noCtx). Defined.

(** [let { a = 1  b = foo.x  q = let.q }]: [a] is evaluated, and the error
    names [b] and [q]. *)
Example partly_evaluated :
  ∃ r errs, Lets.Eval byName partly noCtx = Return r ∧ resErr r = Some errs ∧
    resFor r = ["b"; "q"] ∧ dom (resLets r) = {["a"]}.
Proof. eexists _, _. by vm_compute. Qed.

Lemma X3_witness :
  ∃ r, Lets.Eval byName partly noCtx = Return r ∧
    (∀ k, is_Some (resLets r !! k) ∨ k ∈ resFor r
          ↔ ∃ e, partly !! k = Some e ∧ isUnset e = false) ∧
    (∀ k, is_Some (resLets r !! k) → k ∉ resFor r) ∧
    NoDup (resFor r) ∧
    (resErr r = None ↔ resFor r = []) ∧
    (resErr r = None ↔
     ∀ k e, partly !! k = Some e → isUnset e = false → is_Some (resLets r !! k)).
Proof.
  eexists. split; [by vm_compute|].
  apply (X3_Eval_accounts_for_entries byName byName_perm partly noCtx).
  by vm_compute.
Defined.

Lemma X4_witness :
  ∃ r, Lets.Eval byName forwardRef someCtx = Return r ∧
    (∀ X, X ≠ "let" → namespaces (resCtx r) !! X = namespaces someCtx !! X) ∧
    (resLets r ≠ ∅ →
     namespaces (resCtx r) !! "let" = Some (Attributes (resLets r))) ∧
    (resLets r = ∅ →
     resCtx r = if HasNamespace someCtx "let" then someCtx
                else SetNamespace someCtx "let" ∅).
Proof.
  eexists. split; [by vm_compute|].
  apply (X4_Eval_context byName byName_perm forwardRef someCtx).
  by vm_compute.
Defined.

(** The value under [let] that the context had is gone once a let is
    evaluated. *)
Example someCtx_let_replaced :
  ∃ r lets, Lets.Eval byName forwardRef someCtx = Return r ∧
    namespaces (resCtx r) !! "let" = Some lets ∧ lets !! "old" = None ∧
    namespaces someCtx !! "let" = Some {[ "old" := 7%Z ]}.
Proof. eexists _, _. by vm_compute. Qed.

Lemma X5_witness :
  ∃ r errs, Lets.Eval byName partly noCtx = Return r ∧ resErr r = Some errs ∧
    Forall2 (λ k err,
        ∃ e, partly !! k = Some e ∧ ¬ bareUnset e ∧
             errKind err = Some ErrEval ∧
             ((errCauses err = [E None (Some (ExprRange (Expression_ e)))
                                  ("undefined let " +:+ k) []] ∧
               ∃ b, b ∈ letDeps e ∧ b ∈ resFor r) ∨
              (errCauses err ≠ [] ∧ Forall (reported noCtx k e) (errCauses err))))
      (resFor r) errs.
Proof.
  eexists _, _. split; [by vm_compute|]. split; [by vm_compute|].
  apply (X5_Eval_error_report byName byName_perm partly noCtx); by vm_compute.
Defined.

Lemma X6_witness :
  ∃ r v, Lets.Eval byName forwardRef noCtx = Return r ∧ resLets r !! "a" = Some v ∧
    ∃ e, forwardRef !! "a" = Some e ∧ isUnset e = false ∧ VOrigin v = Origin e ∧
         ∀ b eb, b ∈ letDeps e → forwardRef !! b = Some eb → isUnset eb = false →
                 is_Some (resLets r !! b).
Proof.
  eexists _, _. split; [by vm_compute|]. split; [by vm_compute|].
  apply (X6_Eval_dependencies_first byName byName_perm forwardRef noCtx);
    by vm_compute.
Defined.

Lemma X7_witness :
  ∃ r v, Lets.Eval byName forwardRef noCtx = Return r ∧ resLets r !! "a" = Some v ∧
    ∃ e c', forwardRef !! "a" = Some e ∧
      ExprValue (Expression_ e) c' = Ok (Value_ v) ∧
      (∀ X, X ≠ "let" → namespaces c' !! X = namespaces noCtx !! X) ∧
      (c' = (if HasNamespace noCtx "let" then noCtx else SetNamespace noCtx "let" ∅) ∨
       ∃ sub : gmap string (Value Z),
         sub ⊆ resLets r ∧ sub !! "a" = None ∧
         namespaces c' !! "let" = Some (Attributes sub)).
Proof.
  eexists _, _. split; [by vm_compute|]. split; [by vm_compute|].
  apply (X7_Eval_values byName byName_perm forwardRef noCtx); by vm_compute.
Defined.

Lemma X8_witness :
  Lets.Eval byName onlyUnset noCtx
  = Return {| resCtx := if HasNamespace noCtx "let" then noCtx
                        else SetNamespace noCtx "let" ∅;
              resLets := ∅; resFor := []; resErr := None |}.
Proof.
  apply (X8_Eval_nothing_to_evaluate byName byName_perm onlyUnset noCtx).
  intros k e Hk. by entries Hk onlyUnset.
Defined.

Lemma X9_witness :
  ∃ exprs, loadExprs sortedList newMapExpr cleanBlock = Return (Ok exprs) ∧
    (∀ k attr, MAttributes cleanBlock !! k = Some attr →
       exprs !! k = Some {| Origin := AttrRange attr; Expression_ := AttrExpr attr |}) ∧
    (∀ b, b ∈ Blocks cleanBlock →
       ∃ label, Labels b !! 0 = Some label ∧ MAttributes cleanBlock !! label = None ∧
                is_Some (exprs !! label)) ∧
    (∀ k e, exprs !! k = Some e → MAttributes cleanBlock !! k = None →
       ∃ b, b ∈ Blocks cleanBlock ∧ Labels b !! 0 = Some k ∧
            newMapExpr b = Ok (Expression_ e) ∧ RawOrigins b !! 0 = Some (Origin e)).
Proof.
  eexists. split; [by vm_compute|].
  apply (X9_loadExprs_loaded sortedList newMapExpr cleanBlock).
  - reflexivity.
  - simpl. by intros k attr [<- <-]%lookup_singleton_Some.
  - by vm_compute.
Defined.

Lemma X10_witness :
  ∃ c' err,
    Load sortedList newMapExpr byName collidingBlock noCtx
    = Return (c', Some (ErrorOf err)) ∧
    c' = noCtx ∧ (errKind err = Some ErrRedefined ∨ errKind err = Some ErrEval).
Proof.
  eexists _, _. split; [by vm_compute|].
  apply (X10_Load_errors sortedList newMapExpr byName collidingBlock noCtx _
           (Some (ErrorOf _))).
  by vm_compute.
Defined.

End LetsLawsChecks.

Module StackLawsChecks.
Import Stack StackFacts StackScenarios StackChecks StackLaws.

Lemma X13_witness :
  filesApply mixed "/repo/s1" recordName []
  = Return (Ok (), foldl (λ names file, names ++ [Name file]) []
                     (filter (λ file, EntryIsDir file = false) mixedEntries)).
Proof.
  apply (X13_filesApply_files_in_order mixed "/repo/s1" recordName
           (λ file names, names ++ [Name file]) mixedEntries []).
  - reflexivity.
  - reflexivity.
Defined.

Example mixed_names :
  filesApply mixed "/repo/s1" recordName [] = Return (Ok (), ["a.tf"; "b.tf"; "c.tf"]).
Proof. by vm_compute. Qed.

Lemma X14_witness :
  filesApply mixed "/repo/s1" failOnB []
  = Return (Err (E None None ("applying operation to file " +:+ quote mixed "b.tf")
                   [E None None "cannot read" []]), ["a.tf"]).
Proof.
  apply (X14_filesApply_stops_at_error mixed "/repo/s1" failOnB
           (λ file names, names ++ [Name file])
           [ {| Name := "a.tf"; EntryIsDir := false |};
             {| Name := "sub"; EntryIsDir := true |} ]
           [ {| Name := "c.tf"; EntryIsDir := false |} ]
           {| Name := "b.tf"; EntryIsDir := false |} [] ["a.tf"]).
  - reflexivity.
  - intros f s [->|Hf]%elem_of_cons Hdir; [done|].
    apply list_elem_of_singleton in Hf as ->. done.
  - reflexivity.
  - by vm_compute.
Defined.

Lemma X15_witness :
  ∃ reason v',
    moduleChanged ahead manager 3 {| Source := "../mods/m" |} "/repo/s4" newWalk
    = Return (Ok (true, reason), v') ∧
    IsLocal {| Source := "../mods/m" |} = true ∧
    ("../mods/m" ∉ visited newWalk) ∧
    ∃ dir st, Stat ahead dir = Ok st ∧ FileIsDir st = true
              ∧ hasChanges ahead manager dir.
Proof.
  eexists _, _. split; [by vm_compute|].
  eapply (X15_moduleChanged_changed_sound ahead manager 3 {| Source := "../mods/m" |}
            "/repo/s4" newWalk).
  by vm_compute.
Defined.

Lemma X16_witness :
  ∃ err, ListChanged noRepo manager 3 = Return (Err err) ∧
         errKind err = Some errListChanged.
Proof.
  eexists. split; [by vm_compute|].
  apply (X16_ListChanged_error_kind noRepo manager 3). by vm_compute.
Defined.

Lemma X17_witness :
  ∃ changedFiles allstacks,
    listChangedFiles ahead (HostDir (root manager)) (gitBaseRef manager)
    = Ok changedFiles ∧
    ListStacks (root manager) = Ok allstacks ∧
    ∀ e, e ∈ Stacks aheadReport → justified ahead manager 3 changedFiles allstacks e.
Proof.
  apply (X17_ListChanged_entries_justified ahead manager 3 aheadReport).
  exact ahead_ListChanged.
Defined.

Lemma X18_witness :
  ∃ e, e ∈ Stacks aheadReport ∧
       entryDir e = entryDir {| EntryStack := stackAt ["s3"]; Reason := EmptyString |}.
Proof.
  eapply (X18_ListChanged_reports_watching_stack ahead manager 3 aheadReport _ _
            {| EntryStack := stackAt ["s3"]; Reason := EmptyString |}
            ["shared"; "vars.tf"]).
  - exact ahead_ListChanged.
  - by vm_compute.
  - reflexivity.
  - simpl. apply list_elem_of_further, list_elem_of_here.
  - simpl. apply list_elem_of_here.
  - apply (bool_decide_unpack _). by vm_compute.
Defined.

Lemma X19_witness :
  ∃ e, e ∈ Stacks aheadReport ∧
       entryDir e = entryDir {| EntryStack := stackAt ["s4"]; Reason := EmptyString |}.
Proof.
  eapply (X19_ListChanged_reports_changed_module ahead manager 3 aheadReport _
            {| EntryStack := stackAt ["s4"]; Reason := EmptyString |}
            _ {| Name := "main.tf"; EntryIsDir := false |} _
            {| Source := "../mods/m" |}).
  - exact ahead_ListChanged.
  - reflexivity.
  - simpl. apply list_elem_of_here.
  - by vm_compute.
  - apply list_elem_of_here.
  - reflexivity.
  - by vm_compute.
  - by vm_compute.
  - apply list_elem_of_here.
  - by vm_compute.
Defined.

Lemma X20_witness :
  ∃ e, e ∈ Stacks aheadReport ∧
       entryDir e = Path_String (cfgPath ahead manager "s2/main.tf").
Proof.
  eapply (X20_ListChanged_reports_changed_stack ahead manager 3 aheadReport _
            "s2/main.tf" (stackAt ["s2"])).
  - exact ahead_ListChanged.
  - by vm_compute.
  - apply (bool_decide_unpack _). by vm_compute.
  - by vm_compute.
  - by vm_compute.
  - exists ["s2"]. split; [by vm_compute|]. split; [done|]. by vm_compute.
  - by vm_compute.
Defined.

Lemma X21_witness :
  lookupParent manager 2 ["s1"; "sub"] None
  = Return (Lookup (root manager) (take 1 ["s1"; "sub"])).
Proof.
  apply (X21_lookupParent_nearest_stack manager 2 ["s1"; "sub"] None 1).
  - simpl. lia.
  - simpl. lia.
  - intros i Hi. simpl in Hi. assert (i = 2) as -> by lia. by vm_compute.
  - intros i Hi. simpl in Hi. lia.
  - by vm_compute.
Defined.

Lemma X23_witness :
  ∃ allstacks, ListStacks (root manager) = Ok allstacks ∧
    Manager_List ahead manager
    = Ok {| Stacks := allstacks; Checks := Checks aheadReport |}.
Proof.
  apply (X23_List_agrees_with_ListChanged ahead manager 3 aheadReport).
  exact ahead_ListChanged.
Defined.

Lemma X25_witness : sort_Sort (reverse (Stacks aheadReport)) = Stacks aheadReport.
Proof.
  apply (X25_ListChanged_any_range_order ahead manager 3 aheadReport).
  - exact ahead_ListChanged.
  - apply reverse_Permutation.
Defined.

Lemma X26_witness :
  ∃ res, ∀ fuel, length sources < fuel → ListChanged atBase manager fuel = Return res.
Proof.
  exact (X26_ListChanged_returns_whatever_the_bound atBase manager sources
           parsed_sources).
Defined.

End StackLawsChecks.

Module WantedLawsChecks.
Import Stack StackScenarios WantedLaws.

#[local] Abbreviation addWanted :=
  (AddWantedOf (Ok wantStacks) (λ l, l) [] buildDag nodeOf ancestorsOf).

(** From [/a] the stacks [/a], [/b] and [/c] are selected, and [/d], which
    wants [/a], is not. *)
Example wanted_of_a :
  ∃ selected, addWanted 4 [wantStack "a" ["/b"]] = Return (Ok selected) ∧
              stackID <$> selected = ["/a"; "/b"; "/c"].
Proof. eexists. by vm_compute. Qed.

Lemma wantStacks_built :
  buildAll buildDag ((λ l, l) wantStacks) [] ∅ = Ok wantStacks.
Proof. by vm_compute. Qed.

Lemma nodeOf_keyed d : nodesKeyed nodeOf d.
Proof.
  intros id s Hs. unfold nodeOf in Hs.
  apply fmap_Some in Hs as ([i s'] & Hfind & ->).
  by apply list_find_Some in Hfind as (_ & Heq & _).
Qed.

Lemma X27_witness :
  ∃ selected, addWanted 4 [wantStack "a" ["/b"]] = Return (Ok selected) ∧
  ∃ allstacks wantsDag,
    (Ok wantStacks : result Error (list Stack)) = Ok allstacks ∧
    buildAll buildDag ((λ l, l) allstacks) [] ∅ = Ok wantsDag ∧
    NoDup (stackID <$> selected) ∧
    ∀ s, s ∈ selected →
         ∃ id, reached ancestorsOf wantsDag (stackID <$> [wantStack "a" ["/b"]]) id
               ∧ nodeOf wantsDag id = Some s.
Proof.
  eexists. split; [by vm_compute|].
  apply (X27_AddWantedOf_selects_reached_once (Ok wantStacks) (λ l, l) [] buildDag
           nodeOf ancestorsOf 4 [wantStack "a" ["/b"]]).
  by vm_compute.
Defined.

Lemma X28_witness :
  ∃ selected, addWanted 4 [wantStack "a" ["/b"]] = Return (Ok selected) ∧
  ∃ s, s ∈ selected ∧ nodeOf wantStacks "/c" = Some s.
Proof.
  eexists. split; [by vm_compute|].
  apply (X28_AddWantedOf_selects_all_reached (Ok wantStacks) (λ l, l) [] buildDag
           nodeOf ancestorsOf 4 [wantStack "a" ["/b"]] _ wantStacks wantStacks "/c").
  - reflexivity.
  - exact wantStacks_built.
  - apply nodeOf_keyed.
  - by vm_compute.
  - exists "/a". split; [apply list_elem_of_here|].
    apply (rtc_l _ _ "/b"); [apply (bool_decide_unpack _); by vm_compute|].
    apply rtc_once. apply (bool_decide_unpack _). by vm_compute.
Defined.

Lemma X29_witness :
  ∃ fuel0 selected,
    ∀ fuel, fuel0 ≤ fuel →
            addWanted fuel [wantStack "a" ["/b"]] = Return (Ok selected).
Proof.
  apply (X29_AddWantedOf_returns (Ok wantStacks) (λ l, l) [] buildDag nodeOf
           ancestorsOf [wantStack "a" ["/b"]] wantStacks wantStacks wantIds).
  - reflexivity.
  - exact wantStacks_built.
  - intros id Hid. unfold wantIds in Hid.
    repeat (apply elem_of_cons in Hid as [->|Hid]);
      [..|by apply elem_of_nil in Hid]; eexists; by vm_compute.
  - intros id a Hid Ha. apply (bool_decide_unpack _). unfold wantIds in Hid.
    repeat (apply elem_of_cons in Hid as [->|Hid]);
      [..|by apply elem_of_nil in Hid].
    + assert (ancestorsOf wantStacks "/a" = ["/b"]) as Heq by (by vm_compute).
      rewrite Heq in Ha. apply list_elem_of_singleton in Ha as ->. by vm_compute.
    + assert (ancestorsOf wantStacks "/b" = ["/c"; "/a"]) as Heq by (by vm_compute).
      rewrite Heq in Ha.
      repeat (apply elem_of_cons in Ha as [->|Ha]); [..|by apply elem_of_nil in Ha];
        by vm_compute.
    + assert (ancestorsOf wantStacks "/c" = []) as Heq by (by vm_compute).
      rewrite Heq in Ha. by apply elem_of_nil in Ha.
    + assert (ancestorsOf wantStacks "/d" = ["/a"]) as Heq by (by vm_compute).
      rewrite Heq in Ha. apply list_elem_of_singleton in Ha as ->. by vm_compute.
  - intros s ->%list_elem_of_singleton. apply (bool_decide_unpack _). by vm_compute.
Defined.

End WantedLawsChecks.
